(** * property-map: EXIF extraction, redaction and bearing helpers

    A shallow embedding of the photo application's EXIF module ([exif.ts]),
    of [Photo.getBearingLabel] ([photo.entity.ts]) and of
    [calculateBearing] ([PhotoMarker.svelte]), with the properties the
    design document states about them; and of the code around them: the
    uploader and the direction handle of [PhotoMarker.svelte], the
    direction picker ([DirectionPicker.svelte]) and [Photo.formatDuration],
    with further properties read off the code.

    Conventions of the embedding:
    - a [DataView] is the list of the bytes of its buffer; every read
      returns a [completion], [Throw RangeError] standing for the exception
      the accessor raises when the read leaves the buffer;
    - byte offsets and the integers read from the buffer are in [Z];
    - the numbers stored in the result (latitude, longitude, bearing) and
      the bearing a label is computed from are IEEE-754 binary64 values,
      Rocq's primitive [float], so [+], [/] and unary minus are those of
      the JavaScript [Number] type; [Math.sin], [Math.cos] and
      [Math.atan2], which the language leaves implementation-approximated,
      are a parameter of [calculateBearing];
    - [try]/[catch] is written out: a loop returns the state its variables
      had when the exception was raised together with a flag. *)

From Stdlib Require Import ZArith List String Ascii Strings.Byte Bool Lia.
From Stdlib Require Import DecimalString.
From Stdlib Require Import Floats Uint63.
Import ListNotations.

Local Open Scope Z_scope.

(** ** Completions: normal return or a thrown exception *)

Inductive JsError : Type :=
| RangeError
| NotReadableError
| Error (message : string).

Inductive completion (A : Type) : Type :=
| Normal (a : A)
| Throw (e : JsError).

Arguments Normal {A} a.
Arguments Throw {A} e.

Definition bind {A B : Type} (c : completion A) (k : A -> completion B) : completion B :=
  match c with
  | Normal a => k a
  | Throw e => Throw e
  end.

Notation "x <- c ;; k" := (bind c (fun x => k))
  (at level 61, c at next level, right associativity).

(** [try { c } catch { h }] for a handler that cannot itself throw. *)
Definition try_catch {A : Type} (c : completion A) (h : A) : A :=
  match c with
  | Normal a => a
  | Throw _ => h
  end.

(** ** Strings *)

Definition toLowerCaseChar (c : ascii) : ascii :=
  let n := nat_of_ascii c in
  if (andb (Nat.leb 65 n) (Nat.leb n 90)) then ascii_of_nat (n + 32) else c.

Fixpoint toLowerCase (s : string) : string :=
  match s with
  | EmptyString => EmptyString
  | String c s' => String (toLowerCaseChar c) (toLowerCase s')
  end.

Definition startsWith (s p : string) : bool := String.prefix p s.

Definition endsWith (s p : string) : bool :=
  let ls := String.length s in
  let lp := String.length p in
  if Nat.leb lp ls then String.eqb (String.substring (ls - lp) lp s) p else false.

(** [String.fromCharCode] on byte-sized code units. *)
Definition fromCharCode (n : Z) : ascii := ascii_of_N (Z.to_N n).

Definition fromCharCodes (l : list Z) : string :=
  string_of_list_ascii (map fromCharCode l).

(** ** DataView *)

Definition DataView : Type := list byte.

Definition byteLength (view : DataView) : Z := Z.of_nat (List.length view).

Definition byteAt (view : DataView) (offset : Z) : Z :=
  match nth_error view (Z.to_nat offset) with
  | Some b => Z.of_N (Byte.to_N b)
  | None => 0
  end.

Definition inBounds (view : DataView) (offset size : Z) : bool :=
  (0 <=? offset) && (offset + size <=? byteLength view).

Definition getUint8 (view : DataView) (offset : Z) : completion Z :=
  if inBounds view offset 1 then Normal (byteAt view offset) else Throw RangeError.

Definition getUint16 (view : DataView) (offset : Z) (littleEndian : bool) : completion Z :=
  if inBounds view offset 2 then
    let b0 := byteAt view offset in
    let b1 := byteAt view (offset + 1) in
    Normal (if littleEndian then b0 + 256 * b1 else 256 * b0 + b1)
  else Throw RangeError.

Definition getUint32 (view : DataView) (offset : Z) (littleEndian : bool) : completion Z :=
  if inBounds view offset 4 then
    let b0 := byteAt view offset in
    let b1 := byteAt view (offset + 1) in
    let b2 := byteAt view (offset + 2) in
    let b3 := byteAt view (offset + 3) in
    Normal (if littleEndian
            then b0 + 256 * b1 + 65536 * b2 + 16777216 * b3
            else 16777216 * b0 + 65536 * b1 + 256 * b2 + b3)
  else Throw RangeError.

(** ** Numbers *)

(** The [Number] holding an integer read from the buffer (exact below 2^53). *)
Definition toNumber (n : Z) : float := PrimFloat.of_uint63 (Uint63.of_Z n).

(** ** A [for (let i = 0; i < n; i++)] loop whose body may throw

    [body i s] is one iteration from state [s]; every loop of the module
    assigns to its variables as the last action of an iteration, so a
    throwing iteration leaves the state it started from.  The flag is
    [true] when the loop ran to completion. *)

Fixpoint for_loop {S : Type} (body : Z -> S -> completion S)
    (n : nat) (i : Z) (s : S) : S * bool :=
  match n with
  | O => (s, true)
  | Datatypes.S n' =>
      match body i s with
      | Normal s' => for_loop body n' (i + 1) s'
      | Throw _ => (s, false)
      end
  end.

(** ** [exif.ts]: constants and the result record *)

Definition EXIF_MARKER : Z := 0xffe1.
Definition EXIF_HEADER : string :=
  String "E" (String "x" (String "i" (String "f" (String Ascii.zero (String Ascii.zero EmptyString))))).
Definition GPS_IFD_POINTER : Z := 0x8825.
Definition GPS_LATITUDE : Z := 0x0002.
Definition GPS_LATITUDE_REF : Z := 0x0001.
Definition GPS_LONGITUDE : Z := 0x0004.
Definition GPS_LONGITUDE_REF : Z := 0x0003.
Definition GPS_IMG_DIRECTION : Z := 0x0011.
Definition DATE_TIME_ORIGINAL : Z := 0x9003.
Definition DATE_TIME_DIGITIZED : Z := 0x9004.

(** [ExifData]; [None] is [null].  The same record stands for
    [Partial<ExifData>], [None] being a key that was never assigned. *)
Record ExifData : Type := mkExifData {
  latitude : option float;
  longitude : option float;
  bearing : option float;
  dateTaken : option string
}.

Definition allAbsent : ExifData := mkExifData None None None None.

Definition orElse {A : Type} (over base : option A) : option A :=
  match over with
  | Some a => Some a
  | None => base
  end.

(** [{ ...base, ...over }] and [Object.assign(base, over)]. *)
Definition spread (base over : ExifData) : ExifData :=
  mkExifData (orElse (latitude over) (latitude base))
             (orElse (longitude over) (longitude base))
             (orElse (bearing over) (bearing base))
             (orElse (dateTaken over) (dateTaken base)).

(** Truthiness of a [string | null] and of a [number | null]. *)
Definition truthyString (o : option string) : bool :=
  match o with
  | Some EmptyString => false
  | Some _ => true
  | None => false
  end.

Definition truthyNumber (o : option Z) : bool :=
  match o with
  | Some n => negb (n =? 0)
  | None => false
  end.

(** ** [gpsToDecimal] *)

Definition gpsToDecimal (degrees minutes seconds : float) (ref : string) : float :=
  let decimal := (degrees + minutes / 60 + seconds / 3600)%float in
  if (String.eqb ref "S" || String.eqb ref "W")%bool then (- decimal)%float else decimal.

(** ** [readGpsRationals] *)

Definition rationalOrZero (num den : Z) : float :=
  if negb (den =? 0) then (toNumber num / toNumber den)%float else 0%float.

Fixpoint readGpsRationals_loop (view : DataView) (offset : Z) (littleEndian : bool)
    (n : nat) (i : Z) (values : list float) : completion (list float) :=
  match n with
  | O => Normal values
  | S n' =>
      num <- getUint32 view (offset + i * 8) littleEndian ;;
      den <- getUint32 view (offset + i * 8 + 4) littleEndian ;;
      readGpsRationals_loop view offset littleEndian n' (i + 1)
        (values ++ [rationalOrZero num den])
  end.

Definition readGpsRationals (view : DataView) (offset : Z) (littleEndian : bool)
  : completion (list float) :=
  readGpsRationals_loop view offset littleEndian 3 0 [].

(** ** [readExifDate] *)

Definition isDigit (c : ascii) : bool :=
  let n := nat_of_ascii c in (Nat.leb 48 n && Nat.leb n 57)%bool.

(** The regular expression
    [(\d{4}):(\d{2}):(\d{2}) (\d{2}):(\d{2}):(\d{2})], one item per
    character it consumes. *)
Inductive pattern_item : Type :=
| Digit
| Lit (c : ascii).

Definition exifDatePattern : list pattern_item :=
  [Digit; Digit; Digit; Digit; Lit ":"; Digit; Digit; Lit ":"; Digit; Digit; Lit " ";
   Digit; Digit; Lit ":"; Digit; Digit; Lit ":"; Digit; Digit].

Fixpoint matchesAt (p : list pattern_item) (s : list ascii) : bool :=
  match p, s with
  | [], _ => true
  | _ :: _, [] => false
  | Digit :: p', c :: s' => (isDigit c && matchesAt p' s')%bool
  | Lit l :: p', c :: s' => (Ascii.eqb l c && matchesAt p' s')%bool
  end.

(** [dateStr.match(...)]: the leftmost position where the (unanchored)
    pattern matches, as the 19 characters matched. *)
Fixpoint regexMatch (s : list ascii) : option (list ascii) :=
  if matchesAt exifDatePattern s then Some (firstn 19 s)
  else match s with
       | [] => None
       | _ :: s' => regexMatch s'
       end.

Definition slice (m : list ascii) (from len : nat) : string :=
  string_of_list_ascii (firstn len (skipn from m)).

(** [`${year}-${month}-${day}T${hour}:${min}:${sec}Z`] *)
Definition isoOfMatch (m : list ascii) : string :=
  (slice m 0 4 ++ "-" ++ slice m 5 2 ++ "-" ++ slice m 8 2 ++ "T"
   ++ slice m 11 2 ++ ":" ++ slice m 14 2 ++ ":" ++ slice m 17 2 ++ "Z")%string.

(** The loop of [readExifDate]: up to [n] characters from [offset + i],
    stopping at a zero byte. *)
Fixpoint readDateChars (view : DataView) (offset : Z) (n : nat) (i : Z)
    (dateStr : list ascii) : completion (list ascii) :=
  match n with
  | O => Normal dateStr
  | S n' =>
      char <- getUint8 view (offset + i) ;;
      if char =? 0 then Normal dateStr
      else readDateChars view offset n' (i + 1) (dateStr ++ [fromCharCode char])
  end.

Definition readExifDate (view : DataView) (offset : Z) : option string :=
  try_catch
    (dateStr <- readDateChars view offset 19 0 [] ;;
     Normal (match regexMatch dateStr with
             | Some m => Some (isoOfMatch m)
             | None => None
             end))
    None.

(** ** [parseDateFromExifIfd] *)

Definition isDateTag (tag : Z) : bool :=
  ((tag =? DATE_TIME_ORIGINAL) || (tag =? DATE_TIME_DIGITIZED))%bool.

(** The loop returns from the function at the first date tag; [None] is
    falling out of the loop. *)
Fixpoint parseDateFromExifIfd_loop (view : DataView) (ifdOffset tiffOffset : Z)
    (littleEndian : bool) (n : nat) (i : Z) : completion (option (option string)) :=
  match n with
  | O => Normal None
  | S n' =>
      let entryOffset := ifdOffset + 2 + i * 12 in
      tag <- getUint16 view entryOffset littleEndian ;;
      if isDateTag tag then
        valueOffset <- getUint32 view (entryOffset + 8) littleEndian ;;
        let absOffset := tiffOffset + valueOffset in
        Normal (Some (readExifDate view absOffset))
      else parseDateFromExifIfd_loop view ifdOffset tiffOffset littleEndian n' (i + 1)
  end.

Definition parseDateFromExifIfd (view : DataView) (ifdOffset tiffOffset : Z)
    (littleEndian : bool) : option string :=
  try_catch
    (entryCount <- getUint16 view ifdOffset littleEndian ;;
     r <- parseDateFromExifIfd_loop view ifdOffset tiffOffset littleEndian
            (Z.to_nat entryCount) 0 ;;
     Normal (match r with
             | Some returned => returned
             | None => None
             end))
    None.

(** ** [parseIfd0] *)

Module Ifd0.
(** The record [{ gpsIfdOffset, dateTaken }] that [parseIfd0] returns;
  it also serves as the state of its two loops. *)
Record t : Type := mk {
gpsIfdOffset : option Z;
dateTaken : option string
}.
End Ifd0.

(** First loop: GPS pointer and date tags of IFD0. *)
Definition parseIfd0_tags (view : DataView) (ifdOffset tiffOffset : Z)
    (littleEndian : bool) (i : Z) (st : Ifd0.t) : completion Ifd0.t :=
  let entryOffset := ifdOffset + 2 + i * 12 in
  tag <- getUint16 view entryOffset littleEndian ;;
  if tag =? GPS_IFD_POINTER then
    gps <- getUint32 view (entryOffset + 8) littleEndian ;;
    Normal (Ifd0.mk (Some gps) (Ifd0.dateTaken st))
  else if isDateTag tag then
    valueOffset <- getUint32 view (entryOffset + 8) littleEndian ;;
    let absOffset := tiffOffset + valueOffset in
    Normal (Ifd0.mk (Ifd0.gpsIfdOffset st) (readExifDate view absOffset))
  else Normal st.

(** Second loop: the EXIF sub-IFD pointer (tag 0x8769). *)
Definition parseIfd0_subIfd (view : DataView) (ifdOffset tiffOffset : Z)
    (littleEndian : bool) (i : Z) (st : Ifd0.t) : completion Ifd0.t :=
  let entryOffset := ifdOffset + 2 + i * 12 in
  tag <- getUint16 view entryOffset littleEndian ;;
  if tag =? 0x8769 then
    exifIfdOffset <- getUint32 view (entryOffset + 8) littleEndian ;;
    let exifAbsOffset := tiffOffset + exifIfdOffset in
    let exifDate := parseDateFromExifIfd view exifAbsOffset tiffOffset littleEndian in
    if (truthyString exifDate && negb (truthyString (Ifd0.dateTaken st)))%bool
    then Normal (Ifd0.mk (Ifd0.gpsIfdOffset st) exifDate)
    else Normal st
  else Normal st.

Definition parseIfd0 (view : DataView) (ifdOffset tiffOffset : Z) (littleEndian : bool)
  : Ifd0.t :=
  let st0 := Ifd0.mk None None in
  match getUint16 view ifdOffset littleEndian with
  | Throw _ => st0
  | Normal entryCount =>
      let n := Z.to_nat entryCount in
      let (st1, completed) :=
        for_loop (parseIfd0_tags view ifdOffset tiffOffset littleEndian) n 0 st0 in
      if completed
      then fst (for_loop (parseIfd0_subIfd view ifdOffset tiffOffset littleEndian) n 0 st1)
      else st1
  end.

(** ** [parseGpsIfd] *)

(** The variables of the scan: the four locals and the [result] object,
    of which the loop only assigns [bearing]. *)
Record GpsScan : Type := mkGpsScan {
  latRef : option string;
  lngRef : option string;
  latValues : option (list float);
  lngValues : option (list float);
  result : ExifData
}.

Definition gpsScan0 : GpsScan := mkGpsScan None None None None allAbsent.

Definition refString (code : Z) : string := String (fromCharCode code) EmptyString.

Definition setBearing (r : ExifData) (b : float) : ExifData :=
  mkExifData (latitude r) (longitude r) (Some b) (dateTaken r).

Definition parseGpsIfd_entry (view : DataView) (ifdOffset tiffOffset : Z)
    (littleEndian : bool) (i : Z) (st : GpsScan) : completion GpsScan :=
  let entryOffset := ifdOffset + 2 + i * 12 in
  tag <- getUint16 view entryOffset littleEndian ;;
  type <- getUint16 view (entryOffset + 2) littleEndian ;;
  count <- getUint32 view (entryOffset + 4) littleEndian ;;
  if tag =? GPS_LATITUDE_REF then
    c <- getUint8 view (entryOffset + 8) ;;
    Normal (mkGpsScan (Some (refString c)) (lngRef st) (latValues st) (lngValues st) (result st))
  else if tag =? GPS_LONGITUDE_REF then
    c <- getUint8 view (entryOffset + 8) ;;
    Normal (mkGpsScan (latRef st) (Some (refString c)) (latValues st) (lngValues st) (result st))
  else if ((tag =? GPS_LATITUDE) && (type =? 5) && (count =? 3))%bool then
    valueOffset <- getUint32 view (entryOffset + 8) littleEndian ;;
    values <- readGpsRationals view (tiffOffset + valueOffset) littleEndian ;;
    Normal (mkGpsScan (latRef st) (lngRef st) (Some values) (lngValues st) (result st))
  else if ((tag =? GPS_LONGITUDE) && (type =? 5) && (count =? 3))%bool then
    valueOffset <- getUint32 view (entryOffset + 8) littleEndian ;;
    values <- readGpsRationals view (tiffOffset + valueOffset) littleEndian ;;
    Normal (mkGpsScan (latRef st) (lngRef st) (latValues st) (Some values) (result st))
  else if ((tag =? GPS_IMG_DIRECTION) && (type =? 5))%bool then
    valueOffset <- getUint32 view (entryOffset + 8) littleEndian ;;
    num <- getUint32 view (tiffOffset + valueOffset) littleEndian ;;
    den <- getUint32 view (tiffOffset + valueOffset + 4) littleEndian ;;
    if negb (den =? 0)
    then Normal (mkGpsScan (latRef st) (lngRef st) (latValues st) (lngValues st)
                   (setBearing (result st) (toNumber num / toNumber den)%float))
    else Normal st
  else Normal st.

(** [values[k]]; an index outside the array reads [undefined], which is
    [NaN] in arithmetic. *)
Definition at_index (values : list float) (k : nat) : float := nth k values nan.

(** The two assignments after the loop. *)
Definition gpsCoordinates (st : GpsScan) : ExifData :=
  let r := result st in
  let r :=
    match latValues st with
    | Some v =>
        if truthyString (latRef st) then
          match latRef st with
          | Some ref =>
              mkExifData
                (Some (gpsToDecimal (at_index v 0) (at_index v 1) (at_index v 2) ref))
                (longitude r) (bearing r) (dateTaken r)
          | None => r
          end
        else r
    | None => r
    end in
  match lngValues st with
  | Some v =>
      if truthyString (lngRef st) then
        match lngRef st with
        | Some ref =>
            mkExifData (latitude r)
              (Some (gpsToDecimal (at_index v 0) (at_index v 1) (at_index v 2) ref))
              (bearing r) (dateTaken r)
        | None => r
        end
      else r
  | None => r
  end.

Definition parseGpsIfd (view : DataView) (ifdOffset tiffOffset : Z) (littleEndian : bool)
  : ExifData :=
  match getUint16 view ifdOffset littleEndian with
  | Throw _ => allAbsent
  | Normal entryCount =>
      let (st, completed) :=
        for_loop (parseGpsIfd_entry view ifdOffset tiffOffset littleEndian)
          (Z.to_nat entryCount) 0 gpsScan0 in
      if completed then gpsCoordinates st else result st
  end.

(** ** [parseExifData] *)

(** The body of [parseExifData] after the byte order is known. *)
Definition tiffWalk (view : DataView) (tiffOffset : Z) (littleEndian : bool)
  : completion ExifData :=
  magic <- getUint16 view (tiffOffset + 2) littleEndian ;;
  if negb (magic =? 0x002a) then Normal allAbsent
  else
    ifd0Offset <- getUint32 view (tiffOffset + 4) littleEndian ;;
    let ifd0AbsOffset := tiffOffset + ifd0Offset in
    let ifd0 := parseIfd0 view ifd0AbsOffset tiffOffset littleEndian in
    let result :=
      if truthyString (Ifd0.dateTaken ifd0)
      then mkExifData None None None (Ifd0.dateTaken ifd0)
      else allAbsent in
    if truthyNumber (Ifd0.gpsIfdOffset ifd0) then
      match Ifd0.gpsIfdOffset ifd0 with
      | Some gpsIfdOffset =>
          let gpsAbsOffset := tiffOffset + gpsIfdOffset in
          let gpsData := parseGpsIfd view gpsAbsOffset tiffOffset littleEndian in
          Normal (spread result gpsData)
      | None => Normal result
      end
    else Normal result.

Definition parseExifData (view : DataView) (tiffOffset : Z) (maxLength : Z) : ExifData :=
  try_catch
    (byteOrder <- getUint16 view tiffOffset false ;;
     let littleEndian := byteOrder =? 0x4949 in
     tiffWalk view tiffOffset littleEndian)
    allAbsent.

(** ** [extractExifData] *)

Record File : Type := mkFile {
  type : string;
  name : string;
  (** what [file.arrayBuffer()] settles to *)
  arrayBuffer : completion (list byte)
}.

(** How a loop with [return] and [break] inside a [try] block ends. *)
Inductive loop_exit (A : Type) : Type :=
| Returned (a : A)
| Fell
| Threw (e : JsError)
| OutOfFuel.

Arguments Returned {A} a.
Arguments Fell {A}.
Arguments Threw {A} e.
Arguments OutOfFuel {A}.

Definition readHeader (view : DataView) (offset : Z) : completion string :=
  c0 <- getUint8 view offset ;;
  c1 <- getUint8 view (offset + 1) ;;
  c2 <- getUint8 view (offset + 2) ;;
  c3 <- getUint8 view (offset + 3) ;;
  c4 <- getUint8 view (offset + 4) ;;
  c5 <- getUint8 view (offset + 5) ;;
  Normal (fromCharCodes [c0; c1; c2; c3; c4; c5]).

(** The [while (offset < buffer.byteLength - 4)] loop, one iteration per
    unit of fuel. *)
Fixpoint findExifSegment (fuel : nat) (view : DataView) (offset : Z) : loop_exit ExifData :=
  match fuel with
  | O => OutOfFuel
  | S fuel' =>
      if negb (offset <? byteLength view - 4) then Fell
      else
        match getUint16 view offset false with
        | Throw e => Threw e
        | Normal marker =>
            let offset := offset + 2 in
            if marker =? EXIF_MARKER then
              match getUint16 view offset false with
              | Throw e => Threw e
              | Normal length =>
                  let offset := offset + 2 in
                  match readHeader view offset with
                  | Throw e => Threw e
                  | Normal header =>
                      if String.eqb header EXIF_HEADER then
                        let tiffOffset := offset + 6 in
                        let exifData := parseExifData view tiffOffset (length - 8) in
                        Returned (spread allAbsent exifData)
                      else findExifSegment fuel' view offset
                  end
              end
            else if Z.land marker 0xff00 =? 0xff00 then
              match getUint16 view offset false with
              | Throw e => Threw e
              | Normal length => findExifSegment fuel' view (offset + length)
              end
            else Fell
        end
  end.

(** How the promise an [async] function returns ends. *)
Inductive settled (A : Type) : Type :=
| Fulfilled (a : A)
| Rejected (e : JsError)
| Unsettled.

Arguments Fulfilled {A} a.
Arguments Rejected {A} e.
Arguments Unsettled {A}.

(** The promise's outcome, and how many times [file.arrayBuffer()] was
    called. *)
Definition extractExifData_run (file : File) : settled ExifData * nat :=
  let result := allAbsent in
  if (negb (startsWith (type file) "image/jpeg")
      && negb (endsWith (toLowerCase (name file)) ".jpg"))%bool
  then (Fulfilled result, O)
  else
    match arrayBuffer file with
    | Throw _ => (Fulfilled result, 1%nat)
    | Normal buffer =>
        let view : DataView := buffer in
        match getUint16 view 0 false with
        | Throw _ => (Fulfilled result, 1%nat)
        | Normal magic =>
            if negb (magic =? 0xffd8) then (Fulfilled result, 1%nat)
            else
              match findExifSegment (S (List.length buffer)) view 2 with
              | Returned r => (Fulfilled r, 1%nat)
              | Fell => (Fulfilled result, 1%nat)
              | Threw _ => (Fulfilled result, 1%nat)
              | OutOfFuel => (Unsettled, 1%nat)
              end
        end
    end.

Definition extractExifData (file : File) : settled ExifData :=
  fst (extractExifData_run file).

(** ** [stripExifData] *)

Module Redaction.

(** A decoded image, as [img.onload] finds it. *)
Record Image : Type := mkImage {
width : Z;
height : Z
}.

(** What the browser does with the objects the function creates:
  - [decode file] is [Some img] when the [Image] loads ([onload]) and
    [None] when it does not ([onerror]);
  - [getContext2d w h] tells whether [canvas.getContext('2d')] is
    non-null for a canvas of that size;
  - [toBlob img mime quality] is the blob handed to the callback of
    [canvas.toBlob], [None] for [null]. *)
Record Browser : Type := mkBrowser {
decode : File -> option Image;
getContext2d : Z -> Z -> bool;
toBlob : Image -> string -> float -> option (list byte)
}.

(** The quality argument [0.92], as the binary64 value the literal denotes.
  The new file gets the blob's bytes, the old name and the type
  [image/jpeg]; its [lastModified] is not part of the [File] record. *)
Definition quality : float := 0x1.d70a3d70a3d71p-1%float.

Definition stripExifData (env : Browser) (file : File) : settled File :=
match decode env file with
| Some img =>
    if negb (getContext2d env (width img) (height img))
    then Rejected (Error "Failed to get canvas context")
    else
      match toBlob env img "image/jpeg" quality with
      | None => Rejected (Error "Failed to create blob")
      | Some blob => Fulfilled (mkFile "image/jpeg" (name file) (Normal blob))
      end
| None => Rejected (Error "Failed to load image")
end.

(** The three ways the re-encoding can fail. *)
Definition redactionFails (env : Browser) (file : File) : Prop :=
decode env file = None
\/ (exists img, decode env file = Some img
                /\ getContext2d env (width img) (height img) = false)
\/ (exists img, decode env file = Some img
                /\ toBlob env img "image/jpeg" quality = None).

End Redaction.

(** ** [Number] operations beyond the primitive ones *)

(** The [Number] of an integer of either sign. *)
Definition ofInteger (n : Z) : float :=
  if n <? 0 then (- toNumber (- n))%float else toNumber n.

(** [Math.round]: the integer nearest to [x], a tie going towards
    [+Infinity]; integral values, infinities and [NaN] are returned as
    they are, and a result of zero keeps the sign of [x]. *)
Definition Math_round (x : float) : float :=
  match Prim2SF x with
  | S754_finite s m e =>
      if 0 <=? e then x
      else
        let k := - e in
        let n := (2 * cond_Zopp s (Zpos m) + 2 ^ k) / 2 ^ (k + 1) in
        if n =? 0 then (if s then (- 0)%float else 0%float) else ofInteger n
  | _ => x
  end.

(** The [%] operator: the remainder of the truncating division, exact,
    with the sign of the dividend. *)
Definition js_rem (x y : float) : float :=
  match Prim2SF x, Prim2SF y with
  | S754_nan, _ | _, S754_nan => nan
  | S754_infinity _, _ => nan
  | _, S754_zero _ => nan
  | _, S754_infinity _ => x
  | S754_zero _, _ => x
  | S754_finite sx mx ex, S754_finite _ my ey =>
      let e := Z.min ex ey in
      let a := Zpos mx * 2 ^ (ex - e) in
      let b := Zpos my * 2 ^ (ey - e) in
      SF2Prim (binary_normalize prec emax (cond_Zopp sx (a mod b)) e sx)
  end.

(** [array[index]] for a [Number] index: the element when the index is a
    non-negative integer below the length, [undefined] ([None]) otherwise. *)
Definition elementAt {A : Type} (array : list A) (index : float) : option A :=
  match Prim2SF index with
  | S754_zero _ => nth_error array 0
  | S754_finite false m e =>
      let len := Z.of_nat (List.length array) in
      if 0 <=? e then
        (if Zpos m * 2 ^ e <? len then nth_error array (Z.to_nat (Zpos m * 2 ^ e)) else None)
      else if Zpos m mod 2 ^ (- e) =? 0 then
        (if Zpos m / 2 ^ (- e) <? len then nth_error array (Z.to_nat (Zpos m / 2 ^ (- e)))
         else None)
      else None
  | _ => None
  end.

(** ** [photo.entity.ts] *)

Inductive JsValue : Type :=
| JsNull
| JsUndefined
| JsString (s : string).

Module Photo.

(** The columns of [PhotoRow] that hold extracted metadata. *)
Record PhotoRow : Type := mkPhotoRow {
latitude : option float;
longitude : option float;
bearing : option float;
date_taken : option string
}.

Definition directions : list string :=
["N"; "NE"; "E"; "SE"; "S"; "SW"; "W"; "NW"]%string.

Definition getBearingLabel (photo : PhotoRow) : JsValue :=
match bearing photo with
| None => JsNull
| Some b =>
    let index := js_rem (Math_round (b / 45)%float) 8%float in
    match elementAt directions index with
    | Some label => JsString label
    | None => JsUndefined
    end
end.

End Photo.

(** ** [calculateBearing] ([PhotoMarker.svelte])

    The function is binary64 arithmetic around three functions of the
    host, [Math.sin], [Math.cos] and [Math.atan2].  ECMAScript fixes their
    results at zeros, infinities and [NaN] and leaves the others
    implementation-approximated, so they are a parameter,
    [MathLibrary]; what the language says of them is [conforms], below. *)

Module Geodesy.

Record MathLibrary : Type := mkMathLibrary {
  Math_sin : float -> float;
  Math_cos : float -> float;
  Math_atan2 : float -> float -> float
}.

(** [Math.PI] *)
Definition Math_PI : float := 0x1.921fb54442d18p+1%float.

(** The last two lines of the function, on the angle [Math.atan2]
    returned. *)
Definition normalizeBearing (angle : float) : float :=
  let bearing := (angle * 180 / Math_PI)%float in
  js_rem (bearing + 360)%float 360%float.

Definition calculateBearing (M : MathLibrary) (lat1 lng1 lat2 lng2 : float) : float :=
  let dLng := ((lng2 - lng1) * Math_PI / 180)%float in
  let lat1Rad := (lat1 * Math_PI / 180)%float in
  let lat2Rad := (lat2 * Math_PI / 180)%float in
  let y := (Math_sin M dLng * Math_cos M lat2Rad)%float in
  let x := (Math_cos M lat1Rad * Math_sin M lat2Rad
            - Math_sin M lat1Rad * Math_cos M lat2Rad * Math_cos M dLng)%float in
  normalizeBearing (Math_atan2 M y x).

End Geodesy.

(** ** Test vectors: small JPEG files assembled byte by byte *)

Module Vectors.

Definition b (n : Z) : byte :=
match Byte.of_N (Z.to_N n) with
| Some x => x
| None => x00
end.

(** Big-endian integers, ASCII text, a 12-byte IFD entry, a rational. *)
Definition u16 (n : Z) : list byte := [b (n / 256); b (n mod 256)].
Definition u32 (n : Z) : list byte := u16 (n / 65536) ++ u16 (n mod 65536).
Definition text (s : string) : list byte :=
map (fun c => b (Z.of_N (N_of_ascii c))) (list_ascii_of_string s).
Definition entry (tag type count value : Z) : list byte :=
u16 tag ++ u16 type ++ u32 count ++ u32 value.
Definition refEntry (tag : Z) (ref : string) : list byte :=
u16 tag ++ u16 2 ++ u32 2 ++ text ref ++ [b 0; b 0; b 0].
Definition rational (num den : Z) : list byte := u32 num ++ u32 den.

(** SOI, an APP1 segment declaring [declaredLength], the EXIF header,
  the TIFF block, EOI and padding. *)
Definition jpegOf (declaredLength : Z) (tiff : list byte) : list byte :=
[b 0xff; b 0xd8; b 0xff; b 0xe1] ++ u16 declaredLength
  ++ text "Exif" ++ [b 0; b 0] ++ tiff ++ [b 0xff; b 0xd9; b 0; b 0; b 0; b 0].

Definition segmentLength (tiff : list byte) : Z := Z.of_nat (List.length tiff) + 8.

(** The TIFF header: byte-order marker, magic number, IFD0 at offset 8. *)
Definition header (marker : list byte) : list byte := marker ++ u16 42 ++ u32 8.

(** A big-endian block: DateTimeOriginal [2024:06:15 14:30:00] and a GPS
  IFD with 43 39' 4.99'' N, 79 20' 49.48'' W. *)
Definition fullTiff : list byte :=
header (text "MM")
  ++ u16 2 ++ entry 0x9003 2 20 38 ++ entry 0x8825 4 1 58 ++ u32 0
  ++ text "2024:06:15 14:30:00" ++ [b 0]
  ++ u16 4 ++ refEntry 1 "N" ++ entry 2 5 3 112
           ++ refEntry 3 "W" ++ entry 4 5 3 136 ++ u32 0
  ++ rational 43 1 ++ rational 39 1 ++ rational 499 100
  ++ rational 79 1 ++ rational 20 1 ++ rational 4948 100.

Definition fullJpeg : list byte := jpegOf (segmentLength fullTiff) fullTiff.

(** A GPS IFD with a latitude reference and value and no longitude tag. *)
Definition latitudeOnlyTiff : list byte :=
header (text "MM")
  ++ u16 1 ++ entry 0x8825 4 1 26 ++ u32 0
  ++ u16 2 ++ refEntry 1 "N" ++ entry 2 5 3 56 ++ u32 0
  ++ rational 43 1 ++ rational 39 1 ++ rational 499 100.

Definition latitudeOnlyJpeg : list byte :=
jpegOf (segmentLength latitudeOnlyTiff) latitudeOnlyTiff.



(** IFD0 holding one DateTimeOriginal entry, under a given byte-order
  marker. *)
Definition dateTiff (marker : list byte) : list byte :=
header marker
  ++ u16 1 ++ entry 0x9003 2 20 26 ++ u32 0
  ++ text "2024:06:15 14:30:00" ++ [b 0].

Definition dateJpeg (marker : list byte) : list byte :=
jpegOf (segmentLength (dateTiff marker)) (dateTiff marker).

(** The same file with an APP1 segment that declares 8 bytes, so that the
  whole TIFF block lies after the declared end of the segment. *)
Definition shortSegmentJpeg : list byte := jpegOf 8 (dateTiff (text "MM")).

Definition jpegFile (buffer : list byte) : File :=
mkFile "image/jpeg" "photo.jpg" (Normal buffer).

End Vectors.

(** ** Predicates used in the statements *)

(** The values rounding produces from a non-negative mantissa: they carry
    the sign asked for. *)
Inductive signed (s : bool) : spec_float -> Prop :=
| signed_zero : signed s (S754_zero s)
| signed_infinity : signed s (S754_infinity s)
| signed_finite m e : signed s (S754_finite s m e).

(** The values [x] with [0 <= x]: zeros, positive finite numbers and
    [+Infinity]. *)
Inductive nonneg_sf : spec_float -> Prop :=
| nonneg_zero s : nonneg_sf (S754_zero s)
| nonneg_infinity : nonneg_sf (S754_infinity false)
| nonneg_finite m e : nonneg_sf (S754_finite false m e).

Definition gpsFieldsAbsent (r : ExifData) : Prop :=
  latitude r = None /\ longitude r = None /\ bearing r = None.

Definition sameGpsFields (r g : ExifData) : Prop :=
  latitude r = latitude g /\ longitude r = longitude g /\ bearing r = bearing g.

(** The GPS fields of [r] are absent or are those [parseGpsIfd] computed
    from some IFD of the buffer. *)
Definition gpsFieldsFrom (view : DataView) (r : ExifData) : Prop :=
  gpsFieldsAbsent r
  \/ exists ifdOffset tiffOffset littleEndian,
       sameGpsFields r (parseGpsIfd view ifdOffset tiffOffset littleEndian).

(** A present bearing is the quotient of two unsigned 32-bit integers,
    the divisor not zero. *)
Definition bearingQuotient (r : ExifData) : Prop :=
  forall x, bearing r = Some x ->
    exists num den,
      0 <= num < 2 ^ 32 /\ 0 < den < 2 ^ 32 /\ x = (toNumber num / toNumber den)%float.

(** The IFD at [ifdOffset] has, among the entries its count announces, one
    with the given tag. *)
Definition hasEntry (view : DataView) (ifdOffset : Z) (littleEndian : bool) (tag : Z)
  : Prop :=
  exists entryCount i,
    getUint16 view ifdOffset littleEndian = Normal entryCount
    /\ 0 <= i < entryCount
    /\ getUint16 view (ifdOffset + 2 + i * 12) littleEndian = Normal tag.

(** ... one with the given tag, of type 5 (rational) and count 3. *)
Definition hasDmsEntry (view : DataView) (ifdOffset : Z) (littleEndian : bool) (tag : Z)
  : Prop :=
  exists entryCount i,
    getUint16 view ifdOffset littleEndian = Normal entryCount
    /\ 0 <= i < entryCount
    /\ getUint16 view (ifdOffset + 2 + i * 12) littleEndian = Normal tag
    /\ getUint16 view (ifdOffset + 2 + i * 12 + 2) littleEndian = Normal 5
    /\ getUint32 view (ifdOffset + 2 + i * 12 + 4) littleEndian = Normal 3.

(** What holds of the variables of [parseGpsIfd] throughout its loop. *)
Definition scanInv (view : DataView) (ifdOffset : Z) (littleEndian : bool)
    (st : GpsScan) : Prop :=
  latitude (result st) = None
  /\ longitude (result st) = None
  /\ bearingQuotient (result st)
  /\ (latRef st <> None -> hasEntry view ifdOffset littleEndian GPS_LATITUDE_REF)
  /\ (latValues st <> None -> hasDmsEntry view ifdOffset littleEndian GPS_LATITUDE)
  /\ (lngRef st <> None -> hasEntry view ifdOffset littleEndian GPS_LONGITUDE_REF)
  /\ (lngValues st <> None -> hasDmsEntry view ifdOffset littleEndian GPS_LONGITUDE).

(** The label of a whole number of degrees, and the sector the rounding
    puts it in. *)
Definition labelOfDegrees (n : Z) : JsValue :=
  Photo.getBearingLabel (Photo.mkPhotoRow None None (Some (toNumber n)) None).

Definition sectorOfDegrees (n : Z) : Z := ((2 * n + 45) / 90) mod 8.

Definition labelAt (k : Z) : JsValue :=
  match nth_error Photo.directions (Z.to_nat k) with
  | Some label => JsString label
  | None => JsUndefined
  end.

Definition JsValue_eqb (a b : JsValue) : bool :=
  match a, b with
  | JsNull, JsNull => true
  | JsUndefined, JsUndefined => true
  | JsString s, JsString t => String.eqb s t
  | _, _ => false
  end.

(** Two buffers of the same length that hold the same bytes from offset
    [from] on. *)
Definition agreeFrom (from : Z) (view1 view2 : DataView) : Prop :=
  List.length view1 = List.length view2
  /\ forall offset, from <= offset -> byteAt view1 offset = byteAt view2 offset.

(** The GPS pointer [parseIfd0] returns is an unsigned integer. *)
Definition gpsPointerNonneg (st : Ifd0.t) : Prop :=
  forall gps, Ifd0.gpsIfdOffset st = Some gps -> 0 <= gps.

(** ** Bounds on rounded binary64 numbers *)

(** A shift record that has lost no bit. *)
Definition exactRecord (mrs : shr_record) : Prop :=
  shr_r mrs = false /\ shr_s mrs = false.

(** [m * 2 ^ e <= mB * 2 ^ eB], the exponents being ordered. *)
Definition boundedBy (mB eB m e : Z) : Prop :=
  e <= eB /\ m <= mB * 2 ^ (eB - e).

(** A rounded number of sign [s] that is zero or at most [mB * 2 ^ eB] in
    magnitude. *)
Inductive roundedBelow (s : bool) (mB eB : Z) : spec_float -> Prop :=
| rb_zero : roundedBelow s mB eB (S754_zero s)
| rb_finite m e :
    boundedBy mB eB (Zpos m) e -> roundedBelow s mB eB (S754_finite s m e).

(** A number that is zero, or finite and at most [mB] in magnitude. *)
Definition smallNumber (mB : Z) (f : spec_float) : Prop :=
  (exists s, f = S754_zero s)
  \/ exists s m e, f = S754_finite s m e /\ boundedBy mB 0 (Zpos m) e.

(** ** Whole numbers in binary64 *)

(** The integer a [Number] denotes, when it denotes one ([-0] denotes 0). *)
Definition integerOf (x : float) : option Z :=
  match Prim2SF x with
  | S754_zero _ => Some 0
  | S754_finite s m e =>
      if 0 <=? e then Some (cond_Zopp s (Zpos m * 2 ^ e))
      else if Zpos m mod 2 ^ (- e) =? 0 then Some (cond_Zopp s (Zpos m / 2 ^ (- e)))
      else None
  | _ => None
  end.

(** ** Dates as text

    The 19 characters EXIF stores for a date, [YYYY:MM:DD HH:MM:SS], and
    the 20 characters [readExifDate] makes of them. *)

Definition digitString (n : nat) (s : string) : Prop :=
  String.length s = n /\ forallb isDigit (list_ascii_of_string s) = true.

Definition exifDateText (year month day hour min sec : string) : string :=
  (year ++ ":" ++ month ++ ":" ++ day ++ " " ++ hour ++ ":" ++ min ++ ":" ++ sec)%string.

Definition isoDateText (year month day hour min sec : string) : string :=
  (year ++ "-" ++ month ++ "-" ++ day ++ "T" ++ hour ++ ":" ++ min ++ ":" ++ sec ++ "Z")%string.

(** The buffer holds the characters of [text], one byte each, from
    [offset] on. *)
Definition holdsText (view : DataView) (offset : Z) (text : string) : Prop :=
  0 <= offset
  /\ firstn (String.length text) (skipn (Z.to_nat offset) view) = Vectors.text text.

(** ** The rationals of a GPS coordinate *)

(** Three numbers of at most [2^32 - 1] in magnitude: what
    [readGpsRationals] returns. *)
Definition smallValues (values : list float) : Prop :=
  List.length values = 3%nat
  /\ Forall (fun v => smallNumber (2 ^ 32 - 1) (Prim2SF v)) values.

(** What holds of the arrays the scan of [parseGpsIfd] has read. *)
Definition scanValues (st : GpsScan) : Prop :=
  (forall v, latValues st = Some v -> smallValues v)
  /\ (forall v, lngValues st = Some v -> smallValues v).

(** ** Numbers below a bound *)

Definition range (n : nat) : list Z := map Z.of_nat (seq 0 n).

(** ** Well-formed EXIF blocks

    The bytes of a TIFF block in either byte order, laid out as cameras
    write it: IFD0 with a DateTimeOriginal entry and the pointer to the GPS
    IFD, the date text, the GPS IFD with latitude, longitude and image
    direction, and the rationals the GPS entries point to.  The application
    only reads such blocks; [Encoder] names the bytes the extractor is
    given, so that what it returns can be stated for all of them. *)

Record Rational : Type := mkRational {
  numerator : Z;
  denominator : Z
}.

Record Dms : Type := mkDms {
  degrees : Rational;
  minutes : Rational;
  seconds : Rational
}.

Definition unsigned32 (r : Rational) : Prop :=
  0 <= numerator r < 2 ^ 32 /\ 0 <= denominator r < 2 ^ 32.

Definition unsigned32Dms (c : Dms) : Prop :=
  unsigned32 (degrees c) /\ unsigned32 (minutes c) /\ unsigned32 (seconds c).

Module Encoder.

(** Integers of 16 and 32 bits, least significant byte first when
    [littleEndian]. *)
Definition u16 (littleEndian : bool) (n : Z) : list byte :=
  [Vectors.b (if littleEndian then n mod 256 else n / 256);
   Vectors.b (if littleEndian then n / 256 else n mod 256)].

Definition u32 (littleEndian : bool) (n : Z) : list byte :=
  [Vectors.b (if littleEndian then (n mod 65536) mod 256 else n / 65536 / 256);
   Vectors.b (if littleEndian then n mod 65536 / 256 else (n / 65536) mod 256);
   Vectors.b (if littleEndian then (n / 65536) mod 256 else n mod 65536 / 256);
   Vectors.b (if littleEndian then n / 65536 / 256 else (n mod 65536) mod 256)].

Definition entry (littleEndian : bool) (tag type count value : Z) : list byte :=
  u16 littleEndian tag ++ u16 littleEndian type
    ++ u32 littleEndian count ++ u32 littleEndian value.

(** An ASCII entry of two characters, the reference letter and a zero,
    held in the entry itself. *)
Definition refEntry (littleEndian : bool) (tag : Z) (ref : ascii) : list byte :=
  u16 littleEndian tag ++ u16 littleEndian 2 ++ u32 littleEndian 2
    ++ [Vectors.b (Z.of_N (N_of_ascii ref)); Vectors.b 0; Vectors.b 0; Vectors.b 0].

Definition rational (littleEndian : bool) (r : Rational) : list byte :=
  u32 littleEndian (numerator r) ++ u32 littleEndian (denominator r).

Definition dms (littleEndian : bool) (c : Dms) : list byte :=
  rational littleEndian (degrees c) ++ rational littleEndian (minutes c)
    ++ rational littleEndian (seconds c).

Definition tiff (littleEndian : bool) (date : string) (latRef : ascii) (lat : Dms)
    (lngRef : ascii) (lng : Dms) (direction : Rational) : list byte :=
  Vectors.text (if littleEndian then "II" else "MM")
    ++ u16 littleEndian 42 ++ u32 littleEndian 8
    ++ u16 littleEndian 2
    ++ entry littleEndian 0x9003 2 20 38 ++ entry littleEndian 0x8825 4 1 58
    ++ u32 littleEndian 0
    ++ Vectors.text date ++ [Vectors.b 0]
    ++ u16 littleEndian 5
    ++ refEntry littleEndian 1 latRef ++ entry littleEndian 2 5 3 124
    ++ refEntry littleEndian 3 lngRef ++ entry littleEndian 4 5 3 148
    ++ entry littleEndian 0x0011 5 1 172
    ++ u32 littleEndian 0
    ++ dms littleEndian lat ++ dms littleEndian lng ++ rational littleEndian direction.

(** The block after its byte-order marker, and the block under any two
    marker bytes. *)
Definition body (littleEndian : bool) (date : string) (latRef : ascii) (lat : Dms)
    (lngRef : ascii) (lng : Dms) (direction : Rational) : list byte :=
  u16 littleEndian 42 ++ u32 littleEndian 8
    ++ u16 littleEndian 2
    ++ entry littleEndian 0x9003 2 20 38 ++ entry littleEndian 0x8825 4 1 58
    ++ u32 littleEndian 0
    ++ Vectors.text date ++ [Vectors.b 0]
    ++ u16 littleEndian 5
    ++ refEntry littleEndian 1 latRef ++ entry littleEndian 2 5 3 124
    ++ refEntry littleEndian 3 lngRef ++ entry littleEndian 4 5 3 148
    ++ entry littleEndian 0x0011 5 1 172
    ++ u32 littleEndian 0
    ++ dms littleEndian lat ++ dms littleEndian lng ++ rational littleEndian direction.

Definition marked (m0 m1 : byte) (littleEndian : bool) (date : string) (latRef : ascii)
    (lat : Dms) (lngRef : ascii) (lng : Dms) (direction : Rational) : list byte :=
  [m0; m1] ++ body littleEndian date latRef lat lngRef lng direction.

End Encoder.

(** The value of a two-byte marker, as [view.getUint16] reads it. *)
Definition markerOf (m0 m1 : byte) : Z :=
  256 * Z.of_N (Byte.to_N m0) + Z.of_N (Byte.to_N m1).

(** The numbers the encoded values stand for. *)
Definition valueOf (r : Rational) : float :=
  rationalOrZero (numerator r) (denominator r).

Definition decimalOf (c : Dms) (ref : ascii) : float :=
  gpsToDecimal (valueOf (degrees c)) (valueOf (minutes c)) (valueOf (seconds c))
    (String ref EmptyString).

(** IFD0 with a DateTimeOriginal entry and a pointer to an EXIF sub-IFD
    that holds another date. *)
Definition twoDatesTiff : list byte :=
  Vectors.header (Vectors.text "MM")
    ++ Vectors.u16 2 ++ Vectors.entry 0x9003 2 20 38 ++ Vectors.entry 0x8769 4 1 58
    ++ Vectors.u32 0
    ++ Vectors.text "2024:06:15 14:30:00" ++ [Vectors.b 0]
    ++ Vectors.u16 1 ++ Vectors.entry 0x9003 2 20 76 ++ Vectors.u32 0
    ++ Vectors.text "1999:01:01 00:00:00" ++ [Vectors.b 0].

(** ** The uploader ([PhotoUploader], in [PhotoMarker.svelte])

    The size of a thumbnail: the computation at the head of [img.onload]
    in [generateImageThumbnail], from the width and height of the decoded
    image to those of the canvas. *)

Definition THUMBNAIL_MAX_SIZE : float := 400%float.

Definition thumbnailSize (width height : float) : float * float :=
  if (height <? width)%float then
    if (THUMBNAIL_MAX_SIZE <? width)%float
    then (THUMBNAIL_MAX_SIZE, Math_round ((height * THUMBNAIL_MAX_SIZE) / width)%float)
    else (width, height)
  else
    if (THUMBNAIL_MAX_SIZE <? height)%float
    then (Math_round ((width * THUMBNAIL_MAX_SIZE) / height)%float, THUMBNAIL_MAX_SIZE)
    else (width, height).

(** [await p] inside a [try]: the continuation when [p] is fulfilled, the
    [catch] clause when it is rejected; an unsettled [p] leaves the caller
    unsettled. *)
Definition await {A B : Type} (p : settled A) (next : A -> settled B)
    (catch : JsError -> settled B) : settled B :=
  match p with
  | Fulfilled a => next a
  | Rejected e => catch e
  | Unsettled => Unsettled
  end.

Module Uploader.

(** A [File] the user picked, with the two properties [processFiles]
    reads besides its name and type. *)
Record LocalFile : Type := mkLocalFile {
  content : File;
  size : float;
  lastModified : float
}.

Definition IMAGE_TYPES : list string :=
  ["image/jpeg"; "image/png"; "image/gif"; "image/webp"]%string.
Definition VIDEO_TYPES : list string :=
  ["video/mp4"; "video/quicktime"; "video/webm"]%string.

(** [/\.(e1|e2|...)$/i.test(name)] for lower-case extensions. *)
Definition testExtensions (extensions : list string) (name : string) : bool :=
  existsb (fun e => endsWith (toLowerCase name) (String "." e)) extensions.

Definition IMAGE_EXTENSIONS : string -> bool :=
  testExtensions ["jpg"; "jpeg"; "png"; "gif"; "webp"]%string.
Definition VIDEO_EXTENSIONS : string -> bool :=
  testExtensions ["mp4"; "mov"; "webm"]%string.

Definition includes (types : list string) (t : string) : bool :=
  existsb (String.eqb t) types.

Definition isVideoFile (file : File) : bool :=
  (includes VIDEO_TYPES (type file) || VIDEO_EXTENSIONS (name file))%bool.

Definition isImageFile (file : File) : bool :=
  (includes IMAGE_TYPES (type file) || IMAGE_EXTENSIONS (name file))%bool.

Definition isAcceptedFile (file : File) : bool :=
  (isVideoFile file || isImageFile file)%bool.

Inductive MediaType : Type :=
| photo
| video.

Record UploadedFile : Type := mkUploadedFile {
  file : LocalFile;
  strippedFile : File;
  exifData : ExifData;
  preview : string;
  mediaType : MediaType;
  duration : option float;
  thumbnailBlob : list byte
}.

(** The messages [uploadError] is set to, by their kind and the name of
    the file. *)
Inductive UploadError : Type :=
| exceedsLimit (name : string)
| failedVideo (name : string)
| failedImage (name : string)
| failedProcessing.

(** What the browser and the other functions of the component give:
    - [browser], the canvas and image objects [stripExifData] uses;
    - [processVideo file], what the promise of [processVideo] settles to:
      duration, thumbnail and preview URL;
    - [generateImageThumbnail file], what that promise settles to;
    - [createObjectURL blob], the URL made for a blob;
    - [toISOString t], [new Date(t).toISOString()], which throws for a
      time that is not a date;
    - [onUpload files], whether the callback of the parent returns or
      throws. *)
Record Host : Type := mkHost {
  browser : Redaction.Browser;
  processVideo : File -> settled (float * list byte * string);
  generateImageThumbnail : File -> settled (list byte);
  createObjectURL : list byte -> string;
  toISOString : float -> completion string;
  onUpload : list UploadedFile -> completion unit
}.

(** Truthiness of a number: neither a zero nor [NaN]. *)
Definition truthyFloat (x : float) : bool :=
  match Prim2SF x with
  | S754_zero _ | S754_nan => false
  | _ => true
  end.

(** The [for (const file of files)] loop: the list [uploadedFiles] and
    the variable [uploadError] after it. *)
Fixpoint processFiles_loop (env : Host) (maxBytes : float) (files : list LocalFile)
    (uploadedFiles : list UploadedFile) (uploadError : option UploadError)
  : settled (list UploadedFile * option UploadError) :=
  match files with
  | [] => Fulfilled (uploadedFiles, uploadError)
  | file :: rest =>
      let continue := processFiles_loop env maxBytes rest in
      if (maxBytes <? size file)%float
      then continue uploadedFiles (Some (exceedsLimit (name (content file))))
      else if isVideoFile (content file) then
        let failed := continue uploadedFiles (Some (failedVideo (name (content file)))) in
        await (processVideo env (content file))
          (fun '(duration, thumbnailBlob, preview) =>
             match (if truthyFloat (lastModified file)
                    then t <- toISOString env (lastModified file) ;; Normal (Some t)
                    else Normal None) with
             | Normal dateTaken =>
                 continue
                   (uploadedFiles
                      ++ [mkUploadedFile file (content file)
                            (mkExifData None None None dateTaken)
                            preview video (Some duration) thumbnailBlob])
                   uploadError
             | Throw _ => failed
             end)
          (fun _ => failed)
      else
        let failed := continue uploadedFiles (Some (failedImage (name (content file)))) in
        await (extractExifData (content file))
          (fun exifData =>
             await (Redaction.stripExifData (browser env) (content file))
               (fun strippedFile =>
                  await (generateImageThumbnail env strippedFile)
                    (fun thumbnailBlob =>
                       let preview := createObjectURL env thumbnailBlob in
                       continue
                         (uploadedFiles
                            ++ [mkUploadedFile file strippedFile exifData
                                  preview photo None thumbnailBlob])
                         uploadError)
                    (fun _ => failed))
               (fun _ => failed))
          (fun _ => failed)
  end.

(** The state of the component after [processFiles], and what was handed
    to [onUpload], if it was called. *)
Record Outcome : Type := mkOutcome {
  isProcessing : bool;
  uploadError : option UploadError;
  handedOver : option (list UploadedFile)
}.

Definition processFiles (env : Host) (maxFileSizeMB : float) (files : list LocalFile)
  : settled Outcome :=
  let maxBytes := (maxFileSizeMB * 1024 * 1024)%float in
  match processFiles_loop env maxBytes files [] None with
  | Fulfilled (uploadedFiles, uploadError) =>
      match uploadedFiles with
      | _ :: _ =>
          match onUpload env uploadedFiles with
          | Normal _ => Fulfilled (mkOutcome false uploadError (Some uploadedFiles))
          | Throw _ => Fulfilled (mkOutcome false (Some failedProcessing) (Some uploadedFiles))
          end
      | [] => Fulfilled (mkOutcome false uploadError None)
      end
  | Rejected e => Rejected e
  | Unsettled => Unsettled
  end.

End Uploader.

(** What holds of an entry handed to [onUpload]: a photo went through
    [extractExifData], [stripExifData] and [generateImageThumbnail], and
    the file to upload is the re-encoded one; a video is handed over as it
    is, with no position. *)
Definition processed (env : Uploader.Host) (u : Uploader.UploadedFile) : Prop :=
  let original := Uploader.content (Uploader.file u) in
  match Uploader.mediaType u with
  | Uploader.photo =>
      Uploader.isVideoFile original = false
      /\ extractExifData original = Fulfilled (Uploader.exifData u)
      /\ Redaction.stripExifData (Uploader.browser env) original
         = Fulfilled (Uploader.strippedFile u)
      /\ Uploader.generateImageThumbnail env (Uploader.strippedFile u)
         = Fulfilled (Uploader.thumbnailBlob u)
      /\ type (Uploader.strippedFile u) = "image/jpeg"%string
      /\ name (Uploader.strippedFile u) = name original
  | Uploader.video =>
      Uploader.isVideoFile original = true
      /\ Uploader.strippedFile u = original
      /\ gpsFieldsAbsent (Uploader.exifData u)
  end.

(** ** The direction picker ([DirectionPicker.svelte]) *)

Module DirectionPicker.

(** [calculateAngle], from the binary64 angle [Math.atan2(x, -y)]
    returned to the whole number of degrees handed to [onChange]. *)
Definition roundedAngle (theta : float) : float :=
  let angle := (theta * (180 / Geodesy.Math_PI))%float in
  let angle := if (angle <? 0)%float then (angle + 360)%float else angle in
  Math_round angle.

Inductive Key : Type :=
| ArrowLeft
| ArrowRight
| ArrowUp
| ArrowDown
| OtherKey.

(** [!bearing] for a number. *)
Definition falsyNumber (x : float) : bool :=
  match Prim2SF x with
  | S754_zero _ | S754_nan => true
  | _ => false
  end.

(** [bearing !== 0] for a number. *)
Definition notZero (x : float) : bool :=
  match Prim2SF x with
  | S754_zero _ => false
  | _ => true
  end.

(** [handleKeyDown]: the bearing [onChange] is called with, [None] when
    it is not called. *)
Definition handleKeyDown (bearing : option float) (key : Key) : option float :=
  match bearing with
  | None => None
  | Some bearing =>
      if (falsyNumber bearing && notZero bearing)%bool then None
      else
        match key with
        | ArrowLeft => Some (js_rem (bearing - 15 + 360) 360)%float
        | ArrowRight => Some (js_rem (bearing + 15) 360)%float
        | ArrowUp => Some 0%float
        | ArrowDown => Some 180%float
        | OtherKey => None
        end
  end.

End DirectionPicker.

(** Equality of two binary64 numbers as values, decided on their
    representations. *)
Definition sameNumber (x y : float) : bool :=
  match Prim2SF x, Prim2SF y with
  | S754_zero s, S754_zero s' => Bool.eqb s s'
  | S754_infinity s, S754_infinity s' => Bool.eqb s s'
  | S754_nan, S754_nan => true
  | S754_finite s m e, S754_finite s' m' e' =>
      (Bool.eqb s s' && Pos.eqb m m' && Z.eqb e e')%bool
  | _, _ => false
  end.

(** A number that is zero, or negative and at most [L] in magnitude, or
    positive and at most [U]; with [L = 0] it is not negative. *)
Definition within (L U : Z) (f : spec_float) : Prop :=
  (exists s, f = S754_zero s)
  \/ exists s m e,
       f = S754_finite s m e /\ boundedBy (if s then L else U) 0 (Zpos m) e.

(** ** [formatDuration] ([photo.entity.ts]) *)

(** [Math.floor]: integral values, infinities and [NaN] are returned as
    they are; a number of (0, 1) gives [+0]. *)
Definition Math_floor (x : float) : float :=
  match Prim2SF x with
  | S754_finite s m e =>
      if 0 <=? e then x
      else
        let n := cond_Zopp s (Zpos m) / 2 ^ (- e) in
        if n =? 0 then 0%float else ofInteger n
  | _ => x
  end.

(** The decimal digits of a natural number. *)
Definition decimalText (n : Z) : string :=
  NilZero.string_of_uint (N.to_uint (Z.to_N n)).

(** The text of a [Number] in a template literal ([Number::toString]).
    For a whole number below [2 ^ 53] in magnitude, [-0] included, it is
    the digits of the integer; for [NaN] and the infinities it is their
    name.  For the remaining numbers, fractions and whole numbers of
    [2 ^ 53] or more, the text has the fewest digits that read back as the
    number; [otherText] stands for the language's function on them. *)
Definition numberText (otherText : float -> string) (x : float) : string :=
  match Prim2SF x with
  | S754_nan => "NaN"%string
  | S754_infinity s => (if s then "-Infinity" else "Infinity")%string
  | _ =>
      match integerOf x with
      | Some n =>
          if Z.abs n <? 2 ^ 53
          then String.append (if n <? 0 then "-"%string else EmptyString)
                 (decimalText (Z.abs n))
          else otherText x
      | None => otherText x
      end
  end.

(** [s.padStart(targetLength, c)] for a one-character [c]. *)
Definition padStart (targetLength : nat) (c : ascii) (s : string) : string :=
  (string_of_list_ascii (repeat c (targetLength - String.length s)) ++ s)%string.

(** [Photo.formatDuration] on the [duration] column of the row. *)
Definition formatDuration (otherText : float -> string) (duration : option float)
  : JsValue :=
  match duration with
  | None => JsNull
  | Some duration =>
      let totalSeconds := Math_floor duration in
      let hours := Math_floor (totalSeconds / 3600)%float in
      let minutes := Math_floor (js_rem totalSeconds 3600 / 60)%float in
      let seconds := js_rem totalSeconds 60%float in
      let toString := numberText otherText in
      if (0 <? hours)%float then
        JsString (toString hours ++ ":" ++ padStart 2 "0" (toString minutes)
                  ++ ":" ++ padStart 2 "0" (toString seconds))
      else
        JsString (toString minutes ++ ":" ++ padStart 2 "0" (toString seconds))
  end.

(** ** The GPS IFD the extraction scans

    The arguments of the two calls that lead to [parseGpsIfd]: the offset
    of the TIFF header [extractExifData] hands to [parseExifData], and the
    offset and byte order [parseExifData] hands to [parseGpsIfd]. *)

(** [parseExifData]: the call [parseGpsIfd(view, gpsAbsOffset, tiffOffset,
    littleEndian)], [None] when the function returns without making it. *)
Definition gpsIfdCall (view : DataView) (tiffOffset : Z) : option (Z * bool) :=
  match getUint16 view tiffOffset false with
  | Throw _ => None
  | Normal byteOrder =>
      let littleEndian := byteOrder =? 0x4949 in
      match getUint16 view (tiffOffset + 2) littleEndian with
      | Throw _ => None
      | Normal magic =>
          if negb (magic =? 0x002a) then None
          else
            match getUint32 view (tiffOffset + 4) littleEndian with
            | Throw _ => None
            | Normal ifd0Offset =>
                let ifd0 := parseIfd0 view (tiffOffset + ifd0Offset) tiffOffset littleEndian in
                if truthyNumber (Ifd0.gpsIfdOffset ifd0) then
                  match Ifd0.gpsIfdOffset ifd0 with
                  | Some gpsIfdOffset => Some (tiffOffset + gpsIfdOffset, littleEndian)
                  | None => None
                  end
                else None
            end
      end
  end.

(** The segment scan: the [tiffOffset] of the call to [parseExifData],
    [None] when the loop ends without making it. *)
Fixpoint exifSegmentCall (fuel : nat) (view : DataView) (offset : Z) : option Z :=
  match fuel with
  | O => None
  | S fuel' =>
      if negb (offset <? byteLength view - 4) then None
      else
        match getUint16 view offset false with
        | Throw _ => None
        | Normal marker =>
            let offset := offset + 2 in
            if marker =? EXIF_MARKER then
              match getUint16 view offset false with
              | Throw _ => None
              | Normal length =>
                  let offset := offset + 2 in
                  match readHeader view offset with
                  | Throw _ => None
                  | Normal header =>
                      if String.eqb header EXIF_HEADER then Some (offset + 6)
                      else exifSegmentCall fuel' view offset
                  end
              end
            else if Z.land marker 0xff00 =? 0xff00 then
              match getUint16 view offset false with
              | Throw _ => None
              | Normal length => exifSegmentCall fuel' view (offset + length)
              end
            else None
        end
  end.

(** The GPS IFD [extractExifData] scans for a file, if it scans one: the
    buffer, the offset of the TIFF header, the offset of the IFD and the
    byte order. *)
Definition scannedGpsIfd (file : File) : option (DataView * Z * Z * bool) :=
  if (negb (startsWith (type file) "image/jpeg")
      && negb (endsWith (toLowerCase (name file)) ".jpg"))%bool
  then None
  else
    match arrayBuffer file with
    | Throw _ => None
    | Normal buffer =>
        match getUint16 buffer 0 false with
        | Throw _ => None
        | Normal magic =>
            if negb (magic =? 0xffd8) then None
            else
              match exifSegmentCall (S (List.length buffer)) buffer 2 with
              | None => None
              | Some tiffOffset =>
                  match gpsIfdCall buffer tiffOffset with
                  | None => None
                  | Some (ifdOffset, littleEndian) =>
                      Some (buffer, tiffOffset, ifdOffset, littleEndian)
                  end
              end
        end
    end.

(** The IFD holds no entry with the given tag among those its count
    announces. *)
Definition lacksTag (view : DataView) (ifdOffset : Z) (littleEndian : bool) (tag : Z)
  : Prop :=
  forall entryCount i,
    getUint16 view ifdOffset littleEndian = Normal entryCount ->
    0 <= i < entryCount ->
    getUint16 view (ifdOffset + 2 + i * 12) littleEndian <> Normal tag.

(** ** What ECMAScript says of [Math.sin], [Math.cos] and [Math.atan2] *)

(** A zero or a finite number: neither [NaN] nor an infinity. *)
Definition finiteNumber (x : float) : Prop :=
  match Prim2SF x with
  | S754_zero _ | S754_finite _ _ _ => True
  | _ => False
  end.

(** The results the language fixes: a zero for the sine of that zero, 1
    for the cosine of a zero, [NaN] for the sine or cosine of [NaN] or an
    infinity and for [atan2] of a [NaN], and the zero [y] for
    [atan2(y, +0)].  Of the approximated results it is assumed that a sine
    or cosine is at most 1 in magnitude and that an angle of [atan2] lies
    between [-Math.PI] and [Math.PI], the interval the language gives for
    it. *)
Record conforms (M : Geodesy.MathLibrary) : Prop := mkConforms {
  sin_zero : forall x s, Prim2SF x = S754_zero s -> Geodesy.Math_sin M x = x;
  sin_nan : forall x, ~ finiteNumber x -> Geodesy.Math_sin M x = nan;
  sin_finite : forall x, finiteNumber x -> smallNumber 1 (Prim2SF (Geodesy.Math_sin M x));
  cos_zero : forall x s, Prim2SF x = S754_zero s -> Geodesy.Math_cos M x = 1%float;
  cos_nan : forall x, ~ finiteNumber x -> Geodesy.Math_cos M x = nan;
  cos_finite : forall x, finiteNumber x -> smallNumber 1 (Prim2SF (Geodesy.Math_cos M x));
  atan2_nan : forall y x,
    Prim2SF y = S754_nan \/ Prim2SF x = S754_nan -> Geodesy.Math_atan2 M y x = nan;
  atan2_zero : forall y s, Prim2SF y = S754_zero s -> Geodesy.Math_atan2 M y 0 = y;
  atan2_range : forall y x,
    Prim2SF y <> S754_nan -> Prim2SF x <> S754_nan ->
    (- Geodesy.Math_PI <=? Geodesy.Math_atan2 M y x)%float = true
    /\ (Geodesy.Math_atan2 M y x <=? Geodesy.Math_PI)%float = true
}.

(** A library with the coarsest results these conditions allow: the
    fixed results, 0 for the sine and 1 for the cosine of every other
    finite number, and for [atan2] the angle of an axis.  It approximates
    nothing; it shows that the conditions can be met together. *)
Definition coarseMath : Geodesy.MathLibrary :=
  Geodesy.mkMathLibrary
    (fun x =>
       match Prim2SF x with
       | S754_zero _ => x
       | S754_finite _ _ _ => 0%float
       | _ => nan
       end)
    (fun x =>
       match Prim2SF x with
       | S754_zero _ | S754_finite _ _ _ => 1%float
       | _ => nan
       end)
    (fun y x =>
       match Prim2SF y, Prim2SF x with
       | S754_nan, _ | _, S754_nan => nan
       | S754_zero s, S754_zero false
       | S754_zero s, S754_finite false _ _
       | S754_zero s, S754_infinity false => y
       | S754_zero s, _ => if s then (- Geodesy.Math_PI)%float else Geodesy.Math_PI
       | S754_finite s _ _, _
       | S754_infinity s, _ =>
           if s then (- (Geodesy.Math_PI / 2))%float else (Geodesy.Math_PI / 2)%float
       end).

(** A coordinate in decimal degrees: a number of at most [2 ^ 32] in
    magnitude, which every latitude and longitude is, wrapped around the
    globe or not. *)
Definition coordinate (x : float) : Prop := (abs x <=? 0x1p+32)%float = true.

(** * Proofs *)

(** ** Rounding in binary64: signs and integers *)

Section Rounding.

Lemma shr_1_nonneg mrs : 0 <= shr_m mrs -> 0 <= shr_m (shr_1 mrs).
Proof.
  destruct mrs as [m r s]; simpl; intros H.
  destruct m as [|p|p]; [simpl; lia| |lia].
  destruct p; simpl; lia.
Qed.

Lemma iter_pos_invariant {A : Type} (f : A -> A) (P : A -> Prop) :
  (forall a, P a -> P (f a)) -> forall n a, P a -> P (SpecFloat.iter_pos f n a).
Proof.
  intros Hf; induction n as [n IH|n IH|]; intros a Ha; simpl; auto.
Qed.

Lemma shr_nonneg mrs e n : 0 <= shr_m mrs -> 0 <= shr_m (fst (shr mrs e n)).
Proof.
  intros H; unfold shr; destruct n; simpl; auto.
  apply (iter_pos_invariant shr_1 (fun x => 0 <= shr_m x)); auto using shr_1_nonneg.
Qed.

Lemma shr_record_of_loc_m m l : shr_m (shr_record_of_loc m l) = m.
Proof. destruct l as [|[| |]]; reflexivity. Qed.

Lemma shr_fexp_nonneg m e l : 0 <= m -> 0 <= shr_m (fst (shr_fexp prec emax m e l)).
Proof.
  intros H; unfold shr_fexp; apply shr_nonneg; rewrite shr_record_of_loc_m; exact H.
Qed.

Lemma round_nearest_even_nonneg m l : 0 <= m -> 0 <= round_nearest_even m l.
Proof.
  intros H; destruct l as [|[| |]]; simpl; try lia.
  destruct (Z.even m); lia.
Qed.

Lemma binary_round_aux_signed s m e l :
  0 <= m -> signed s (binary_round_aux prec emax s m e l).
Proof.
  intros H; unfold binary_round_aux.
  pose proof (shr_fexp_nonneg m e l H) as H1.
  destruct (shr_fexp prec emax m e l) as [mrs' e']; simpl in H1.
  pose proof (shr_fexp_nonneg _ e' loc_Exact
                (round_nearest_even_nonneg _ (loc_of_shr_record mrs') H1)) as H2.
  destruct (shr_fexp prec emax _ e' loc_Exact) as [mrs'' e'']; simpl in H2.
  destruct (shr_m mrs'') as [|p|p]; [constructor| |lia].
  destruct (e'' <=? emax - prec); constructor.
Qed.

Lemma binary_round_signed s m e : signed s (binary_round prec emax s m e).
Proof.
  unfold binary_round.
  destruct (shl_align m e _) as [mz ez].
  apply binary_round_aux_signed; lia.
Qed.

(** Rounding a canonical mantissa changes nothing. *)
Lemma binary_round_aux_canonical s m e :
  fexp prec emax (Zpos (digits2_pos m) + e) = e ->
  e <= emax - prec ->
  binary_round_aux prec emax s (Zpos m) e loc_Exact = S754_finite s m e.
Proof.
  intros Hc He; unfold binary_round_aux, shr_fexp.
  change (Zdigits2 (Zpos m)) with (Zpos (digits2_pos m)).
  rewrite Hc, Z.sub_diag.
  cbn [shr shr_record_of_loc shr_m loc_of_shr_record round_nearest_even Zdigits2].
  rewrite Hc, Z.sub_diag.
  cbn [shr shr_record_of_loc shr_m].
  apply Z.leb_le in He; rewrite He; reflexivity.
Qed.

Lemma digits2_pos_iter_xO p k :
  digits2_pos (Pos.iter xO p k) = (digits2_pos p + k)%positive.
Proof.
  induction k as [|k IH] using Pos.peano_ind.
  - simpl; lia.
  - rewrite Pos.iter_succ; simpl; rewrite IH; lia.
Qed.

Lemma digits2_pos_size p : digits2_pos p = Pos.size p.
Proof. induction p; simpl; congruence. Qed.

Lemma digits2_pos_bound p k : 0 <= k -> Zpos p < 2 ^ k -> Zpos (digits2_pos p) <= k.
Proof.
  intros Hk H; rewrite digits2_pos_size.
  pose proof (Pos.size_le p) as Hs.
  apply Pos2Z.pos_le_pos in Hs; rewrite Pos2Z.inj_pow in Hs.
  change (Zpos p~0) with (2 * Zpos p) in Hs.
  destruct (Z_le_gt_dec (Zpos (Pos.size p)) k) as [|Hgt]; [assumption|exfalso].
  assert (2 ^ (k + 1) <= 2 ^ Zpos (Pos.size p)) by (apply Z.pow_le_mono_r; lia).
  rewrite Z.pow_add_r in H0 by lia. lia.
Qed.

(** An integer in [1, 2^53) is a finite positive binary64 number. *)
Lemma binary_round_integer p :
  Zpos p < 2 ^ 53 ->
  exists m e, binary_round prec emax false p 0 = S754_finite false m e.
Proof.
  intros Hp.
  pose proof (digits2_pos_bound p 53 ltac:(lia) Hp) as Hd.
  unfold binary_round, shl_align.
  rewrite Z.add_0_r, Z.sub_0_r.
  assert (Hf : fexp prec emax (Zpos (digits2_pos p)) = Zpos (digits2_pos p) - 53).
  { unfold fexp, emin, prec, emax. lia. }
  rewrite Hf.
  destruct (Zpos (digits2_pos p) - 53) as [|q|q] eqn:Hq; [ |lia| ].
  - exists p, 0. apply binary_round_aux_canonical.
    + rewrite Z.add_0_r, Hf; lia.
    + unfold emax, prec; lia.
  - exists (Pos.iter xO p q), (Zneg q). apply binary_round_aux_canonical.
    + rewrite digits2_pos_iter_xO. unfold fexp, emin, prec, emax. lia.
    + unfold emax, prec; lia.
Qed.

End Rounding.

(** ** Non-negative binary64 numbers *)

Section FloatFacts.

Lemma signed_nonneg f : signed false f -> nonneg_sf f.
Proof. destruct 1; constructor. Qed.

Lemma leb_zero_iff (x : float) : (0 <=? x)%float = true <-> nonneg_sf (Prim2SF x).
Proof.
  rewrite FloatAxioms.leb_spec.
  change (Prim2SF 0) with (S754_zero false).
  destruct (Prim2SF x) as [s|s| |s m e]; simpl; split; intros H;
    try constructor; try discriminate; try (inversion H; fail).
  - destruct s; [discriminate|constructor].
  - destruct s; [inversion H|reflexivity].
  - destruct s; [discriminate|constructor].
  - destruct s; [inversion H|reflexivity].
Qed.

Lemma toNumber_spec n :
  0 <= n < 2 ^ 53 -> Prim2SF (toNumber n) = binary_normalize prec emax n 0 false.
Proof.
  intros Hn; unfold toNumber.
  rewrite FloatAxioms.of_uint63_spec, Uint63.of_Z_spec, Z.mod_small; [reflexivity|].
  change wB with (2 ^ 63); split; [lia|].
  apply Z.lt_trans with (2 ^ 53); [lia|reflexivity].
Qed.

Lemma toNumber_positive n :
  0 < n < 2 ^ 53 -> exists m e, Prim2SF (toNumber n) = S754_finite false m e.
Proof.
  intros Hn; rewrite toNumber_spec by lia.
  destruct n as [|p|p]; [lia| |lia].
  apply binary_round_integer; lia.
Qed.

Lemma toNumber_nonneg n : 0 <= n < 2 ^ 53 -> nonneg_sf (Prim2SF (toNumber n)).
Proof.
  intros Hn; destruct (Z.eq_dec n 0) as [->|Hz].
  - rewrite toNumber_spec by lia; constructor.
  - destruct (toNumber_positive n ltac:(lia)) as (m & e & ->); constructor.
Qed.

Lemma SFdiv_nonneg X m e :
  nonneg_sf X -> nonneg_sf (SFdiv prec emax X (S754_finite false m e)).
Proof.
  destruct 1 as [s| |mx ex]; simpl.
  - destruct s; constructor.
  - constructor.
  - destruct (SFdiv_core_binary prec emax (Zpos mx) ex (Zpos m) e) as [[mz ez] lz] eqn:Hc.
    apply signed_nonneg, binary_round_aux_signed.
    unfold SFdiv_core_binary in Hc.
    match type of Hc with
    | (let '(q, r) := Z.div_eucl ?a ?b in _) = _ =>
        pose proof (Z.div_eucl_eq a b ltac:(lia)) as Heq;
        pose proof (Z.mod_pos_bound a b ltac:(lia)) as Hr;
        assert (Ha : 0 <= a);
        [|unfold Z.modulo in Hr; destruct (Z.div_eucl a b) as [q r]]
    end.
    + destruct (Z.sub (Z.sub ex e) _); try lia.
      apply Z.shiftl_nonneg; lia.
    + inversion Hc; subst. nia.
Qed.

Lemma div_nonneg (x y : float) m e :
  (0 <=? x)%float = true -> Prim2SF y = S754_finite false m e ->
  (0 <=? x / y)%float = true.
Proof.
  rewrite !leb_zero_iff, FloatAxioms.div_spec; intros Hx ->.
  apply SFdiv_nonneg; assumption.
Qed.

Lemma SFadd_nonneg X Y :
  nonneg_sf X -> nonneg_sf Y -> nonneg_sf (SFadd prec emax X Y).
Proof.
  destruct 1 as [s| |mx ex]; destruct 1 as [s'| |my ey]; simpl; try constructor.
  - destruct s, s'; constructor.
  - apply signed_nonneg, binary_round_signed.
Qed.

Lemma add_nonneg (x y : float) :
  (0 <=? x)%float = true -> (0 <=? y)%float = true -> (0 <=? x + y)%float = true.
Proof.
  rewrite !leb_zero_iff, FloatAxioms.add_spec; apply SFadd_nonneg.
Qed.

Lemma abs_nonneg (x : float) : (0 <=? x)%float = true -> (abs x =? x)%float = true.
Proof.
  rewrite leb_zero_iff, FloatAxioms.eqb_spec, FloatAxioms.abs_spec.
  destruct 1 as [s| |m e]; simpl; try reflexivity.
  unfold SFeqb; simpl.
  rewrite Z.compare_refl, Pos.compare_cont_refl; reflexivity.
Qed.

Lemma abs_opp (x : float) : abs (- x) = abs x.
Proof.
  apply Prim2SF_inj; rewrite !FloatAxioms.abs_spec, FloatAxioms.opp_spec.
  destruct (Prim2SF x); reflexivity.
Qed.


End FloatFacts.

(** ** Rounding in binary64: bounds *)

Section RoundingBounds.

Lemma Zdigits2_nonneg m : 0 <= Zdigits2 m.
Proof. destruct m; simpl; lia. Qed.

(** [Zdigits2 m] is the number of bits of [m]. *)
Lemma Zdigits2_lt m : 0 <= m -> m < 2 ^ Zdigits2 m.
Proof.
  destruct m as [|p|p]; intros H; [reflexivity| |lia].
  simpl Zdigits2; rewrite digits2_pos_size.
  pose proof (Pos.size_gt p) as Hs.
  apply Pos2Z.pos_lt_pos in Hs; rewrite Pos2Z.inj_pow in Hs; exact Hs.
Qed.

Lemma Zdigits2_le m k : 0 <= m -> 0 <= k -> m < 2 ^ k -> Zdigits2 m <= k.
Proof.
  destruct m as [|p|p]; intros Hm Hk H; [simpl; lia| |lia].
  apply digits2_pos_bound; assumption.
Qed.

Lemma Zdigits2_ge m : 0 < m -> 2 ^ (Zdigits2 m - 1) <= m.
Proof.
  destruct m as [|p|p]; intros H; try lia.
  simpl Zdigits2; rewrite digits2_pos_size.
  pose proof (Pos.size_le p) as Hs.
  apply Pos2Z.pos_le_pos in Hs; rewrite Pos2Z.inj_pow in Hs.
  change (Zpos p~0) with (2 * Zpos p) in Hs.
  replace (Zpos (Pos.size p)) with (Zpos (Pos.size p) - 1 + 1) in Hs by lia.
  rewrite Z.pow_add_r in Hs by lia. lia.
Qed.

Lemma Zdigits2_mono a b : 0 <= a <= b -> Zdigits2 a <= Zdigits2 b.
Proof.
  intros [Ha Hab].
  apply Zdigits2_le; [lia|apply Zdigits2_nonneg|].
  pose proof (Zdigits2_lt b ltac:(lia)); lia.
Qed.

(** The bits of [m * 2 ^ k]. *)
Lemma Zdigits2_shift_le m k : 0 <= m -> 0 <= k -> Zdigits2 (m * 2 ^ k) <= Zdigits2 m + k.
Proof.
  intros Hm Hk.
  apply Zdigits2_le; [nia|pose proof (Zdigits2_nonneg m); lia|].
  rewrite Z.pow_add_r by (try apply Zdigits2_nonneg; lia).
  pose proof (Zdigits2_lt m Hm).
  apply Z.mul_lt_mono_pos_r; [apply Z.pow_pos_nonneg; lia|assumption].
Qed.

(** *** Shifting a mantissa right *)

Lemma shr_1_spec mrs :
  0 <= shr_m mrs ->
  shr_m (shr_1 mrs) = shr_m mrs / 2
  /\ (exactRecord mrs -> shr_m mrs mod 2 = 0 -> exactRecord (shr_1 mrs)).
Proof.
  destruct mrs as [m r s]; unfold exactRecord; simpl; intros Hm.
  destruct m as [|p|p]; [|destruct p as [p|p|]|lia]; simpl.
  - split; [reflexivity|intros [-> ->] _; split; reflexivity].
  - split; [rewrite Pos2Z.inj_xI; apply Z.div_unique with 1; lia|].
    intros _ H; rewrite Pos2Z.inj_xI in H.
    exfalso. rewrite Z.add_comm, Z.mul_comm, Z.mod_add in H by lia. discriminate.
  - split; [rewrite Pos2Z.inj_xO; apply Z.div_unique with 0; lia|].
    intros [-> ->] _; split; reflexivity.
  - split; [reflexivity|]. intros _ H; discriminate.
Qed.

Lemma iter_shr_1_spec n : forall mrs,
  0 <= shr_m mrs ->
  shr_m (SpecFloat.iter_pos shr_1 n mrs) = shr_m mrs / 2 ^ Zpos n
  /\ (exactRecord mrs -> shr_m mrs mod 2 ^ Zpos n = 0 ->
      exactRecord (SpecFloat.iter_pos shr_1 n mrs)).
Proof.
  assert (Hdouble : forall n : positive,
    (forall mrs, 0 <= shr_m mrs ->
       shr_m (SpecFloat.iter_pos shr_1 n mrs) = shr_m mrs / 2 ^ Zpos n
       /\ (exactRecord mrs -> shr_m mrs mod 2 ^ Zpos n = 0 ->
           exactRecord (SpecFloat.iter_pos shr_1 n mrs))) ->
    forall mrs, 0 <= shr_m mrs ->
       shr_m (SpecFloat.iter_pos shr_1 n (SpecFloat.iter_pos shr_1 n mrs))
       = shr_m mrs / 2 ^ Zpos n~0
       /\ (exactRecord mrs -> shr_m mrs mod 2 ^ Zpos n~0 = 0 ->
           exactRecord (SpecFloat.iter_pos shr_1 n (SpecFloat.iter_pos shr_1 n mrs)))).
  { intros k IH mrs Hm.
    destruct (IH mrs Hm) as [H1 E1].
    assert (Hp : 0 < 2 ^ Zpos k) by (apply Z.pow_pos_nonneg; lia).
    assert (Hm1 : 0 <= shr_m (SpecFloat.iter_pos shr_1 k mrs))
      by (rewrite H1; apply Z.div_pos; lia).
    destruct (IH _ Hm1) as [H2 E2].
    assert (Hpow : 2 ^ Zpos k~0 = 2 ^ Zpos k * 2 ^ Zpos k)
      by (rewrite <- Z.pow_add_r by lia; f_equal; lia).
    split.
    - rewrite H2, H1, Z.div_div by lia. rewrite Hpow; reflexivity.
    - intros Hex Hmod; rewrite Hpow in Hmod.
      apply Z.mod_divide in Hmod; [|lia]. destruct Hmod as [c Hc].
      apply E2.
      + apply E1; [exact Hex|]. rewrite Hc.
        replace (c * (2 ^ Zpos k * 2 ^ Zpos k)) with (c * 2 ^ Zpos k * 2 ^ Zpos k) by ring.
        apply Z.mod_mul; lia.
      + rewrite H1, Hc.
        replace (c * (2 ^ Zpos k * 2 ^ Zpos k)) with (c * 2 ^ Zpos k * 2 ^ Zpos k) by ring.
        rewrite Z.div_mul by lia. apply Z.mod_mul; lia. }
  induction n as [n IH|n IH|]; intros mrs Hm.
  - (* xI *)
    cbn [SpecFloat.iter_pos].
    destruct (shr_1_spec mrs Hm) as [H1 E1].
    assert (Hm1 : 0 <= shr_m (shr_1 mrs)) by (rewrite H1; apply Z.div_pos; lia).
    destruct (Hdouble n IH (shr_1 mrs) Hm1) as [H2 E2].
    assert (Hpow : 2 ^ Zpos n~1 = 2 * 2 ^ Zpos n~0).
    { replace (Zpos n~1) with (Zpos n~0 + 1) by lia.
      rewrite Z.pow_add_r, Z.pow_1_r by lia. lia. }
    split.
    + rewrite H2, H1, Z.div_div by (try apply Z.pow_pos_nonneg; lia).
      rewrite Hpow; reflexivity.
    + intros Hex Hmod; rewrite Hpow in Hmod.
      assert (Hp : 0 < 2 ^ Zpos n~0) by (apply Z.pow_pos_nonneg; lia).
      apply Z.mod_divide in Hmod; [|lia]. destruct Hmod as [c Hc].
      apply E2.
      * apply E1; [exact Hex|]. rewrite Hc.
        replace (c * (2 * 2 ^ Zpos n~0)) with (c * 2 ^ Zpos n~0 * 2) by ring.
        apply Z.mod_mul; lia.
      * rewrite H1, Hc.
        replace (c * (2 * 2 ^ Zpos n~0)) with (c * 2 ^ Zpos n~0 * 2) by ring.
        rewrite Z.div_mul by lia. apply Z.mod_mul; lia.
  - cbn [SpecFloat.iter_pos]. apply Hdouble; assumption.
  - cbn [SpecFloat.iter_pos]. change (2 ^ 1) with 2. apply shr_1_spec; assumption.
Qed.

(** *** Rounding keeps a bound that is itself a binary number *)

Lemma fexp_mono x y : x <= y -> fexp prec emax x <= fexp prec emax y.
Proof. unfold fexp, emin; lia. Qed.

Lemma boundedBy_fexp mB eB m e :
  0 <= m -> 0 < mB ->
  fexp prec emax (Zdigits2 mB + eB) <= eB ->
  boundedBy mB eB m e ->
  fexp prec emax (Zdigits2 m + e) <= eB.
Proof.
  intros Hm HmB Hc [He Hb].
  eapply Z.le_trans; [|exact Hc].
  apply fexp_mono.
  pose proof (Zdigits2_mono m (mB * 2 ^ (eB - e)) ltac:(lia)).
  pose proof (Zdigits2_shift_le mB (eB - e) ltac:(lia) ltac:(lia)).
  lia.
Qed.

(** One [shr]: the exponent it reaches and the mantissa it leaves. *)
Lemma shr_spec mrs e n :
  0 <= shr_m mrs ->
  snd (shr mrs e n) = Z.max e (e + n)
  /\ shr_m (fst (shr mrs e n)) = shr_m mrs / 2 ^ (snd (shr mrs e n) - e)
  /\ (exactRecord mrs -> shr_m mrs mod 2 ^ (snd (shr mrs e n) - e) = 0 ->
      exactRecord (fst (shr mrs e n))).
Proof.
  intros Hm; unfold shr; destruct n as [|p|p]; cbn [fst snd].
  - rewrite Z.sub_diag, Z.pow_0_r, Z.div_1_r; split; [lia|split; [reflexivity|intros H _; exact H]].
  - replace (e + Zpos p - e) with (Zpos p) by lia.
    destruct (iter_shr_1_spec p mrs Hm) as [H1 H2].
    split; [lia|split; [exact H1|exact H2]].
  - rewrite Z.sub_diag, Z.pow_0_r, Z.div_1_r; split; [lia|split; [reflexivity|intros H _; exact H]].
Qed.

Lemma round_nearest_even_le m l : round_nearest_even m l <= m + 1.
Proof. destruct l as [|[| |]]; simpl; try lia. destruct (Z.even m); lia. Qed.

Lemma loc_of_exactRecord mrs : exactRecord mrs -> loc_of_shr_record mrs = loc_Exact.
Proof. destruct mrs as [m r s]; intros [H1 H2]; simpl in *; subst; reflexivity. Qed.

Lemma exactRecord_of_loc m : exactRecord (shr_record_of_loc m loc_Exact).
Proof. split; reflexivity. Qed.

(** A shift keeps the bound. *)
Lemma div_boundedBy mB eB m e e' :
  0 < mB -> e <= e' <= eB -> m <= mB * 2 ^ (eB - e) ->
  m / 2 ^ (e' - e) <= mB * 2 ^ (eB - e').
Proof.
  intros HmB He Hb.
  assert (Hp : 0 < 2 ^ (e' - e)) by (apply Z.pow_pos_nonneg; lia).
  apply Z.div_le_upper_bound; [exact Hp|].
  replace (eB - e) with ((e' - e) + (eB - e')) in Hb by lia.
  rewrite Z.pow_add_r in Hb by lia. lia.
Qed.

Lemma binary_round_aux_bound s M E loc mB eB :
  0 <= M -> 0 < mB ->
  fexp prec emax (Zdigits2 mB + eB) <= eB ->
  eB <= emax - prec ->
  boundedBy mB eB M E ->
  (loc <> loc_Exact -> M < mB * 2 ^ (eB - E)) ->
  roundedBelow s mB eB (binary_round_aux prec emax s M E loc).
Proof.
  intros HM HmB Hc Hmax Hb Hloc.
  pose proof (boundedBy_fexp mB eB M E HM HmB Hc Hb) as Hf1.
  destruct Hb as [HE Hb].
  unfold binary_round_aux, shr_fexp.
  pose proof (shr_spec (shr_record_of_loc M loc) E (fexp prec emax (Zdigits2 M + E) - E))
    as H1.
  rewrite shr_record_of_loc_m in H1; specialize (H1 HM).
  destruct (shr (shr_record_of_loc M loc) E _) as [mrs' e'].
  cbn [fst snd] in H1; destruct H1 as (He' & Hm' & Hex').
  assert (He'B : E <= e' <= eB) by lia.
  pose proof (div_boundedBy mB eB M E e' HmB He'B Hb) as Hb'.
  rewrite <- Hm' in Hb'.
  assert (Hp1 : 0 < 2 ^ (e' - E)) by (apply Z.pow_pos_nonneg; lia).
  assert (Hm'0 : 0 <= shr_m mrs') by (rewrite Hm'; apply Z.div_pos; lia).
  set (m1 := round_nearest_even (shr_m mrs') (loc_of_shr_record mrs')).
  assert (Hm1 : 0 <= m1) by (apply round_nearest_even_nonneg; exact Hm'0).
  assert (Hb1 : m1 <= mB * 2 ^ (eB - e')).
  { destruct (Z.eq_dec (shr_m mrs') (mB * 2 ^ (eB - e'))) as [Heq|Hne].
    - (* the bound is reached: nothing was cut off *)
      assert (HMeq : M = mB * 2 ^ (eB - E)).
      { pose proof (Z.mul_div_le M (2 ^ (e' - E)) Hp1) as Hle.
        rewrite <- Hm', Heq in Hle.
        replace (eB - E) with ((e' - E) + (eB - e')) in Hb |- * by lia.
        rewrite Z.pow_add_r in Hb |- * by lia. lia. }
      assert (Hexact : loc = loc_Exact).
      { destruct loc as [|c]; [reflexivity|].
        exfalso; assert (M < mB * 2 ^ (eB - E)) by (apply Hloc; discriminate); lia. }
      subst loc.
      assert (Hrec : exactRecord mrs').
      { apply Hex'; [apply exactRecord_of_loc|].
        rewrite HMeq.
        replace (eB - E) with ((eB - e') + (e' - E)) by lia.
        rewrite Z.pow_add_r, Z.mul_assoc by lia.
        apply Z.mod_mul; lia. }
      unfold m1; rewrite (loc_of_exactRecord _ Hrec); simpl; lia.
    - pose proof (round_nearest_even_le (shr_m mrs') (loc_of_shr_record mrs')).
      unfold m1; lia. }
  assert (Hf2 : fexp prec emax (Zdigits2 m1 + e') <= eB).
  { apply (boundedBy_fexp mB eB m1 e' Hm1 HmB Hc); split; [lia|exact Hb1]. }
  pose proof (shr_spec (shr_record_of_loc m1 loc_Exact) e'
                (fexp prec emax (Zdigits2 m1 + e') - e')) as H2.
  rewrite shr_record_of_loc_m in H2; specialize (H2 Hm1).
  destruct (shr (shr_record_of_loc m1 loc_Exact) e' _) as [mrs'' e''].
  cbn [fst snd] in H2; destruct H2 as (He'' & Hm'' & _).
  assert (He''B : e' <= e'' <= eB) by lia.
  pose proof (div_boundedBy mB eB m1 e' e'' HmB He''B Hb1) as Hb''.
  rewrite <- Hm'' in Hb''.
  assert (Hm''0 : 0 <= shr_m mrs'').
  { rewrite Hm''; apply Z.div_pos; [lia|apply Z.pow_pos_nonneg; lia]. }
  destruct (shr_m mrs'') as [|p|p]; [constructor| |lia].
  replace (e'' <=? emax - prec) with true by (symmetry; apply Z.leb_le; lia).
  constructor; split; [lia|exact Hb''].
Qed.

End RoundingBounds.

(** ** The last two lines of [calculateBearing] in binary64 *)

Section Normalize.

Import Geodesy.

(** What a valid finite number is. *)
Lemma finite_valid (x : float) s m e :
  Prim2SF x = S754_finite s m e ->
  fexp prec emax (Zpos (digits2_pos m) + e) = e
  /\ e <= emax - prec
  /\ Zpos m < 2 ^ 53
  /\ SpecFloat.emin prec emax <= e.
Proof.
  intros H; pose proof (Prim2SF_valid x) as Hv; rewrite H in Hv.
  unfold SpecFloat.valid_binary, bounded, canonical_mantissa in Hv.
  apply andb_prop in Hv as [Hc Hb].
  apply Z.eqb_eq in Hc; apply Z.leb_le in Hb.
  split; [exact Hc|split; [exact Hb|]].
  assert (Hd : Zpos (digits2_pos m) <= 53 /\ SpecFloat.emin prec emax <= e).
  { revert Hc; unfold fexp, SpecFloat.emin, prec, emax; lia. }
  destruct Hd as [Hd He]; split; [|exact He].
  pose proof (Zdigits2_lt (Zpos m) ltac:(lia)) as Hlt; simpl Zdigits2 in Hlt.
  eapply Z.lt_le_trans; [exact Hlt|].
  apply Z.pow_le_mono_r; lia.
Qed.

Lemma shl_align_spec mx ex ex' :
  let r := shl_align mx ex ex' in
  snd r <= ex /\ snd r = Z.min ex ex' /\ Zpos (fst r) = Zpos mx * 2 ^ (ex - snd r).
Proof.
  unfold shl_align.
  destruct (ex' - ex) as [|d|d] eqn:Hd; cbn [fst snd].
  - rewrite Z.sub_diag, Z.pow_0_r; lia.
  - rewrite Z.sub_diag, Z.pow_0_r; lia.
  - split; [lia|split; [lia|]].
    replace (ex - ex') with (Zpos d) by lia.
    clear Hd; induction d as [|d IH] using Pos.peano_ind.
    + simpl Pos.iter; rewrite Z.pow_1_r; lia.
    + rewrite Pos.iter_succ, Pos2Z.inj_xO, IH, Pos2Z.inj_succ, Z.pow_succ_r by lia. lia.
Qed.

(** [binary_round] keeps a bound, as [binary_round_aux] does. *)
Lemma binary_round_bound s p e mB eB :
  0 < mB ->
  fexp prec emax (Zdigits2 mB + eB) <= eB ->
  eB <= emax - prec ->
  boundedBy mB eB (Zpos p) e ->
  roundedBelow s mB eB (binary_round prec emax s p e).
Proof.
  intros HmB Hc Hmax [He Hb]; unfold binary_round.
  pose proof (shl_align_spec p e (fexp prec emax (Zpos (digits2_pos p) + e))) as Ha.
  destruct (shl_align p e _) as [mz ez]; cbn [fst snd] in Ha.
  destruct Ha as (Hez & _ & Hmz).
  apply binary_round_aux_bound; try assumption; try lia.
  - split; [lia|]. rewrite Hmz.
    replace (eB - ez) with ((eB - e) + (e - ez)) by lia.
    rewrite Z.pow_add_r by lia.
    assert (0 < 2 ^ (e - ez)) by (apply Z.pow_pos_nonneg; lia). nia.
  - intros Hne; exfalso; apply Hne; reflexivity.
Qed.

Lemma roundedBelow_small s mB f : roundedBelow s mB 0 f -> smallNumber mB f.
Proof.
  destruct 1 as [|m e Hb]; [left; eexists; reflexivity|].
  right; exists s, m, e; split; [reflexivity|exact Hb].
Qed.

(** Comparisons of finite numbers of the same sign, through exponents and
    mantissas. *)
Lemma SFleb_positive m e m' e' :
  SFleb (S754_finite false m e) (S754_finite false m' e') = true ->
  e < e' \/ (e = e' /\ Zpos m <= Zpos m').
Proof.
  unfold SFleb, SFcompare.
  destruct (Z.compare_spec e e') as [He|He|He]; [|left; exact He|discriminate].
  rewrite Pos.compare_cont_spec; simpl Pos.switch_Eq.
  destruct (Pos.compare_spec m m') as [Hc|Hc|Hc]; try discriminate; intros _; right;
    (split; [exact He|]).
  - rewrite Hc; apply Z.le_refl.
  - apply Z.lt_le_incl, Pos2Z.pos_lt_pos; exact Hc.
Qed.

Lemma SFleb_negative m e m' e' :
  SFleb (S754_finite true m' e') (S754_finite true m e) = true ->
  e < e' \/ (e = e' /\ Zpos m <= Zpos m').
Proof.
  unfold SFleb, SFcompare.
  destruct (Z.compare_spec e' e) as [He|He|He]; [|discriminate|left; exact He].
  rewrite Pos.compare_cont_spec; simpl Pos.switch_Eq.
  destruct (Pos.compare_spec m' m) as [Hc|Hc|Hc]; try discriminate; intros _; right;
    (split; [symmetry; exact He|]).
  - rewrite Hc; apply Z.le_refl.
  - apply Z.lt_le_incl, Pos2Z.pos_lt_pos; exact Hc.
Qed.

Lemma SFltb_positive m e m' e' :
  e < e' \/ (e = e' /\ Zpos m < Zpos m') ->
  SFltb (S754_finite false m e) (S754_finite false m' e') = true.
Proof.
  unfold SFltb, SFcompare; intros [He|[He Hm]].
  - apply Z.compare_lt_iff in He; rewrite He; reflexivity.
  - subst e'; rewrite Z.compare_refl, Pos.compare_cont_spec; simpl Pos.switch_Eq.
    apply Pos2Z.pos_lt_pos in Hm || idtac.
    assert (Hc : (m ?= m')%positive = Lt) by (apply Pos.compare_lt_iff; exact Hm).
    rewrite Hc; reflexivity.
Qed.


(** The angles [Math.atan2] may return. *)
Lemma angle_cases (t : float) :
  (- Math_PI <=? t)%float = true -> (t <=? Math_PI)%float = true ->
  (exists s, Prim2SF t = S754_zero s)
  \/ exists s m e,
       Prim2SF t = S754_finite s m e
       /\ e <= -51 /\ (e = -51 -> Zpos m <= 7074237752028440) /\ Zpos m < 2 ^ 53.
Proof.
  rewrite !FloatAxioms.leb_spec.
  change (Prim2SF (- Math_PI)) with (S754_finite true 7074237752028440 (-51)).
  change (Prim2SF Math_PI) with (S754_finite false 7074237752028440 (-51)).
  destruct (Prim2SF t) as [s|s| |s m e] eqn:Ht.
  - intros _ _; left; exists s; reflexivity.
  - destruct s; simpl; intros; discriminate.
  - simpl; intros; discriminate.
  - destruct (finite_valid t s m e Ht) as (_ & _ & Hm & _).
    intros Hlo Hhi; right; exists s, m, e; split; [reflexivity|].
    destruct s.
    + apply SFleb_negative in Hlo; lia.
    + apply SFleb_positive in Hhi; lia.
Qed.

(** [angle * 180] is at most 566 in magnitude. *)
Lemma angle_times_180 (t : float) :
  (- Math_PI <=? t)%float = true -> (t <=? Math_PI)%float = true ->
  smallNumber 566 (Prim2SF (t * 180)%float).
Proof.
  intros Hlo Hhi; rewrite FloatAxioms.mul_spec.
  change (Prim2SF 180) with (S754_finite false 6333186975989760 (-45)).
  destruct (angle_cases t Hlo Hhi) as [[s ->]|(s & m & e & -> & He & Hm & Hm53)].
  - left; eexists; reflexivity.
  - unfold SF64mul, SFmul.
    eapply roundedBelow_small, binary_round_aux_bound; try lia.
    + vm_compute; discriminate.
    + vm_compute; discriminate.
    + split; [lia|].
      rewrite Pos2Z.inj_mul.
      replace (0 - (e + -45)) with (96 + (-51 - e)) by lia.
      rewrite Z.pow_add_r by lia.
      change (2 ^ 96) with 79228162514264337593543950336.
      change (2 ^ 53) with 9007199254740992 in Hm53.
      destruct (Z.eq_dec e (-51)) as [->|Hne].
      * specialize (Hm eq_refl). change (2 ^ (-51 - -51)) with 1. lia.
      * assert (2 ^ 1 <= 2 ^ (-51 - e)) by (apply Z.pow_le_mono_r; lia).
        change (2 ^ 1) with 2 in *. nia.
    + intros Hne; exfalso; apply Hne; reflexivity.
Qed.

(** [x / Math.PI] is at most 181 in magnitude when [x] is at most 566. *)
Lemma div_PI_bound (u : float) :
  smallNumber 566 (Prim2SF u) -> smallNumber 181 (Prim2SF (u / Math_PI)%float).
Proof.
  intros Hu; rewrite FloatAxioms.div_spec.
  change (Prim2SF Math_PI) with (S754_finite false 7074237752028440 (-51)).
  destruct Hu as [[s ->]|(s & m & e & -> & He & Hm)].
  - left; eexists; reflexivity.
  - unfold SF64div, SFdiv, SFdiv_core_binary.
    change (Zdigits2 7074237752028440) with 53.
    set (d1 := Zdigits2 (Zpos m)).
    set (e' := Z.min (fexp prec emax (d1 + e - (53 + -51))) (e - -51)).
    set (sh := e - -51 - e').
    assert (Hd1 : d1 + e <= 10).
    { assert (Zdigits2 (Zpos m) <= 10 - e); [|unfold d1; lia].
      apply Zdigits2_le; try lia.
      eapply Z.le_lt_trans; [exact Hm|].
      replace (10 - e) with (10 + (0 - e)) by lia.
      rewrite Z.pow_add_r by lia.
      assert (0 < 2 ^ (0 - e)) by (apply Z.pow_pos_nonneg; lia).
      change (2 ^ 10) with 1024. lia. }
    assert (He' : e' <= -45).
    { assert (fexp prec emax (d1 + e - (53 + -51)) <= -45);
        [unfold fexp, SpecFloat.emin, prec, emax|unfold e']; lia. }
    assert (Hsh : 0 <= sh) by (unfold sh, e'; lia).
    set (m' := match sh with
               | 0 => Zpos m
               | Zpos _ => Z.shiftl (Zpos m) sh
               | Zneg _ => 0
               end).
    assert (Hm' : m' = Zpos m * 2 ^ sh).
    { unfold m'; destruct sh as [|p|p]; [rewrite Z.pow_0_r; lia| |lia].
      apply Z.shiftl_mul_pow2; lia. }
    assert (Hpow : 0 < 2 ^ (0 - e')) by (apply Z.pow_pos_nonneg; lia).
    assert (Hbound : m' <= 566 * 2251799813685248 * 2 ^ (0 - e')).
    { rewrite Hm'.
      change 2251799813685248 with (2 ^ 51).
      rewrite <- Z.mul_assoc, <- Z.pow_add_r by lia.
      replace (51 + (0 - e')) with ((0 - e) + sh) by (unfold sh; lia).
      rewrite Z.pow_add_r by lia.
      assert (0 < 2 ^ sh) by (apply Z.pow_pos_nonneg; lia). nia. }
    pose proof (Z.div_eucl_eq m' 7074237752028440 ltac:(lia)) as Heq.
    pose proof (Z.mod_pos_bound m' 7074237752028440 ltac:(lia)) as Hr.
    unfold Z.modulo in Hr.
    destruct (Z.div_eucl m' 7074237752028440) as [q r].
    assert (Hm'0 : 0 <= m') by (rewrite Hm'; nia).
    assert (Hq : 0 <= q < 181 * 2 ^ (0 - e')) by nia.
    eapply roundedBelow_small, binary_round_aux_bound; try lia.
    + vm_compute; discriminate.
    + vm_compute; discriminate.
    + split; lia.
Qed.

(** Adding 360 to a number that is at most 181 in magnitude gives zero or
    a positive finite number. *)
Lemma plus_360 (v : float) :
  smallNumber 181 (Prim2SF v) ->
  (exists s, Prim2SF (v + 360)%float = S754_zero s)
  \/ exists m e, Prim2SF (v + 360)%float = S754_finite false m e.
Proof.
  intros Hv; rewrite FloatAxioms.add_spec.
  change (Prim2SF 360) with (S754_finite false 6333186975989760 (-44)).
  destruct Hv as [[s ->]|(s & m & e & -> & He & Hm)].
  - right; do 2 eexists; reflexivity.
  - unfold SF64add, SFadd.
    set (ez := Z.min e (-44)).
    pose proof (shl_align_spec m e ez) as Hv.
    pose proof (shl_align_spec 6333186975989760 (-44) ez) as Hc.
    destruct (shl_align m e ez) as [mv ev]; destruct (shl_align _ (-44) ez) as [mc ec].
    cbn [fst snd] in *.
    destruct Hv as (_ & Hev & HV); destruct Hc as (_ & Hec & HC).
    assert (Hev' : ev = ez) by (unfold ez in *; lia).
    assert (Hec' : ec = ez) by (unfold ez in *; lia).
    clear Hev Hec; subst ev ec.
    assert (Hez : ez <= -44) by (unfold ez; lia).
    assert (Hpow : 0 < 2 ^ (0 - ez)) by (apply Z.pow_pos_nonneg; lia).
    assert (HVb : Zpos mv <= 181 * 2 ^ (0 - ez)).
    { rewrite HV.
      replace (0 - ez) with ((0 - e) + (e - ez)) by lia.
      rewrite Z.pow_add_r by (unfold ez; lia).
      assert (0 < 2 ^ (e - ez)) by (apply Z.pow_pos_nonneg; unfold ez; lia).
      rewrite Z.mul_assoc; apply Z.mul_le_mono_nonneg_r; lia. }
    assert (HCv : Zpos mc = 360 * 2 ^ (0 - ez)).
    { rewrite HC.
      change 6333186975989760 with (45 * 2 ^ 47).
      replace (0 - ez) with ((-44 - ez) + 44) by lia.
      rewrite (Z.pow_add_r 2 (-44 - ez) 44) by lia.
      change (2 ^ 44) with 17592186044416. change (2 ^ 47) with 140737488355328.
      lia. }
    set (sum := cond_Zopp s (Zpos mv) + cond_Zopp false (Zpos mc)).
    assert (Hsum : 0 < sum <= 541 * 2 ^ (0 - ez)).
    { unfold sum, cond_Zopp; destruct s; lia. }
    destruct sum as [|p|p]; try lia.
    unfold binary_normalize.
    assert (Hr : roundedBelow false 541 0 (binary_round prec emax false p ez)).
    { apply binary_round_bound; try lia.
      - vm_compute; discriminate.
      - vm_compute; discriminate.
      - split; lia. }
    destruct Hr as [|m' e' _]; [left|right]; repeat eexists.
Qed.

Lemma Zdigits2_shift m k : 0 < m -> 0 <= k -> Zdigits2 (m * 2 ^ k) = Zdigits2 m + k.
Proof.
  intros Hm Hk.
  assert (Hp : 0 < 2 ^ k) by (apply Z.pow_pos_nonneg; lia).
  apply Z.le_antisymm; [apply Zdigits2_shift_le; lia|].
  pose proof (Zdigits2_ge m Hm) as Hge.
  pose proof (Zdigits2_lt (m * 2 ^ k) ltac:(nia)) as Hlt.
  pose proof (Zdigits2_nonneg (m * 2 ^ k)) as Hnn.
  assert (Hd : 1 <= Zdigits2 m).
  { destruct m; simpl; lia. }
  assert (Hlow : 2 ^ (Zdigits2 m - 1 + k) <= m * 2 ^ k).
  { rewrite Z.pow_add_r by lia. nia. }
  assert (Hcmp : 2 ^ (Zdigits2 m - 1 + k) < 2 ^ Zdigits2 (m * 2 ^ k)) by lia.
  apply Z.pow_lt_mono_r_iff in Hcmp; lia.
Qed.

(** A mantissa of at most 53 bits with an exponent in range is a binary64
    number, and [binary_round] returns it. *)
Lemma binary_round_exact p e :
  Zpos (digits2_pos p) <= 53 ->
  SpecFloat.emin prec emax <= e -> e <= emax - prec ->
  exists mz ez,
    binary_round prec emax false p e = S754_finite false mz ez
    /\ ez <= e
    /\ Zpos mz = Zpos p * 2 ^ (e - ez)
    /\ SpecFloat.valid_binary prec emax (S754_finite false mz ez) = true.
Proof.
  intros Hd He Hmax; unfold binary_round.
  pose proof (shl_align_spec p e (fexp prec emax (Zpos (digits2_pos p) + e))) as Ha.
  destruct (shl_align p e _) as [mz ez]; cbn [fst snd] in Ha.
  destruct Ha as (Hez & Hmin & Hmz).
  assert (Hf : fexp prec emax (Zpos (digits2_pos p) + e) <= e).
  { revert He; unfold fexp, SpecFloat.emin, prec, emax; lia. }
  assert (Hez' : ez = fexp prec emax (Zpos (digits2_pos p) + e)) by lia.
  assert (Hcanon : fexp prec emax (Zpos (digits2_pos mz) + ez) = ez).
  { pose proof (Zdigits2_shift (Zpos p) (e - ez) ltac:(lia) ltac:(lia)) as Hs.
    rewrite <- Hmz in Hs; simpl Zdigits2 in Hs.
    rewrite Hs. replace (Zpos (digits2_pos p) + (e - ez) + ez)
      with (Zpos (digits2_pos p) + e) by lia.
    symmetry; exact Hez'. }
  exists mz, ez; split; [|split; [exact Hez|split; [exact Hmz|]]].
  - apply binary_round_aux_canonical; [exact Hcanon|lia].
  - unfold SpecFloat.valid_binary, bounded, canonical_mantissa.
    apply andb_true_intro; split; [apply Z.eqb_eq; exact Hcanon|apply Z.leb_le; lia].
Qed.

(** The remainder by 360 of zero or of a positive finite number is in
    [0, 360). *)
Lemma rem_360 (a : float) :
  (exists s, Prim2SF a = S754_zero s)
  \/ (exists m e, Prim2SF a = S754_finite false m e) ->
  (0 <=? js_rem a 360)%float = true /\ (js_rem a 360 <? 360)%float = true.
Proof.
  intros Ha; unfold js_rem.
  change (Prim2SF 360) with (S754_finite false 6333186975989760 (-44)).
  destruct Ha as [[s Ha]|(m & e & Ha)].
  - rewrite Ha.
    rewrite FloatAxioms.leb_spec, FloatAxioms.ltb_spec, Ha.
    change (Prim2SF 360) with (S754_finite false 6333186975989760 (-44)).
    change (Prim2SF 0) with (S754_zero false).
    split; reflexivity.
  - destruct (finite_valid a false m e Ha) as (_ & Hemax & Hm53 & Hemin).
    rewrite Ha; cbv zeta.
    set (e0 := Z.min e (-44)).
    set (A := Zpos m * 2 ^ (e - e0)).
    set (B := 6333186975989760 * 2 ^ (-44 - e0)).
    assert (HB : 0 < B).
    { unfold B; assert (0 < 2 ^ (-44 - e0)) by (apply Z.pow_pos_nonneg; unfold e0; lia).
      lia. }
    assert (HA : 0 <= A).
    { unfold A; assert (0 < 2 ^ (e - e0)) by (apply Z.pow_pos_nonneg; unfold e0; lia).
      lia. }
    pose proof (Z.mod_pos_bound A B HB) as Hr.
    pose proof (Z.mod_le A B HA HB) as Hle.
    unfold cond_Zopp.
    destruct (A mod B) as [|p|p] eqn:Hmod; [| |lia].
    + (* remainder zero *)
      unfold binary_normalize.
      rewrite FloatAxioms.leb_spec, FloatAxioms.ltb_spec.
      rewrite Prim2SF_SF2Prim by reflexivity.
      change (Prim2SF 360) with (S754_finite false 6333186975989760 (-44)).
      change (Prim2SF 0) with (S754_zero false).
      split; reflexivity.
    + unfold binary_normalize.
      assert (Hp53 : Zpos p < 2 ^ 53).
      { destruct (Z_le_gt_dec (-44) e) as [Hge|Hlt].
        - (* the exponents are aligned on -44 *)
          assert (He0 : e0 = -44) by (unfold e0; lia).
          unfold B in Hr; rewrite He0 in Hr.
          change (2 ^ (-44 - -44)) with 1 in Hr.
          change (2 ^ 53) with 9007199254740992. lia.
        - assert (He0 : e0 = e) by (unfold e0; lia).
          unfold A in Hle; rewrite He0, Z.sub_diag, Z.pow_0_r in Hle. lia. }
      assert (Hd : Zpos (digits2_pos p) <= 53).
      { apply (Zdigits2_le (Zpos p) 53); lia. }
      destruct (binary_round_exact p e0 Hd) as (mz & ez & Hround & Hez & Hmz & Hvalid).
      { unfold e0; revert Hemin; unfold SpecFloat.emin, prec, emax; lia. }
      { unfold e0, emax, prec; lia. }
      rewrite Hround.
      rewrite FloatAxioms.leb_spec, FloatAxioms.ltb_spec.
      rewrite Prim2SF_SF2Prim by exact Hvalid.
      change (Prim2SF 360) with (S754_finite false 6333186975989760 (-44)).
      change (Prim2SF 0) with (S754_zero false).
      split; [reflexivity|].
      apply SFltb_positive.
      destruct (Z.eq_dec ez (-44)) as [Heq|Hne]; [right|left; unfold e0 in Hez; lia].
      split; [exact Heq|].
      assert (He0 : e0 = -44) by (unfold e0 in *; lia).
      rewrite Hmz, He0, Heq. change (2 ^ (-44 - -44)) with 1.
      unfold B in Hr; rewrite He0 in Hr; change (2 ^ (-44 - -44)) with 1 in Hr.
      lia.
Qed.

(** For every binary64 angle between [-Math.PI] and [Math.PI], the value
    the function returns is in [0, 360). *)
Lemma normalizeBearing_range (angle : float) :
  (- Math_PI <=? angle)%float = true -> (angle <=? Math_PI)%float = true ->
  (0 <=? normalizeBearing angle)%float = true
  /\ (normalizeBearing angle <? 360)%float = true.
Proof.
  intros Hlo Hhi; unfold normalizeBearing; cbv zeta.
  apply rem_360, plus_360, div_PI_bound, angle_times_180; assumption.
Qed.

End Normalize.

(** ** Reads from the buffer *)

Section Reads.

Lemma Normal_inj {A : Type} (a b : A) : Normal a = Normal b -> a = b.
Proof. congruence. Qed.

Lemma byteAt_range view offset : 0 <= byteAt view offset < 256.
Proof.
  unfold byteAt; destruct (nth_error view (Z.to_nat offset)) as [x|]; [|lia].
  pose proof (Byte.to_N_bounded x) as Hx; revert Hx.
  generalize (Byte.to_N x); intros n Hn; lia.
Qed.

Lemma getUint16_range view offset le v :
  getUint16 view offset le = Normal v -> 0 <= v < 65536.
Proof.
  unfold getUint16; cbv zeta; destruct (inBounds view offset 2); [|discriminate].
  pose proof (byteAt_range view offset); pose proof (byteAt_range view (offset + 1)).
  destruct le; intros Hv; apply Normal_inj in Hv; subst v; lia.
Qed.

Lemma getUint32_range view offset le v :
  getUint32 view offset le = Normal v -> 0 <= v < 2 ^ 32.
Proof.
  unfold getUint32; cbv zeta; destruct (inBounds view offset 4); [|discriminate].
  pose proof (byteAt_range view offset); pose proof (byteAt_range view (offset + 1)).
  pose proof (byteAt_range view (offset + 2)); pose proof (byteAt_range view (offset + 3)).
  change (2 ^ 32) with 4294967296.
  destruct le; intros Hv; apply Normal_inj in Hv; subst v; lia.
Qed.

End Reads.

(** ** Loops *)

(** Inversion of a [bind], a conditional or a [Normal] in a hypothesis
    stating that a computation returned normally. *)
Ltac bind_inv H :=
  lazymatch type of H with
  | bind ?c _ = Normal _ =>
      let v := fresh "v" in
      let E := fresh "E" in
      destruct c as [v|] eqn:E; simpl in H; [|discriminate H]
  | (if ?b then _ else _) = Normal _ =>
      let E := fresh "E" in destruct b eqn:E
  | Normal _ = Normal _ => injection H as H; try subst
  end.

Lemma for_loop_invariant {S : Type} (P : S -> Prop) (body : Z -> S -> completion S) :
  forall n i s,
    (forall j t t', i <= j < i + Z.of_nat n -> P t -> body j t = Normal t' -> P t') ->
    P s -> P (fst (for_loop body n i s)).
Proof.
  induction n as [|n IH]; intros i s Hbody Hs; simpl; [exact Hs|].
  destruct (body i s) as [s'|e] eqn:Hb; [|exact Hs].
  apply IH.
  - intros j t t' Hj; apply Hbody; lia.
  - apply (Hbody i s s'); [lia|exact Hs|exact Hb].
Qed.

(** ** Where the GPS fields of the result come from *)

Lemma orElse_None {A : Type} (o : option A) : orElse o None = o.
Proof. destruct o; reflexivity. Qed.

Lemma gpsFieldsFrom_allAbsent view : gpsFieldsFrom view allAbsent.
Proof. left; repeat split. Qed.

Lemma spread_allAbsent r : spread allAbsent r = r.
Proof. destruct r; unfold spread; simpl; rewrite !orElse_None; reflexivity. Qed.

Lemma tiffWalk_gpsFields view tiffOffset le r :
  tiffWalk view tiffOffset le = Normal r -> gpsFieldsFrom view r.
Proof.
  unfold tiffWalk; intros H.
  bind_inv H. bind_inv H; [bind_inv H; apply gpsFieldsFrom_allAbsent|].
  bind_inv H.
  set (ifd0 := parseIfd0 view (tiffOffset + v0) tiffOffset le) in *.
  set (base := if truthyString (Ifd0.dateTaken ifd0) then _ else _) in *.
  assert (Hbase : gpsFieldsAbsent base).
  { subst base; destruct (truthyString _); repeat split. }
  destruct (truthyNumber (Ifd0.gpsIfdOffset ifd0)); [|bind_inv H; left; exact Hbase].
  destruct (Ifd0.gpsIfdOffset ifd0) as [gps|]; [|bind_inv H; left; exact Hbase].
  bind_inv H; right; exists (tiffOffset + gps), tiffOffset, le.
  destruct Hbase as (Hl1 & Hl2 & Hl3).
  unfold sameGpsFields, spread; simpl.
  rewrite Hl1, Hl2, Hl3, !orElse_None; repeat split.
Qed.

Lemma parseExifData_gpsFields view tiffOffset maxLength :
  gpsFieldsFrom view (parseExifData view tiffOffset maxLength).
Proof.
  unfold parseExifData.
  destruct (getUint16 view tiffOffset false) as [bo|]; simpl;
    [|apply gpsFieldsFrom_allAbsent].
  destruct (tiffWalk view tiffOffset (bo =? 0x4949)) as [r|] eqn:H; simpl;
    [|apply gpsFieldsFrom_allAbsent].
  eapply tiffWalk_gpsFields; eassumption.
Qed.

Lemma findExifSegment_gpsFields fuel : forall view offset r,
  findExifSegment fuel view offset = Returned r -> gpsFieldsFrom view r.
Proof.
  induction fuel as [|fuel IH]; intros view offset r; simpl; [discriminate|].
  destruct (negb (offset <? byteLength view - 4)); [discriminate|].
  destruct (getUint16 view offset false) as [marker|]; [|discriminate].
  destruct (marker =? EXIF_MARKER).
  - destruct (getUint16 view (offset + 2) false) as [len|]; [|discriminate].
    destruct (readHeader view (offset + 2 + 2)) as [h|]; [|discriminate].
    destruct (String.eqb h EXIF_HEADER); [|apply IH].
    intros [= <-]; rewrite spread_allAbsent; apply parseExifData_gpsFields.
  - destruct (Z.land marker 0xff00 =? 0xff00); [|discriminate].
    destruct (getUint16 view (offset + 2) false) as [len|]; [|discriminate].
    apply IH.
Qed.

(** A fulfilled result is all-absent or was returned by the segment scan. *)
Lemma extractExifData_cases file r :
  extractExifData file = Fulfilled r ->
  r = allAbsent
  \/ exists buffer, arrayBuffer file = Normal buffer
                    /\ findExifSegment (S (List.length buffer)) buffer 2 = Returned r.
Proof.
  unfold extractExifData, extractExifData_run.
  destruct (negb (startsWith (type file) "image/jpeg") && _)%bool; cbn [fst];
    [intros [= <-]; left; reflexivity|].
  destruct (arrayBuffer file) as [buffer|]; cbn [fst]; [|intros [= <-]; left; reflexivity].
  destruct (getUint16 buffer 0 false) as [magic|]; cbn [fst];
    [|intros [= <-]; left; reflexivity].
  destruct (negb (magic =? 0xffd8)); cbn [fst]; [intros [= <-]; left; reflexivity|].
  destruct (findExifSegment (S (List.length buffer)) buffer 2) as [r'| | |] eqn:Hscan;
    cbn [fst]; intros [= <-].
  - right; exists buffer; split; [reflexivity|exact Hscan].
  - left; reflexivity.
  - left; reflexivity.
Qed.

(** [file.arrayBuffer()] is the buffer the fields were read from. *)
Lemma extractExifData_gpsFields file r :
  extractExifData file = Fulfilled r ->
  gpsFieldsAbsent r
  \/ exists view, arrayBuffer file = Normal view /\ gpsFieldsFrom view r.
Proof.
  intros H; apply extractExifData_cases in H as [->|(buffer & Hb & Hscan)].
  - left; repeat split.
  - right; exists buffer; split; [exact Hb|].
    eapply findExifSegment_gpsFields; eassumption.
Qed.

(** ** The scan terminates *)

Lemma findExifSegment_fuel fuel : forall view offset,
  Z.max 1 (byteLength view - offset) <= Z.of_nat fuel ->
  findExifSegment fuel view offset <> OutOfFuel.
Proof.
  induction fuel as [|fuel IH]; intros view offset Hfuel; simpl; [lia|].
  destruct (offset <? byteLength view - 4) eqn:Hlt; simpl; [|discriminate].
  apply Z.ltb_lt in Hlt.
  destruct (getUint16 view offset false) as [marker|]; [|discriminate].
  destruct (marker =? EXIF_MARKER).
  - destruct (getUint16 view (offset + 2) false) as [len|]; [|discriminate].
    destruct (readHeader view (offset + 2 + 2)) as [h|]; [|discriminate].
    destruct (String.eqb h EXIF_HEADER); [discriminate|].
    apply IH; lia.
  - destruct (Z.land marker 0xff00 =? 0xff00); [|discriminate].
    destruct (getUint16 view (offset + 2) false) as [len|] eqn:Hlen; [|discriminate].
    apply getUint16_range in Hlen.
    apply IH; lia.
Qed.

(** ** The scan of the GPS IFD *)

Lemma scanInv_init view ifdOffset le : scanInv view ifdOffset le gpsScan0.
Proof.
  unfold scanInv, gpsScan0, bearingQuotient; simpl.
  repeat split; try discriminate; intros H; exfalso; apply H; reflexivity.
Qed.

Lemma parseGpsIfd_entry_inv view ifdOffset tiffOffset le entryCount i st st' :
  getUint16 view ifdOffset le = Normal entryCount ->
  0 <= i < entryCount ->
  scanInv view ifdOffset le st ->
  parseGpsIfd_entry view ifdOffset tiffOffset le i st = Normal st' ->
  scanInv view ifdOffset le st'.
Proof.
  intros Hcount Hi (Hlat & Hlng & Hb & HlatRef & HlatV & HlngRef & HlngV) H.
  unfold parseGpsIfd_entry in H; cbv zeta in H.
  destruct (getUint16 view (ifdOffset + 2 + i * 12) le) as [tag|] eqn:Etag;
    [|discriminate H].
  destruct (getUint16 view (ifdOffset + 2 + i * 12 + 2) le) as [type|] eqn:Etype;
    [|discriminate H].
  destruct (getUint32 view (ifdOffset + 2 + i * 12 + 4) le) as [count|] eqn:Ecount;
    [|discriminate H].
  cbn [bind] in H.
  destruct (tag =? GPS_LATITUDE_REF) eqn:T1.
  { apply Z.eqb_eq in T1; subst tag.
    destruct (getUint8 view (ifdOffset + 2 + i * 12 + 8)); [|discriminate H].
    apply Normal_inj in H; subst st'; unfold scanInv; cbn.
    repeat split; auto.
    intros _; exists entryCount, i; auto. }
  destruct (tag =? GPS_LONGITUDE_REF) eqn:T2.
  { apply Z.eqb_eq in T2; subst tag.
    destruct (getUint8 view (ifdOffset + 2 + i * 12 + 8)); [|discriminate H].
    apply Normal_inj in H; subst st'; unfold scanInv; cbn.
    repeat split; auto.
    intros _; exists entryCount, i; auto. }
  destruct ((tag =? GPS_LATITUDE) && (type =? 5) && (count =? 3))%bool eqn:T3.
  { apply andb_prop in T3 as [T3 Tc]; apply andb_prop in T3 as [Tt Ty].
    apply Z.eqb_eq in Tt, Ty, Tc; subst tag type count.
    destruct (getUint32 view (ifdOffset + 2 + i * 12 + 8) le) as [valueOffset|];
      [|discriminate H].
    cbn [bind] in H.
    destruct (readGpsRationals view (tiffOffset + valueOffset) le) as [values|];
      [|discriminate H].
    apply Normal_inj in H; subst st'; unfold scanInv; cbn.
    repeat split; auto.
    intros _; exists entryCount, i; auto. }
  destruct ((tag =? GPS_LONGITUDE) && (type =? 5) && (count =? 3))%bool eqn:T4.
  { apply andb_prop in T4 as [T4 Tc]; apply andb_prop in T4 as [Tt Ty].
    apply Z.eqb_eq in Tt, Ty, Tc; subst tag type count.
    destruct (getUint32 view (ifdOffset + 2 + i * 12 + 8) le) as [valueOffset|];
      [|discriminate H].
    cbn [bind] in H.
    destruct (readGpsRationals view (tiffOffset + valueOffset) le) as [values|];
      [|discriminate H].
    apply Normal_inj in H; subst st'; unfold scanInv; cbn.
    repeat split; auto.
    intros _; exists entryCount, i; auto. }
  destruct ((tag =? GPS_IMG_DIRECTION) && (type =? 5))%bool.
  { destruct (getUint32 view (ifdOffset + 2 + i * 12 + 8) le) as [valueOffset|];
      [|discriminate H].
    cbn [bind] in H.
    destruct (getUint32 view (tiffOffset + valueOffset) le) as [num|] eqn:En;
      [|discriminate H].
    destruct (getUint32 view (tiffOffset + valueOffset + 4) le) as [den|] eqn:Ed;
      [|discriminate H].
    cbn [bind] in H.
    apply getUint32_range in En, Ed.
    destruct (den =? 0) eqn:Ez; cbn [negb] in H;
      apply Normal_inj in H; subst st'.
    - repeat split; auto.
    - apply Z.eqb_neq in Ez.
      unfold scanInv; cbn.
      repeat split; auto.
      intros x [= <-]; exists num, den; repeat split; lia. }
  apply Normal_inj in H; subst st'.
  repeat split; auto.
Qed.

Lemma gpsCoordinates_bearing st : bearing (gpsCoordinates st) = bearing (result st).
Proof.
  unfold gpsCoordinates.
  destruct (latValues st), (truthyString (latRef st)), (latRef st),
    (lngValues st), (truthyString (lngRef st)), (lngRef st); reflexivity.
Qed.

Lemma gpsCoordinates_latitude st :
  latitude (result st) = None -> latitude (gpsCoordinates st) <> None ->
  latRef st <> None /\ latValues st <> None.
Proof.
  unfold gpsCoordinates; intros Hr.
  destruct (latValues st), (truthyString (latRef st)), (latRef st),
    (lngValues st), (truthyString (lngRef st)), (lngRef st);
    cbn; rewrite ?Hr; intros H; try (exfalso; apply H; reflexivity);
    split; discriminate.
Qed.

Lemma gpsCoordinates_longitude st :
  longitude (result st) = None -> longitude (gpsCoordinates st) <> None ->
  lngRef st <> None /\ lngValues st <> None.
Proof.
  unfold gpsCoordinates; intros Hr.
  destruct (latValues st), (truthyString (latRef st)), (latRef st),
    (lngValues st), (truthyString (lngRef st)), (lngRef st);
    cbn; rewrite ?Hr; intros H; try (exfalso; apply H; reflexivity);
    split; discriminate.
Qed.

(** What [parseGpsIfd] returns: a bearing that is such a quotient, and a
    coordinate only for an axis whose two entries the IFD holds. *)
Lemma parseGpsIfd_result view ifdOffset tiffOffset le :
  let r := parseGpsIfd view ifdOffset tiffOffset le in
  bearingQuotient r
  /\ (latitude r <> None ->
      hasEntry view ifdOffset le GPS_LATITUDE_REF
      /\ hasDmsEntry view ifdOffset le GPS_LATITUDE)
  /\ (longitude r <> None ->
      hasEntry view ifdOffset le GPS_LONGITUDE_REF
      /\ hasDmsEntry view ifdOffset le GPS_LONGITUDE).
Proof.
  unfold parseGpsIfd.
  destruct (getUint16 view ifdOffset le) as [entryCount|] eqn:Hcount; cbv zeta.
  2:{ split; [intros x; discriminate|split; intros Hp; exfalso; apply Hp; reflexivity]. }
  pose proof (getUint16_range _ _ _ _ Hcount) as Hrange.
  pose proof (for_loop_invariant (scanInv view ifdOffset le)
                (parseGpsIfd_entry view ifdOffset tiffOffset le)
                (Z.to_nat entryCount) 0 gpsScan0) as Hinv.
  destruct (for_loop _ (Z.to_nat entryCount) 0 gpsScan0) as [st completed].
  cbn [fst] in Hinv.
  destruct Hinv as (Hlat & Hlng & Hb & HlatRef & HlatV & HlngRef & HlngV).
  { intros j t t' Hj; apply parseGpsIfd_entry_inv with (entryCount := entryCount);
      [exact Hcount|lia]. }
  { apply scanInv_init. }
  destruct completed.
  - split; [|split].
    + intros x; rewrite gpsCoordinates_bearing; apply Hb.
    + intros Hp; apply gpsCoordinates_latitude in Hp; [|exact Hlat]; destruct Hp; auto.
    + intros Hp; apply gpsCoordinates_longitude in Hp; [|exact Hlng]; destruct Hp; auto.
  - split; [exact Hb|split]; intros Hp; exfalso; apply Hp; assumption.
Qed.

(** ** The walk reads nothing before the TIFF header *)

Lemma parseIfd0_gpsPointer view ifdOffset tiffOffset le :
  gpsPointerNonneg (parseIfd0 view ifdOffset tiffOffset le).
Proof.
  unfold parseIfd0.
  destruct (getUint16 view ifdOffset le) as [entryCount|]; [|intros g; discriminate].
  cbv zeta.
  pose proof (for_loop_invariant gpsPointerNonneg
                (parseIfd0_tags view ifdOffset tiffOffset le)
                (Z.to_nat entryCount) 0 (Ifd0.mk None None)) as H1.
  destruct (for_loop _ (Z.to_nat entryCount) 0 (Ifd0.mk None None)) as [st1 completed].
  cbn [fst] in H1.
  assert (Hst1 : gpsPointerNonneg st1).
  { apply H1; [|intros g; discriminate].
    intros j t t' _ Ht; unfold parseIfd0_tags; cbv zeta; intros Hb.
    destruct (getUint16 view (ifdOffset + 2 + j * 12) le) as [tag|]; cbn [bind] in Hb;
      [|discriminate Hb].
    destruct (tag =? GPS_IFD_POINTER).
    - destruct (getUint32 view (ifdOffset + 2 + j * 12 + 8) le) as [gps|] eqn:E;
        cbn [bind] in Hb; [|discriminate Hb].
      apply Normal_inj in Hb; subst t'; intros g [= <-].
      apply getUint32_range in E; lia.
    - destruct (isDateTag tag).
      + destruct (getUint32 view (ifdOffset + 2 + j * 12 + 8) le); cbn [bind] in Hb;
          [|discriminate Hb].
        apply Normal_inj in Hb; subst t'; exact Ht.
      + apply Normal_inj in Hb; subst t'; exact Ht. }
  destruct completed; [|exact Hst1].
  apply for_loop_invariant; [|exact Hst1].
  intros j t t' _ Ht; unfold parseIfd0_subIfd; cbv zeta; intros Hb.
  destruct (getUint16 view (ifdOffset + 2 + j * 12) le) as [tag|]; cbn [bind] in Hb;
    [|discriminate Hb].
  destruct (tag =? 0x8769); [|apply Normal_inj in Hb; subst t'; exact Ht].
  destruct (getUint32 view (ifdOffset + 2 + j * 12 + 8) le); cbn [bind] in Hb;
    [|discriminate Hb].
  destruct (_ && _)%bool; apply Normal_inj in Hb; subst t'; exact Ht.
Qed.

Section Frame.

Variables (from : Z) (view1 view2 : DataView).
Hypothesis Hagree : agreeFrom from view1 view2.

Lemma inBounds_agree offset size : inBounds view1 offset size = inBounds view2 offset size.
Proof. unfold inBounds, byteLength; destruct Hagree as [-> _]; reflexivity. Qed.

Lemma getUint8_agree offset :
from <= offset -> getUint8 view1 offset = getUint8 view2 offset.
Proof.
intros Ho; unfold getUint8; rewrite inBounds_agree.
destruct Hagree as [_ Hb]; rewrite Hb by lia; reflexivity.
Qed.

Lemma getUint16_agree offset le :
from <= offset -> getUint16 view1 offset le = getUint16 view2 offset le.
Proof.
intros Ho; unfold getUint16; rewrite inBounds_agree.
destruct Hagree as [_ Hb]; rewrite !Hb by lia; reflexivity.
Qed.

Lemma getUint32_agree offset le :
from <= offset -> getUint32 view1 offset le = getUint32 view2 offset le.
Proof.
intros Ho; unfold getUint32; rewrite inBounds_agree.
destruct Hagree as [_ Hb]; rewrite !Hb by lia; reflexivity.
Qed.

Lemma readDateChars_agree offset n : forall i dateStr,
from <= offset -> 0 <= i ->
readDateChars view1 offset n i dateStr = readDateChars view2 offset n i dateStr.
Proof.
induction n as [|n IH]; intros i dateStr Ho Hi; simpl; [reflexivity|].
rewrite getUint8_agree by lia.
destruct (getUint8 view2 (offset + i)) as [char|]; cbn [bind]; [|reflexivity].
destruct (char =? 0); [reflexivity|].
apply IH; lia.
Qed.

Lemma readExifDate_agree offset :
from <= offset -> readExifDate view1 offset = readExifDate view2 offset.
Proof.
intros Ho; unfold readExifDate; rewrite readDateChars_agree by lia; reflexivity.
Qed.

Lemma parseDateFromExifIfd_loop_agree ifdOffset le n : forall i,
from <= ifdOffset -> 0 <= i ->
parseDateFromExifIfd_loop view1 ifdOffset from le n i
= parseDateFromExifIfd_loop view2 ifdOffset from le n i.
Proof.
induction n as [|n IH]; intros i Ho Hi; simpl; [reflexivity|].
rewrite getUint16_agree by lia.
destruct (getUint16 view2 (ifdOffset + 2 + i * 12) le) as [tag|]; cbn [bind];
  [|reflexivity].
destruct (isDateTag tag); [|apply IH; lia].
rewrite getUint32_agree by lia.
destruct (getUint32 view2 (ifdOffset + 2 + i * 12 + 8) le) as [valueOffset|] eqn:E;
  cbn [bind]; [|reflexivity].
apply getUint32_range in E.
rewrite readExifDate_agree by lia; reflexivity.
Qed.

Lemma parseDateFromExifIfd_agree ifdOffset le :
from <= ifdOffset ->
parseDateFromExifIfd view1 ifdOffset from le = parseDateFromExifIfd view2 ifdOffset from le.
Proof.
intros Ho; unfold parseDateFromExifIfd.
rewrite getUint16_agree by lia.
destruct (getUint16 view2 ifdOffset le) as [entryCount|]; cbn [bind]; [|reflexivity].
rewrite parseDateFromExifIfd_loop_agree by lia; reflexivity.
Qed.

Lemma parseIfd0_tags_agree ifdOffset le i st :
from <= ifdOffset -> 0 <= i ->
parseIfd0_tags view1 ifdOffset from le i st = parseIfd0_tags view2 ifdOffset from le i st.
Proof.
intros Ho Hi; unfold parseIfd0_tags; cbv zeta.
rewrite getUint16_agree by lia.
destruct (getUint16 view2 (ifdOffset + 2 + i * 12) le) as [tag|]; cbn [bind];
  [|reflexivity].
rewrite getUint32_agree by lia.
destruct (tag =? GPS_IFD_POINTER); [reflexivity|].
destruct (isDateTag tag); [|reflexivity].
destruct (getUint32 view2 (ifdOffset + 2 + i * 12 + 8) le) as [valueOffset|] eqn:E;
  cbn [bind]; [|reflexivity].
apply getUint32_range in E.
rewrite readExifDate_agree by lia; reflexivity.
Qed.

Lemma parseIfd0_subIfd_agree ifdOffset le i st :
from <= ifdOffset -> 0 <= i ->
parseIfd0_subIfd view1 ifdOffset from le i st
= parseIfd0_subIfd view2 ifdOffset from le i st.
Proof.
intros Ho Hi; unfold parseIfd0_subIfd; cbv zeta.
rewrite getUint16_agree by lia.
destruct (getUint16 view2 (ifdOffset + 2 + i * 12) le) as [tag|]; cbn [bind];
  [|reflexivity].
destruct (tag =? 0x8769); [|reflexivity].
rewrite getUint32_agree by lia.
destruct (getUint32 view2 (ifdOffset + 2 + i * 12 + 8) le) as [exifIfdOffset|] eqn:E;
  cbn [bind]; [|reflexivity].
apply getUint32_range in E.
rewrite parseDateFromExifIfd_agree by lia; reflexivity.
Qed.

Lemma for_loop_ext {S : Type} (body1 body2 : Z -> S -> completion S) n : forall i s,
(forall j t, i <= j -> body1 j t = body2 j t) ->
for_loop body1 n i s = for_loop body2 n i s.
Proof.
induction n as [|n IH]; intros i s Hext; simpl; [reflexivity|].
rewrite Hext by lia.
destruct (body2 i s); [|reflexivity].
apply IH; intros j t Hj; apply Hext; lia.
Qed.

Lemma parseIfd0_agree ifdOffset le :
from <= ifdOffset ->
parseIfd0 view1 ifdOffset from le = parseIfd0 view2 ifdOffset from le.
Proof.
intros Ho; unfold parseIfd0.
rewrite getUint16_agree by lia.
destruct (getUint16 view2 ifdOffset le) as [entryCount|]; [|reflexivity].
cbv zeta.
rewrite (for_loop_ext (parseIfd0_tags view1 ifdOffset from le)
           (parseIfd0_tags view2 ifdOffset from le))
  by (intros; apply parseIfd0_tags_agree; lia).
destruct (for_loop _ (Z.to_nat entryCount) 0 _) as [st1 completed].
destruct completed; [|reflexivity].
rewrite (for_loop_ext (parseIfd0_subIfd view1 ifdOffset from le)
           (parseIfd0_subIfd view2 ifdOffset from le))
  by (intros; apply parseIfd0_subIfd_agree; lia).
reflexivity.
Qed.

Lemma readGpsRationals_loop_agree offset le n : forall i values,
from <= offset -> 0 <= i ->
readGpsRationals_loop view1 offset le n i values
= readGpsRationals_loop view2 offset le n i values.
Proof.
induction n as [|n IH]; intros i values Ho Hi; simpl; [reflexivity|].
rewrite !getUint32_agree by lia.
destruct (getUint32 view2 (offset + i * 8) le); cbn [bind]; [|reflexivity].
destruct (getUint32 view2 (offset + i * 8 + 4) le); cbn [bind]; [|reflexivity].
apply IH; lia.
Qed.

Lemma parseGpsIfd_entry_agree ifdOffset le i st :
from <= ifdOffset -> 0 <= i ->
parseGpsIfd_entry view1 ifdOffset from le i st
= parseGpsIfd_entry view2 ifdOffset from le i st.
Proof.
intros Ho Hi; unfold parseGpsIfd_entry; cbv zeta.
rewrite !getUint16_agree by lia.
destruct (getUint16 view2 (ifdOffset + 2 + i * 12) le) as [tag|]; cbn [bind];
  [|reflexivity].
destruct (getUint16 view2 (ifdOffset + 2 + i * 12 + 2) le) as [type|]; cbn [bind];
  [|reflexivity].
rewrite !(getUint32_agree (ifdOffset + 2 + i * 12 + 4)) by lia.
destruct (getUint32 view2 (ifdOffset + 2 + i * 12 + 4) le) as [count|]; cbn [bind];
  [|reflexivity].
rewrite !(getUint8_agree (ifdOffset + 2 + i * 12 + 8)) by lia.
rewrite !(getUint32_agree (ifdOffset + 2 + i * 12 + 8)) by lia.
destruct (tag =? GPS_LATITUDE_REF); [reflexivity|].
destruct (tag =? GPS_LONGITUDE_REF); [reflexivity|].
destruct (getUint32 view2 (ifdOffset + 2 + i * 12 + 8) le) as [valueOffset|] eqn:E;
  cbn [bind].
2:{ repeat (destruct (_ && _)%bool; [reflexivity|]); reflexivity. }
apply getUint32_range in E.
unfold readGpsRationals.
rewrite (readGpsRationals_loop_agree (from + valueOffset)) by lia.
rewrite !(getUint32_agree (from + valueOffset)) by lia.
rewrite !(getUint32_agree (from + valueOffset + 4)) by lia.
reflexivity.
Qed.

Lemma parseGpsIfd_agree ifdOffset le :
from <= ifdOffset ->
parseGpsIfd view1 ifdOffset from le = parseGpsIfd view2 ifdOffset from le.
Proof.
intros Ho; unfold parseGpsIfd.
rewrite getUint16_agree by lia.
destruct (getUint16 view2 ifdOffset le) as [entryCount|]; [|reflexivity].
rewrite (for_loop_ext (parseGpsIfd_entry view1 ifdOffset from le)
           (parseGpsIfd_entry view2 ifdOffset from le))
  by (intros; apply parseGpsIfd_entry_agree; lia).
reflexivity.
Qed.

Lemma tiffWalk_agree le : tiffWalk view1 from le = tiffWalk view2 from le.
Proof.
unfold tiffWalk.
rewrite getUint16_agree by lia.
destruct (getUint16 view2 (from + 2) le) as [magic|]; cbn [bind]; [|reflexivity].
destruct (negb (magic =? 42)); [reflexivity|].
rewrite getUint32_agree by lia.
destruct (getUint32 view2 (from + 4) le) as [ifd0Offset|] eqn:E; cbn [bind];
  [|reflexivity].
apply getUint32_range in E.
cbv zeta.
rewrite parseIfd0_agree by lia.
destruct (truthyNumber _); [|reflexivity].
destruct (Ifd0.gpsIfdOffset _) as [gps|] eqn:Eg; [|reflexivity].
apply parseIfd0_gpsPointer in Eg.
rewrite parseGpsIfd_agree by lia; reflexivity.
Qed.

Lemma parseExifData_agree maxLength1 maxLength2 :
parseExifData view1 from maxLength1 = parseExifData view2 from maxLength2.
Proof.
unfold parseExifData.
rewrite getUint16_agree by lia.
destruct (getUint16 view2 from false) as [byteOrder|]; cbn [bind]; [|reflexivity].
rewrite tiffWalk_agree; reflexivity.
Qed.

End Frame.

(** ** Files made of one EXIF segment *)

Lemma getUint8_at view offset x :
  0 <= offset -> nth_error view (Z.to_nat offset) = Some x ->
  getUint8 view offset = Normal (Z.of_N (Byte.to_N x)).
Proof.
  intros Ho Hx; unfold getUint8, inBounds, byteAt, byteLength; rewrite Hx.
  assert (Hlen : (Z.to_nat offset < List.length view)%nat)
    by (apply nth_error_Some; congruence).
  replace ((0 <=? offset) && (offset + 1 <=? Z.of_nat (List.length view)))%bool with true;
    [reflexivity|].
  symmetry; apply andb_true_intro; split; [apply Z.leb_le|apply Z.leb_le]; lia.
Qed.

Lemma getUint16_at view offset x0 x1 :
  0 <= offset ->
  nth_error view (Z.to_nat offset) = Some x0 ->
  nth_error view (Z.to_nat (offset + 1)) = Some x1 ->
  getUint16 view offset false
  = Normal (256 * Z.of_N (Byte.to_N x0) + Z.of_N (Byte.to_N x1)).
Proof.
  intros Ho H0 H1; unfold getUint16, inBounds, byteAt, byteLength; rewrite H0, H1.
  assert (Hlen : (Z.to_nat (offset + 1) < List.length view)%nat)
    by (apply nth_error_Some; congruence).
  replace ((0 <=? offset) && (offset + 2 <=? Z.of_nat (List.length view)))%bool with true;
    [reflexivity|].
  symmetry; apply andb_true_intro; split; [apply Z.leb_le|apply Z.leb_le]; lia.
Qed.

(** A file built by [jpegOf] is answered by the walk of its TIFF block,
    which starts at offset 12, whatever length its segment declares. *)
Lemma extractExifData_jpegOf declaredLength tiff :
  exists maxLength,
    extractExifData (Vectors.jpegFile (Vectors.jpegOf declaredLength tiff))
    = Fulfilled (parseExifData (Vectors.jpegOf declaredLength tiff) 12 maxLength).
Proof.
  unfold extractExifData, extractExifData_run, Vectors.jpegFile.
  cbn [type name arrayBuffer].
  change (negb (startsWith "image/jpeg" "image/jpeg")
          && negb (endsWith (toLowerCase "photo.jpg") ".jpg"))%bool with false.
  cbv iota.
  set (view := Vectors.jpegOf declaredLength tiff).
  assert (Hlen : byteLength view = 18 + Z.of_nat (List.length tiff)).
  { unfold byteLength, view, Vectors.jpegOf, Vectors.u16, Vectors.text.
    cbn [List.app List.map list_ascii_of_string List.length].
    rewrite length_app; cbn [List.length]; lia. }
  assert (H0 : getUint16 view 0 false = Normal 0xffd8)
    by (apply (getUint16_at view 0 xff xd8); [lia|reflexivity|reflexivity]).
  assert (H2 : getUint16 view 2 false = Normal EXIF_MARKER)
    by (apply (getUint16_at view 2 xff xe1); [lia|reflexivity|reflexivity]).
  assert (H4 : exists len, getUint16 view 4 false = Normal len).
  { eexists; apply (getUint16_at view 4); [lia|reflexivity|reflexivity]. }
  destruct H4 as [len H4].
  assert (Hh : readHeader view 6 = Normal EXIF_HEADER).
  { unfold readHeader.
    rewrite (getUint8_at view 6 "E"%byte) by (try lia; reflexivity).
    rewrite (getUint8_at view (6 + 1) "x"%byte) by (try lia; reflexivity).
    rewrite (getUint8_at view (6 + 2) "i"%byte) by (try lia; reflexivity).
    rewrite (getUint8_at view (6 + 3) "f"%byte) by (try lia; reflexivity).
    rewrite (getUint8_at view (6 + 4) x00) by (try lia; reflexivity).
    rewrite (getUint8_at view (6 + 5) x00) by (try lia; reflexivity).
    reflexivity. }
  rewrite H0; cbn [Z.eqb Pos.eqb negb].
  cbn [findExifSegment].
  replace (2 <? byteLength view - 4) with true by (symmetry; apply Z.ltb_lt; lia).
  cbn [negb].
  rewrite H2, Z.eqb_refl.
  change (2 + 2) with 4; rewrite H4.
  change (4 + 2) with 6; rewrite Hh.
  rewrite String.eqb_refl; cbn [fst].
  rewrite spread_allAbsent.
  exists (len - 8); reflexivity.
Qed.

Lemma jpegOf_agree length1 length2 tiff :
  agreeFrom 12 (Vectors.jpegOf length1 tiff) (Vectors.jpegOf length2 tiff).
Proof.
  split.
  - unfold Vectors.jpegOf, Vectors.u16; rewrite !length_app; reflexivity.
  - intros offset Ho; unfold byteAt.
    replace (Z.to_nat offset) with (6 + (Z.to_nat offset - 6))%nat by lia.
    unfold Vectors.jpegOf, Vectors.u16.
    cbn [List.app nth_error Nat.add]; reflexivity.
Qed.

(** * The stated properties *)

(** ** C1: latitude and longitude *)

(** C1, counterexample: a GPS IFD with a latitude reference and a
    3-rational latitude and no longitude tag gives a present latitude and
    an absent longitude. *)
Lemma latitude_without_longitude :
  extractExifData (Vectors.jpegFile Vectors.latitudeOnlyJpeg)
  = Fulfilled (mkExifData (Some (43 + 39 / 60 + (499 / 100) / 3600)%float) None None None).
Proof. vm_compute; reflexivity. Qed.

(** The GPS fields [parseExifData] returns are those of the call to
    [parseGpsIfd], and absent when the call is not made. *)
Lemma parseExifData_gpsIfdCall view tiffOffset maxLength :
  match gpsIfdCall view tiffOffset with
  | Some (ifdOffset, littleEndian) =>
      sameGpsFields (parseExifData view tiffOffset maxLength)
        (parseGpsIfd view ifdOffset tiffOffset littleEndian)
  | None => gpsFieldsAbsent (parseExifData view tiffOffset maxLength)
  end.
Proof.
  unfold gpsIfdCall, parseExifData, tiffWalk.
  destruct (getUint16 view tiffOffset false) as [byteOrder|]; cbn [bind try_catch];
    [|repeat split].
  destruct (getUint16 view (tiffOffset + 2) (byteOrder =? 0x4949)) as [magic|];
    cbn [bind try_catch]; [|repeat split].
  destruct (negb (magic =? 0x002a)); cbn [bind try_catch]; [repeat split|].
  destruct (getUint32 view (tiffOffset + 4) (byteOrder =? 0x4949)) as [ifd0Offset|];
    cbn [bind try_catch]; [|repeat split].
  set (ifd0 := parseIfd0 view (tiffOffset + ifd0Offset) tiffOffset (byteOrder =? 0x4949)).
  set (base := if truthyString (Ifd0.dateTaken ifd0) then _ else _).
  assert (Hbase : gpsFieldsAbsent base).
  { subst base; destruct (truthyString _); repeat split. }
  destruct (truthyNumber (Ifd0.gpsIfdOffset ifd0)); cbn [try_catch]; [|exact Hbase].
  destruct (Ifd0.gpsIfdOffset ifd0) as [gps|]; cbn [try_catch]; [|exact Hbase].
  destruct Hbase as (Hl1 & Hl2 & Hl3).
  unfold sameGpsFields, spread; simpl.
  rewrite Hl1, Hl2, Hl3, !orElse_None; repeat split.
Qed.

(** The segment scan returns what [parseExifData] gives at the offset of
    the call, and returns nothing when the call is not made. *)
Lemma findExifSegment_call fuel : forall view offset,
  match exifSegmentCall fuel view offset with
  | Some tiffOffset =>
      exists maxLength,
        findExifSegment fuel view offset
        = Returned (spread allAbsent (parseExifData view tiffOffset maxLength))
  | None => forall r, findExifSegment fuel view offset <> Returned r
  end.
Proof.
  induction fuel as [|fuel IH]; intros view offset; simpl; [discriminate|].
  destruct (negb (offset <? byteLength view - 4)); [discriminate|].
  destruct (getUint16 view offset false) as [marker|]; [|discriminate].
  destruct (marker =? EXIF_MARKER).
  - destruct (getUint16 view (offset + 2) false) as [len|]; [|discriminate].
    destruct (readHeader view (offset + 2 + 2)) as [h|]; [|discriminate].
    destruct (String.eqb h EXIF_HEADER); [|apply IH].
    exists (len - 8); reflexivity.
  - destruct (Z.land marker 0xff00 =? 0xff00); [|discriminate].
    destruct (getUint16 view (offset + 2) false) as [len|]; [|discriminate].
    apply IH.
Qed.

(** The GPS fields of the result are those [parseGpsIfd] computes from
    the IFD that is scanned, and absent when none is. *)
Lemma extractExifData_scanned file r :
  extractExifData file = Fulfilled r ->
  match scannedGpsIfd file with
  | Some (view, tiffOffset, ifdOffset, littleEndian) =>
      arrayBuffer file = Normal view
      /\ sameGpsFields r (parseGpsIfd view ifdOffset tiffOffset littleEndian)
  | None => gpsFieldsAbsent r
  end.
Proof.
  unfold extractExifData, extractExifData_run, scannedGpsIfd.
  destruct (negb (startsWith (type file) "image/jpeg") && _)%bool; cbn [fst];
    [intros [= <-]; repeat split|].
  destruct (arrayBuffer file) as [buffer|]; cbn [fst]; [|intros [= <-]; repeat split].
  destruct (getUint16 buffer 0 false) as [magic|]; cbn [fst];
    [|intros [= <-]; repeat split].
  destruct (negb (magic =? 0xffd8)); cbn [fst]; [intros [= <-]; repeat split|].
  pose proof (findExifSegment_call (S (List.length buffer)) buffer 2) as Hcall.
  destruct (exifSegmentCall (S (List.length buffer)) buffer 2) as [tiffOffset|].
  - destruct Hcall as [maxLength ->]; cbn [fst]; intros [= <-].
    rewrite spread_allAbsent.
    pose proof (parseExifData_gpsIfdCall buffer tiffOffset maxLength) as Hgps.
    destruct (gpsIfdCall buffer tiffOffset) as [[ifdOffset le]|];
      [split; [reflexivity|exact Hgps]|exact Hgps].
  - destruct (findExifSegment (S (List.length buffer)) buffer 2) as [r'| | |];
      cbn [fst]; intros [= <-]; try (repeat split; fail).
    exfalso; apply (Hcall r'); reflexivity.
Qed.

Lemma hasDmsEntry_tag view ifdOffset le tag :
  hasDmsEntry view ifdOffset le tag -> lacksTag view ifdOffset le tag -> False.
Proof.
  intros (entryCount & i & Hcount & Hi & Htag & _) Hlacks.
  exact (Hlacks entryCount i Hcount Hi Htag).
Qed.

(** C1, as amended: each coordinate is decided on its own axis, from the
    one GPS IFD that is scanned.  The GPS fields of the result are those
    [parseGpsIfd] computes from that IFD; a present latitude implies that
    the IFD holds a latitude-reference entry (tag 1) and a latitude entry
    (tag 2) of type 5 and count 3, and a present longitude the same of
    tags 3 and 4; so an IFD without a longitude tag gives an absent
    longitude, whatever the latitude is, and likewise for the latitude.
    When no GPS IFD is scanned both are absent. *)
Theorem coordinates_decided_per_axis (file : File) (r : ExifData) :
  extractExifData file = Fulfilled r ->
  match scannedGpsIfd file with
  | Some (view, tiffOffset, ifdOffset, littleEndian) =>
      arrayBuffer file = Normal view
      /\ sameGpsFields r (parseGpsIfd view ifdOffset tiffOffset littleEndian)
      /\ (latitude r <> None ->
          hasEntry view ifdOffset littleEndian GPS_LATITUDE_REF
          /\ hasDmsEntry view ifdOffset littleEndian GPS_LATITUDE)
      /\ (longitude r <> None ->
          hasEntry view ifdOffset littleEndian GPS_LONGITUDE_REF
          /\ hasDmsEntry view ifdOffset littleEndian GPS_LONGITUDE)
      /\ (lacksTag view ifdOffset littleEndian GPS_LATITUDE -> latitude r = None)
      /\ (lacksTag view ifdOffset littleEndian GPS_LONGITUDE -> longitude r = None)
  | None => latitude r = None /\ longitude r = None
  end.
Proof.
  intros H; apply extractExifData_scanned in H.
  destruct (scannedGpsIfd file) as [[[[view tiffOffset] ifdOffset] le]|];
    [|destruct H as (Hlat & Hlng & _); split; assumption].
  destruct H as (Hview & Hlat & Hlng & Hb).
  destruct (parseGpsIfd_result view ifdOffset tiffOffset le) as (_ & Hlat' & Hlng').
  rewrite <- Hlat in Hlat'; rewrite <- Hlng in Hlng'.
  split; [exact Hview|split; [repeat split; assumption|]].
  split; [exact Hlat'|split; [exact Hlng'|split]].
  - intros Hlacks; destruct (latitude r) as [x|] eqn:Hx; [exfalso|reflexivity].
    destruct Hlat' as [_ Hdms]; [discriminate|].
    exact (hasDmsEntry_tag _ _ _ _ Hdms Hlacks).
  - intros Hlacks; destruct (longitude r) as [x|] eqn:Hx; [exfalso|reflexivity].
    destruct Hlng' as [_ Hdms]; [discriminate|].
    exact (hasDmsEntry_tag _ _ _ _ Hdms Hlacks).
Qed.

(** The file with a latitude and no longitude tag: the IFD scanned is the
    one at offset 38 of the buffer, big-endian, and it lacks tag 4. *)
Lemma coordinates_decided_per_axis_witness :
  scannedGpsIfd (Vectors.jpegFile Vectors.latitudeOnlyJpeg)
  = Some (Vectors.latitudeOnlyJpeg, 12, 38, false)
  /\ lacksTag Vectors.latitudeOnlyJpeg 38 false GPS_LONGITUDE
  /\ longitude (mkExifData (Some (43 + 39 / 60 + (499 / 100) / 3600)%float) None None None)
     = None.
Proof.
  split; [vm_compute; reflexivity|].
  assert (Hlacks : lacksTag Vectors.latitudeOnlyJpeg 38 false GPS_LONGITUDE).
  { intros entryCount i Hcount Hi.
    assert (entryCount = 2) by (vm_compute in Hcount; congruence); subst entryCount.
    assert (Hc : i = 0 \/ i = 1) by lia.
    destruct Hc as [-> | ->]; vm_compute; discriminate. }
  split; [exact Hlacks|].
  pose proof (coordinates_decided_per_axis (Vectors.jpegFile Vectors.latitudeOnlyJpeg)
                (mkExifData (Some (43 + 39 / 60 + (499 / 100) / 3600)%float) None None None))
    as H.
  replace (scannedGpsIfd (Vectors.jpegFile Vectors.latitudeOnlyJpeg))
    with (Some (Vectors.latitudeOnlyJpeg, 12, 38, false)) in H by (vm_compute; reflexivity).
  apply H; [vm_compute; reflexivity|exact Hlacks].
Defined.

(** ** C2: the bearing *)




(** ** C3: extraction always returns *)

(** C3: the promise of [extractExifData] is fulfilled with a record for
    every file, whatever its bytes, declared type and name; a buffer that
    does not start with the marker 0xFFD8 gives the all-absent record. *)
Theorem extractExifData_never_throws (file : File) :
  (exists r, extractExifData file = Fulfilled r)
  /\ (forall buffer,
        arrayBuffer file = Normal buffer ->
        getUint16 buffer 0 false <> Normal 0xffd8 ->
        extractExifData file = Fulfilled allAbsent).
Proof.
  unfold extractExifData, extractExifData_run.
  destruct (negb (startsWith (type file) "image/jpeg") && _)%bool; cbn [fst].
  { split; [eexists; reflexivity|reflexivity]. }
  destruct (arrayBuffer file) as [buffer|]; cbn [fst].
  2:{ split; [eexists; reflexivity|reflexivity]. }
  destruct (getUint16 buffer 0 false) as [magic|] eqn:Hmagic; cbn [fst].
  2:{ split; [eexists; reflexivity|reflexivity]. }
  destruct (magic =? 0xffd8) eqn:Hm; cbn [negb fst].
  2:{ split; [eexists; reflexivity|reflexivity]. }
  apply Z.eqb_eq in Hm; subst magic.
  split.
  - pose proof (findExifSegment_fuel (S (List.length buffer)) buffer 2) as Hfuel.
    destruct (findExifSegment (S (List.length buffer)) buffer 2); cbn [fst];
      try (eexists; reflexivity).
    exfalso; apply Hfuel; [|reflexivity].
    unfold byteLength; lia.
  - intros b [= <-] Hne; exfalso; apply Hne; exact Hmagic.
Qed.

Lemma extractExifData_never_throws_witness :
  extractExifData (mkFile "image/jpeg" "scan.jpg" (Normal (Vectors.text "not a JPEG at all")))
  = Fulfilled allAbsent.
Proof.
  refine (proj2 (extractExifData_never_throws _) (Vectors.text "not a JPEG at all") _ _).
  - reflexivity.
  - vm_compute; discriminate.
Defined.

(** ** C5: which files are parsed *)

(** A file whose type does not start with [image/jpeg] and whose name,
    lower-cased, does not end with [.jpg] is answered with the all-absent
    record, and [file.arrayBuffer()] is not called. *)
Lemma extractExifData_skips (file : File) :
  startsWith (type file) "image/jpeg" = false ->
  endsWith (toLowerCase (name file)) ".jpg" = false ->
  extractExifData_run file = (Fulfilled allAbsent, 0%nat).
Proof.
  intros Ht Hn; unfold extractExifData_run; rewrite Ht, Hn; reflexivity.
Qed.

(** C5, the code at the failing input: a file named [photo.jpeg] with an
    empty declared type is not parsed, whatever its bytes, and its bytes
    are not read; the same JPEG bytes under the name [photo.jpg] are
    parsed. *)
Theorem jpeg_extension_not_parsed :
  (forall content,
      extractExifData_run (mkFile EmptyString "photo.jpeg" content)
      = (Fulfilled allAbsent, 0%nat))
  /\ extractExifData_run (mkFile EmptyString "photo.jpg" (Normal Vectors.fullJpeg))
     = (Fulfilled
          (mkExifData (Some (43 + 39 / 60 + (499 / 100) / 3600)%float)
                      (Some (- (79 + 20 / 60 + (4948 / 100) / 3600))%float)
                      None (Some "2024-06-15T14:30:00Z"%string)),
        1%nat).
Proof.
  split; [intros content; reflexivity|vm_compute; reflexivity].
Qed.

(** ** C6: redaction failures are rejections *)

(** C6: when the image does not load, the canvas gives no context or the
    encoder gives no blob, the promise of [stripExifData] is rejected
    with an [Error]; it is not fulfilled with any file. *)
Theorem stripExifData_rejects_on_failure (env : Redaction.Browser) (file : File) :
  Redaction.redactionFails env file ->
  (exists message, Redaction.stripExifData env file = Rejected (Error message))
  /\ (forall stripped, Redaction.stripExifData env file <> Fulfilled stripped).
Proof.
  unfold Redaction.redactionFails, Redaction.stripExifData.
  intros [Hd|[(img & Hd & Hc)|(img & Hd & Hb)]]; rewrite Hd.
  - split; [eexists; reflexivity|discriminate].
  - rewrite Hc; cbn [negb]; split; [eexists; reflexivity|discriminate].
  - destruct (negb _); [split; [eexists; reflexivity|discriminate]|].
    rewrite Hb; split; [eexists; reflexivity|discriminate].
Qed.

Lemma stripExifData_rejects_on_failure_witness :
  let env := Redaction.mkBrowser (fun _ => None) (fun _ _ => true) (fun _ _ _ => None) in
  let file := mkFile "image/jpeg" "broken.jpg" (Normal (Vectors.text "truncated")) in
  exists message, Redaction.stripExifData env file = Rejected (Error message).
Proof.
  intros env file.
  refine (proj1 (stripExifData_rejects_on_failure env file _)).
  left; reflexivity.
Defined.

(** ** C7: degrees, minutes, seconds *)

(** C7: for all degrees, minutes and seconds, the value for 'S' is the
    negation of the value for 'N' and that for 'W' the negation of that
    for 'E', and the value for 'N' and 'E' is [d + m/60 + s/3600] itself,
    nothing being rounded off; when degrees, minutes and seconds are not
    negative, as GPS rationals are, the magnitude of the value equals
    [d + m/60 + s/3600] for each of the four references. *)
Theorem gpsToDecimal_sign_and_magnitude (d m s : float) :
  gpsToDecimal d m s "S" = (- gpsToDecimal d m s "N")%float
  /\ gpsToDecimal d m s "W" = (- gpsToDecimal d m s "E")%float
  /\ gpsToDecimal d m s "N" = (d + m / 60 + s / 3600)%float
  /\ gpsToDecimal d m s "E" = (d + m / 60 + s / 3600)%float
  /\ ((0 <=? d)%float = true -> (0 <=? m)%float = true -> (0 <=? s)%float = true ->
      forall ref, In ref ["N"; "S"; "E"; "W"]%string ->
        (abs (gpsToDecimal d m s ref) =? d + m / 60 + s / 3600)%float = true).
Proof.
  repeat split; try reflexivity.
  intros Hd Hm Hs.
  assert (Hsum : (0 <=? d + m / 60 + s / 3600)%float = true).
  { apply add_nonneg; [apply add_nonneg; [exact Hd|]|].
    - eapply div_nonneg; [exact Hm|vm_compute; reflexivity].
    - eapply div_nonneg; [exact Hs|vm_compute; reflexivity]. }
  intros ref [<-|[<-|[<-|[<-|[]]]]]; unfold gpsToDecimal;
    cbn [String.eqb Ascii.eqb Bool.eqb orb];
    rewrite ?abs_opp; apply abs_nonneg; exact Hsum.
Qed.

Lemma gpsToDecimal_sign_and_magnitude_witness :
  (abs (gpsToDecimal 79 20 0x1.8bd70a3d70a3dp+5 "W")
   =? 79 + 20 / 60 + 0x1.8bd70a3d70a3dp+5 / 3600)%float = true.
Proof.
  refine (proj2 (proj2 (proj2 (proj2
            (gpsToDecimal_sign_and_magnitude 79 20 0x1.8bd70a3d70a3dp+5))))
            _ _ _ "W"%string _).
  - reflexivity.
  - reflexivity.
  - reflexivity.
  - right; right; right; left; reflexivity.
Defined.

(** ** C9: the cardinal label *)

Lemma labelOfDegrees_all :
  forallb (fun k => JsValue_eqb (labelOfDegrees (Z.of_nat k))
                      (labelAt (sectorOfDegrees (Z.of_nat k))))
          (seq 0 360) = true.
Proof. vm_compute; reflexivity. Qed.

Lemma JsValue_eqb_eq a b : JsValue_eqb a b = true -> a = b.
Proof.
  destruct a, b; simpl; try discriminate; try reflexivity.
  intros H; apply String.eqb_eq in H; congruence.
Qed.

(** C9: the label is [directions[Math.round(bearing / 45) % 8]]; the
    bearings 0, 45 and 359 give 'N', 'NE' and 'N', the last because
    359/45 rounds to 8, which wraps to index 0; and a whole number of
    degrees [n] in [0, 360) gets the label of index
    [floor((2n + 45) / 90) mod 8]. *)
Theorem getBearingLabel_cardinal :
  (forall lat lng date x,
      Photo.getBearingLabel (Photo.mkPhotoRow lat lng (Some x) date)
      = match elementAt ["N"; "NE"; "E"; "SE"; "S"; "SW"; "W"; "NW"]%string
                (js_rem (Math_round (x / 45)%float) 8%float) with
        | Some label => JsString label
        | None => JsUndefined
        end)
  /\ Photo.getBearingLabel (Photo.mkPhotoRow None None (Some 0%float) None) = JsString "N"
  /\ Photo.getBearingLabel (Photo.mkPhotoRow None None (Some 45%float) None) = JsString "NE"
  /\ Photo.getBearingLabel (Photo.mkPhotoRow None None (Some 359%float) None) = JsString "N"
  /\ Math_round (359 / 45)%float = 8%float
  /\ js_rem 8%float 8%float = 0%float
  /\ (forall n, 0 <= n < 360 -> labelOfDegrees n = labelAt (sectorOfDegrees n)).
Proof.
  repeat split; try reflexivity.
  intros n Hn.
  pose proof labelOfDegrees_all as Hall.
  rewrite forallb_forall in Hall.
  specialize (Hall (Z.to_nat n)).
  rewrite Z2Nat.id in Hall by lia.
  apply JsValue_eqb_eq, Hall, in_seq; lia.
Qed.

Lemma getBearingLabel_cardinal_witness :
  labelOfDegrees 337 = labelAt (sectorOfDegrees 337).
Proof.
  refine (proj2 (proj2 (proj2 (proj2 (proj2 (proj2 getBearingLabel_cardinal))))) 337 _).
  lia.
Defined.

(** ** C10: the declared segment length *)

(** C10: [parseExifData] returns the same result for any two values of
    [maxLength]; more, it returns the same result on two buffers that
    agree from the TIFF header on, so that the length an APP1 segment
    declares has no influence: two files that differ only in that length
    give the same record.  Offsets are resolved in the whole buffer: in a
    file whose segment declares 8 bytes, so that the TIFF block lies after
    the declared end of the segment, the date is still extracted. *)
Theorem parseExifData_ignores_maxLength :
  (forall view tiffOffset maxLength1 maxLength2,
      parseExifData view tiffOffset maxLength1 = parseExifData view tiffOffset maxLength2)
  /\ (forall view1 view2 tiffOffset maxLength1 maxLength2,
        agreeFrom tiffOffset view1 view2 ->
        parseExifData view1 tiffOffset maxLength1
        = parseExifData view2 tiffOffset maxLength2)
  /\ (forall length1 length2 tiff,
        extractExifData (Vectors.jpegFile (Vectors.jpegOf length1 tiff))
        = extractExifData (Vectors.jpegFile (Vectors.jpegOf length2 tiff)))
  /\ getUint16 Vectors.shortSegmentJpeg 4 false = Normal 8
  /\ extractExifData (Vectors.jpegFile Vectors.shortSegmentJpeg)
     = Fulfilled (mkExifData None None None (Some "2024-06-15T14:30:00Z"%string)).
Proof.
  split; [intros; reflexivity|].
  split; [intros view1 view2 tiffOffset m1 m2 H; apply parseExifData_agree; exact H|].
  split; [|split; vm_compute; reflexivity].
  intros length1 length2 tiff.
  destruct (extractExifData_jpegOf length1 tiff) as [m1 ->].
  destruct (extractExifData_jpegOf length2 tiff) as [m2 ->].
  f_equal; apply parseExifData_agree, jpegOf_agree.
Qed.

Lemma parseExifData_ignores_maxLength_witness :
  parseExifData (Vectors.jpegOf 8 (Vectors.dateTiff (Vectors.text "MM"))) 12 0
  = parseExifData (Vectors.jpegOf 34 (Vectors.dateTiff (Vectors.text "MM"))) 12 26.
Proof.
  refine (proj1 (proj2 parseExifData_ignores_maxLength) _ _ 12 0 26 _).
  apply jpegOf_agree.
Defined.

(** * Further properties of the code *)

(** ** Binary64 arithmetic on bounded numbers *)

Lemma boundedBy_weaken A B m e :
  0 <= A <= B -> boundedBy A 0 m e -> boundedBy B 0 m e.
Proof.
  intros HAB [He Hm]; split; [exact He|].
  assert (0 < 2 ^ (0 - e)) by (apply Z.pow_pos_nonneg; lia).
  eapply Z.le_trans; [exact Hm|]. apply Z.mul_le_mono_nonneg_r; lia.
Qed.

Lemma smallNumber_weaken A B f :
  0 <= A <= B -> smallNumber A f -> smallNumber B f.
Proof.
  intros HAB [Hz|(s & m & e & -> & Hb)]; [left; exact Hz|right].
  exists s, m, e; split; [reflexivity|eapply boundedBy_weaken; eassumption].
Qed.

(** A binary64 number below 2^52 has a negative exponent. *)
Lemma smallNumber_exponent (x : float) s m e B :
  Prim2SF x = S754_finite s m e -> boundedBy B 0 (Zpos m) e -> 0 < B < 2 ^ 52 -> e < 0.
Proof.
  intros Hx [He Hm] HB.
  destruct (finite_valid x s m e Hx) as (Hc & _ & _ & _).
  destruct (Z.eq_dec e 0) as [->|]; [exfalso|lia].
  change (2 ^ (0 - 0)) with 1 in Hm.
  assert (Hd : Zpos (digits2_pos m) <= 52) by (apply digits2_pos_bound; lia).
  revert Hc; unfold fexp, SpecFloat.emin, prec, emax; lia.
Qed.

(** The binary64 number of a positive integer below 2^53. *)
Lemma toNumber_finite n :
  0 < n < 2 ^ 53 ->
  exists m e,
    Prim2SF (toNumber n) = S754_finite false m e /\ e <= 0 /\ Zpos m = n * 2 ^ (- e).
Proof.
  intros Hn; rewrite toNumber_spec by lia.
  destruct n as [|p|p]; try lia.
  destruct (binary_round_exact p 0) as (mz & ez & Hr & Hez & Hmz & _).
  - apply digits2_pos_bound; lia.
  - unfold SpecFloat.emin, prec, emax; lia.
  - unfold prec, emax; lia.
  - exists mz, ez; split; [exact Hr|split; [exact Hez|]].
    rewrite Hmz; f_equal; f_equal; lia.
Qed.

Lemma integerOf_finite (x : float) m e n :
  Prim2SF x = S754_finite false m e -> e <= 0 -> Zpos m = n * 2 ^ (- e) ->
  integerOf x = Some n.
Proof.
  intros Hx He Hm; unfold integerOf; rewrite Hx.
  assert (Hp : 0 < 2 ^ (- e)) by (apply Z.pow_pos_nonneg; lia).
  destruct (0 <=? e) eqn:H0.
  - apply Z.leb_le in H0; assert (e = 0) by lia; subst e.
    change (2 ^ (- 0)) with 1 in Hm; change (2 ^ 0) with 1.
    simpl cond_Zopp; f_equal; lia.
  - rewrite Hm, Z.mod_mul, Z.eqb_refl, Z.div_mul by lia; reflexivity.
Qed.

Lemma integerOf_toNumber n : 0 <= n < 2 ^ 53 -> integerOf (toNumber n) = Some n.
Proof.
  intros Hn; destruct (Z.eq_dec n 0) as [->|Hz]; [reflexivity|].
  destruct (toNumber_finite n ltac:(lia)) as (m & e & Hx & He & Hm).
  eapply integerOf_finite; eassumption.
Qed.

(** [Math.round] on a number with a negative exponent. *)
Lemma Math_round_finite (x : float) s m e :
  Prim2SF x = S754_finite s m e -> e < 0 ->
  Math_round x
  = let n := (2 * cond_Zopp s (Zpos m) + 2 ^ (- e)) / 2 ^ (- e + 1) in
    if n =? 0 then (if s then (- 0)%float else 0%float) else ofInteger n.
Proof.
  intros Hx He; unfold Math_round; rewrite Hx.
  replace (0 <=? e) with false by (symmetry; apply Z.leb_gt; lia).
  reflexivity.
Qed.

(** [Math.round] of a number in [0, B] is zero or a whole number of
    [1 .. B]. *)
Lemma Math_round_nonneg (x : float) B :
  smallNumber B (Prim2SF x) -> nonneg_sf (Prim2SF x) -> 0 < B < 2 ^ 52 ->
  (exists s, Prim2SF (Math_round x) = S754_zero s)
  \/ exists n, 1 <= n <= B /\ Math_round x = toNumber n.
Proof.
  intros [[s Hz]|(s & m & e & Hx & Hb)] Hnn HB.
  - left; exists s; unfold Math_round; rewrite Hz; exact Hz.
  - rewrite Hx in Hnn; inversion Hnn; subst s.
    pose proof (smallNumber_exponent x false m e B Hx Hb HB) as He.
    rewrite (Math_round_finite x false m e Hx He); cbv zeta.
    destruct Hb as [_ Hm]; simpl cond_Zopp.
    set (k := - e) in *; replace (0 - e) with k in Hm by (unfold k; lia).
    assert (Hk : 0 < 2 ^ k) by (apply Z.pow_pos_nonneg; unfold k; lia).
    assert (Hk1 : 2 ^ (k + 1) = 2 * 2 ^ k) by (rewrite Z.pow_add_r by (unfold k; lia); lia).
    set (n := (2 * Zpos m + 2 ^ k) / 2 ^ (k + 1)).
    assert (Hn : 0 <= n <= B).
    { unfold n; split; [apply Z.div_pos; lia|].
      apply Z.lt_succ_r, Z.div_lt_upper_bound; lia. }
    destruct (n =? 0) eqn:Hn0.
    + left; exists false; reflexivity.
    + apply Z.eqb_neq in Hn0; right; exists n; split; [lia|].
      unfold ofInteger.
      replace (n <? 0) with false by (symmetry; apply Z.ltb_ge; lia).
      reflexivity.
Qed.

(** A number between 0 and a bound [y] that denotes the integer [B]. *)
Lemma leb_small (x y : float) my ey B :
  (0 <=? x)%float = true -> (x <=? y)%float = true ->
  Prim2SF y = S754_finite false my ey -> ey <= 0 -> 2 ^ 52 <= Zpos my ->
  Zpos my = B * 2 ^ (- ey) ->
  smallNumber B (Prim2SF x) /\ nonneg_sf (Prim2SF x).
Proof.
  intros H0 Hle Hy Hey Hmy HB.
  apply leb_zero_iff in H0; split; [|exact H0].
  rewrite FloatAxioms.leb_spec, Hy in Hle.
  destruct (Prim2SF x) as [s|s| |s m e] eqn:Hx.
  - left; exists s; reflexivity.
  - inversion H0; subst; discriminate.
  - inversion H0.
  - inversion H0; subst s.
    destruct (finite_valid x false m e Hx) as (_ & _ & Hm53 & _).
    right; exists false, m, e; split; [reflexivity|].
    apply SFleb_positive in Hle.
    assert (Hpe : 0 < 2 ^ (- ey)) by (apply Z.pow_pos_nonneg; lia).
    split; [lia|].
    replace (0 - e) with (- ey + (ey - e)) by lia.
    rewrite Z.pow_add_r, Z.mul_assoc, <- HB by lia.
    destruct Hle as [Hlt|[-> Hm]].
    + assert (2 ^ 1 <= 2 ^ (ey - e)) by (apply Z.pow_le_mono_r; lia).
      change (2 ^ 1) with 2 in *; change (2 ^ 53) with (2 * 2 ^ 52) in Hm53. nia.
    + rewrite Z.sub_diag, Z.pow_0_r; lia.
Qed.

(** The quotient of two finite numbers [x <= C * y]. *)
Lemma SFdiv_small sx mx ex sy my ey C :
  0 < C -> Zdigits2 C <= 53 ->
  Zpos mx * 2 ^ (ex - Z.min ex ey) <= C * Zpos my * 2 ^ (ey - Z.min ex ey) ->
  smallNumber C (SFdiv prec emax (S754_finite sx mx ex) (S754_finite sy my ey)).
Proof.
  intros HC HdC Hle.
  unfold SFdiv, SFdiv_core_binary.
  set (d1 := Zdigits2 (Zpos mx)); set (d2 := Zdigits2 (Zpos my)).
  set (c := Z.min ex ey) in *.
  assert (Hd : d1 + ex - (d2 + ey) <= Zdigits2 C).
  { pose proof (Zdigits2_ge (Zpos mx) ltac:(lia)) as H1; fold d1 in H1.
    pose proof (Zdigits2_lt (Zpos my) ltac:(lia)) as H2; fold d2 in H2.
    pose proof (Zdigits2_lt C ltac:(lia)) as H3.
    assert (Hd1 : 1 <= d1) by (unfold d1; simpl; lia).
    assert (Hd2 : 0 <= d2) by apply Zdigits2_nonneg.
    assert (HdC0 : 0 <= Zdigits2 C) by apply Zdigits2_nonneg.
    assert (Hlow : 2 ^ (d1 - 1 + (ex - c)) <= Zpos mx * 2 ^ (ex - c)).
    { rewrite Z.pow_add_r by (unfold c; lia).
      apply Z.mul_le_mono_nonneg_r; [apply Z.pow_nonneg; lia|exact H1]. }
    assert (Hup : C * Zpos my * 2 ^ (ey - c) < 2 ^ (Zdigits2 C + d2 + (ey - c))).
    { rewrite !Z.pow_add_r by (unfold c; lia).
      apply Z.mul_lt_mono_pos_r; [apply Z.pow_pos_nonneg; unfold c; lia|].
      apply Z.mul_lt_mono_nonneg; lia. }
    assert (Hcmp : 2 ^ (d1 - 1 + (ex - c)) < 2 ^ (Zdigits2 C + d2 + (ey - c))) by lia.
    apply Z.pow_lt_mono_r_iff in Hcmp; unfold c in *; lia. }
  set (e' := Z.min (fexp prec emax (d1 + ex - (d2 + ey))) (ex - ey)).
  assert (He' : e' <= 0).
  { assert (fexp prec emax (d1 + ex - (d2 + ey)) <= 0);
      [unfold fexp, SpecFloat.emin, prec, emax|unfold e']; lia. }
  set (sh := ex - ey - e').
  assert (Hsh : 0 <= sh) by (unfold sh, e'; lia).
  set (m' := match sh with
             | 0 => Zpos mx
             | Zpos _ => Z.shiftl (Zpos mx) sh
             | Zneg _ => 0
             end).
  assert (Hm' : m' = Zpos mx * 2 ^ sh).
  { unfold m'; destruct sh as [|p|p]; [rewrite Z.pow_0_r; lia| |lia].
    apply Z.shiftl_mul_pow2; lia. }
  assert (Hbound : m' <= C * Zpos my * 2 ^ (0 - e')).
  { rewrite Hm'.
    assert (Ht : 0 < 2 ^ (ey - c)) by (apply Z.pow_pos_nonneg; unfold c; lia).
    apply (Z.mul_le_mono_pos_r _ _ (2 ^ (ey - c)) Ht).
    rewrite <- !Z.mul_assoc, <- !Z.pow_add_r by (unfold c; lia).
    replace (sh + (ey - c)) with ((ex - c) + (0 - e')) by (unfold sh; lia).
    replace (0 - e' + (ey - c)) with ((ey - c) + (0 - e')) by lia.
    rewrite !Z.pow_add_r, !Z.mul_assoc by (unfold c; lia).
    apply Z.mul_le_mono_nonneg_r; [apply Z.pow_nonneg; lia|].
    rewrite <- !Z.mul_assoc in Hle |- *; rewrite Z.mul_assoc; exact Hle || lia. }
  pose proof (Z.div_eucl_eq m' (Zpos my) ltac:(lia)) as Heq.
  pose proof (Z.mod_pos_bound m' (Zpos my) ltac:(lia)) as Hr.
  unfold Z.modulo in Hr.
  destruct (Z.div_eucl m' (Zpos my)) as [q r].
  assert (Hpow : 0 < 2 ^ (0 - e')) by (apply Z.pow_pos_nonneg; lia).
  assert (Hm'0 : 0 <= m').
  { rewrite Hm'; apply Z.mul_nonneg_nonneg; [lia|apply Z.pow_nonneg; lia]. }
  assert (Hq0 : 0 <= q) by nia.
  assert (Hq : q <= C * 2 ^ (0 - e')).
  { assert (Zpos my * q <= Zpos my * (C * 2 ^ (0 - e'))) by lia.
    apply Z.mul_le_mono_pos_l in H; lia. }
  eapply roundedBelow_small, binary_round_aux_bound; try lia.
  - revert HdC; unfold fexp, SpecFloat.emin, prec, emax; lia.
  - unfold emax, prec; lia.
  - split; lia.
  - intros Hloc.
    destruct (Z.eq_dec r 0) as [->|Hr0].
    { exfalso; apply Hloc; unfold new_location, new_location_even, new_location_odd.
      destruct (Z.even (Zpos my)); reflexivity. }
    assert (Zpos my * q < Zpos my * (C * 2 ^ (0 - e'))) by lia.
    apply Z.mul_lt_mono_pos_l in H; lia.
Qed.

(** [x / y] for [|x| <= A] and a divisor that denotes the integer
    [D], with [A <= C * D]. *)
Lemma div_small_const (x y : float) sy my ey A C D :
  smallNumber A (Prim2SF x) ->
  Prim2SF y = S754_finite sy my ey -> ey <= 0 -> Zpos my = D * 2 ^ (- ey) ->
  0 < C -> Zdigits2 C <= 53 -> A <= C * D ->
  smallNumber C (Prim2SF (x / y)%float).
Proof.
  intros Hx Hy Hey Hmy HC HdC HA; rewrite FloatAxioms.div_spec, Hy.
  destruct Hx as [[s ->]|(s & m & e & -> & He & Hm)].
  - left; eexists; reflexivity.
  - apply SFdiv_small; [exact HC|exact HdC|].
    set (c := Z.min e ey).
    assert (Hc : c <= e /\ c <= ey) by (unfold c; lia).
    assert (Hp1 : 0 < 2 ^ (e - c)) by (apply Z.pow_pos_nonneg; lia).
    assert (Hp2 : 0 < 2 ^ (- c)) by (apply Z.pow_pos_nonneg; lia).
    apply Z.le_trans with (A * 2 ^ (- c)).
    + replace (- c) with ((0 - e) + (e - c)) by lia.
      rewrite Z.pow_add_r, Z.mul_assoc by lia.
      apply Z.mul_le_mono_nonneg_r; lia.
    + rewrite Hmy, <- !Z.mul_assoc, <- Z.pow_add_r by lia.
      replace (- ey + (ey - c)) with (- c) by lia.
      rewrite Z.mul_assoc; apply Z.mul_le_mono_nonneg_r; lia.
Qed.

(** ** Labels and rounded bearings *)

Lemma ltb_leb (x y : float) : (x <? y)%float = true -> (x <=? y)%float = true.
Proof.
  rewrite FloatAxioms.ltb_spec, FloatAxioms.leb_spec; unfold SFltb, SFleb.
  destruct (SFcompare (Prim2SF x) (Prim2SF y)) as [[| |]|]; try discriminate; reflexivity.
Qed.

(** A number of [0, 360]. *)
Lemma small_360 (x : float) :
  (0 <=? x)%float = true -> (x <=? 360)%float = true ->
  smallNumber 360 (Prim2SF x) /\ nonneg_sf (Prim2SF x).
Proof.
  intros H0 H360.
  apply (leb_small x 360%float 6333186975989760 (-44) 360 H0 H360);
    try reflexivity; vm_compute; discriminate.
Qed.

Lemma label_of_zero (index : float) s :
  Prim2SF index = S754_zero s ->
  elementAt Photo.directions (js_rem index 8%float) = Some "N"%string.
Proof.
  intros Hz; unfold js_rem; rewrite Hz.
  change (Prim2SF 8) with (S754_finite false 4503599627370496 (-49)).
  unfold elementAt; rewrite Hz; reflexivity.
Qed.

Lemma label_of_index n :
  1 <= n <= 8 ->
  exists label,
    In label Photo.directions
    /\ elementAt Photo.directions (js_rem (toNumber n) 8%float) = Some label.
Proof.
  intros Hn.
  assert (Hc : n = 1 \/ n = 2 \/ n = 3 \/ n = 4 \/ n = 5 \/ n = 6 \/ n = 7 \/ n = 8) by lia.
  destruct Hc as [->|[->|[->|[->|[->|[->|[->| ->]]]]]]];
    eexists; (split; [|vm_compute; reflexivity]); simpl; tauto.
Qed.

(** X1: every bearing between 0 and 360, whole or not, gets one of the
    eight labels; the index [Math.round(bearing / 45) % 8] never leaves
    the array, so the label is never [undefined]. *)
Theorem getBearingLabel_defined (lat lng : option float) (date : option string) (b : float) :
  (0 <=? b)%float = true -> (b <=? 360)%float = true ->
  exists label,
    In label Photo.directions
    /\ Photo.getBearingLabel (Photo.mkPhotoRow lat lng (Some b) date) = JsString label.
Proof.
  intros H0 H360.
  destruct (small_360 b H0 H360) as [Hs Hn].
  assert (Hq : smallNumber 8 (Prim2SF (b / 45)%float)).
  { apply (div_small_const b 45%float false 6333186975989760 (-47) 360 8 45 Hs);
      try reflexivity; try lia; vm_compute; discriminate. }
  assert (Hqn : nonneg_sf (Prim2SF (b / 45)%float)).
  { apply leb_zero_iff, (div_nonneg b 45%float 6333186975989760 (-47) H0); reflexivity. }
  unfold Photo.getBearingLabel; cbn [Photo.bearing].
  destruct (Math_round_nonneg (b / 45)%float 8 Hq Hqn) as [[s Hz]|(n & Hn8 & Hr)].
  - split; [lia|reflexivity].
  - exists "N"%string; split; [simpl; tauto|].
    rewrite (label_of_zero _ s Hz); reflexivity.
  - rewrite Hr.
    destruct (label_of_index n Hn8) as (label & Hin & Hl).
    exists label; split; [exact Hin|rewrite Hl; reflexivity].
Qed.

Lemma getBearingLabel_defined_witness :
  exists label,
    In label Photo.directions
    /\ Photo.getBearingLabel
         (Photo.mkPhotoRow None None (Some 0x1.6733333333333p+8%float) None)
       = JsString label.
Proof.
  apply (getBearingLabel_defined None None None 0x1.6733333333333p+8%float); reflexivity.
Defined.

(** X2: the bearing the direction handle stores while it is dragged,
    [Math.round(calculateBearing(...))], is a whole number of degrees
    between 0 and 360 for every angle [Math.atan2] can return; 360 itself
    is stored for an angle just below zero, although the unrounded bearing
    is below 360. *)
Theorem rounded_bearing_range (angle : float) :
  (- Geodesy.Math_PI <=? angle)%float = true ->
  (angle <=? Geodesy.Math_PI)%float = true ->
  (exists n,
      integerOf (Math_round (Geodesy.normalizeBearing angle)) = Some n /\ 0 <= n <= 360)
  /\ (Geodesy.normalizeBearing (- 0x1p-10) <? 360)%float = true
  /\ Math_round (Geodesy.normalizeBearing (- 0x1p-10)) = 360%float.
Proof.
  intros Hlo Hhi; split; [|split; vm_compute; reflexivity].
  destruct (normalizeBearing_range angle Hlo Hhi) as [H0 H360].
  destruct (small_360 _ H0 (ltb_leb _ _ H360)) as [Hs Hn].
  destruct (Math_round_nonneg _ 360 Hs Hn) as [[s Hz]|(n & Hn360 & Hr)].
  - split; [lia|reflexivity].
  - exists 0; split; [unfold integerOf; rewrite Hz; reflexivity|lia].
  - exists n; split; [rewrite Hr; apply integerOf_toNumber|lia].
    split; [lia|]. apply Z.le_lt_trans with 360; [lia|reflexivity].
Qed.

Lemma rounded_bearing_range_witness :
  exists n,
    integerOf (Math_round (Geodesy.normalizeBearing 0x1.8p+0)) = Some n /\ 0 <= n <= 360.
Proof.
  apply (rounded_bearing_range 0x1.8p+0%float); reflexivity.
Defined.

(** ** [readExifDate] *)

Lemma byte_of_char (x : byte) :
  Vectors.b (Z.of_N (N_of_ascii (fromCharCode (Z.of_N (Byte.to_N x))))) = x.
Proof.
  unfold fromCharCode, Vectors.b; rewrite !N2Z.id.
  rewrite N_ascii_embedding by (pose proof (Byte.to_N_bounded x); lia).
  rewrite Byte.of_to_N; reflexivity.
Qed.

Lemma char_of_byte (c : ascii) :
  fromCharCode (Z.of_N (Byte.to_N (Vectors.b (Z.of_N (N_of_ascii c))))) = c.
Proof.
  unfold fromCharCode, Vectors.b; rewrite !N2Z.id.
  pose proof (N_ascii_bounded c) as Hb.
  destruct (Byte.of_N (N_of_ascii c)) as [x|] eqn:Hx.
  - apply Byte.to_of_N in Hx; rewrite Hx; apply ascii_N_embedding.
  - apply Byte.of_N_None_iff in Hx; lia.
Qed.

Lemma skipn_cons_nth {A : Type} (l : list A) k x :
  nth_error l k = Some x -> skipn k l = x :: skipn (S k) l.
Proof.
  revert l; induction k as [|k IH]; intros [|a l] H; simpl in *; try discriminate.
  - congruence.
  - apply IH; exact H.
Qed.

Lemma getUint8_inv view offset char :
  getUint8 view offset = Normal char ->
  0 <= offset
  /\ exists x, nth_error view (Z.to_nat offset) = Some x /\ char = Z.of_N (Byte.to_N x).
Proof.
  unfold getUint8, inBounds, byteAt, byteLength.
  destruct (0 <=? offset) eqn:H0; [|discriminate].
  destruct (offset + 1 <=? Z.of_nat (List.length view)) eqn:H1; [|discriminate].
  apply Z.leb_le in H0, H1; cbn [andb].
  destruct (nth_error view (Z.to_nat offset)) as [x|] eqn:Hx.
  - intros H; apply Normal_inj in H; split; [exact H0|exists x; auto].
  - apply nth_error_None in Hx; lia.
Qed.

(** What the loop of [readExifDate] has read when it ends normally. *)
Lemma readDateChars_inv view offset n : forall i dateStr result,
  readDateChars view offset n i dateStr = Normal result ->
  exists chars,
    result = dateStr ++ chars
    /\ (List.length chars <= n)%nat
    /\ (chars <> [] -> 0 <= offset + i)
    /\ firstn (List.length chars) (skipn (Z.to_nat (offset + i)) view)
       = map (fun c => Vectors.b (Z.of_N (N_of_ascii c))) chars.
Proof.
  induction n as [|n IH]; intros i dateStr result; cbn [readDateChars].
  - intros H; apply Normal_inj in H; subst result.
    exists []; rewrite app_nil_r.
    split; [reflexivity|split; [simpl; lia|split; [congruence|reflexivity]]].
  - destruct (getUint8 view (offset + i)) as [char|] eqn:Hc; cbn [bind]; [|discriminate].
    destruct (getUint8_inv _ _ _ Hc) as (H0 & x & Hx & ->).
    destruct (Z.of_N (Byte.to_N x) =? 0).
    + intros H; apply Normal_inj in H; subst result.
      exists []; rewrite app_nil_r.
      split; [reflexivity|split; [simpl; lia|split; [congruence|reflexivity]]].
    + intros H; apply IH in H as (chars & -> & Hlen & _ & Hchars).
      exists (fromCharCode (Z.of_N (Byte.to_N x)) :: chars).
      rewrite <- app_assoc; split; [reflexivity|].
      split; [simpl; lia|split; [intros _; exact H0|]].
      rewrite (skipn_cons_nth _ _ _ Hx); cbn [List.length firstn map].
      rewrite byte_of_char; f_equal.
      replace (S (Z.to_nat (offset + i))) with (Z.to_nat (offset + (i + 1))) by lia.
      exact Hchars.
Qed.

(** The loop reads characters that are in the buffer and not zero. *)
Lemma readDateChars_text view offset : forall chars i dateStr,
  0 <= offset + i ->
  firstn (List.length chars) (skipn (Z.to_nat (offset + i)) view)
  = map (fun c => Vectors.b (Z.of_N (N_of_ascii c))) chars ->
  Forall (fun c => c <> Ascii.zero) chars ->
  readDateChars view offset (List.length chars) i dateStr = Normal (dateStr ++ chars).
Proof.
  induction chars as [|c chars IH]; intros i dateStr H0 Hv Hnz; cbn [List.length readDateChars].
  - rewrite app_nil_r; reflexivity.
  - inversion Hnz as [|? ? Hc Hnz']; subst.
    cbn [List.length map] in Hv.
    destruct (skipn (Z.to_nat (offset + i)) view) as [|x rest] eqn:Hs; [discriminate|].
    cbn [firstn] in Hv; injection Hv as Hx Hrest.
    assert (Hnth : nth_error view (Z.to_nat (offset + i)) = Some x).
    { rewrite <- (firstn_skipn (Z.to_nat (offset + i)) view) at 1.
      rewrite Hs, nth_error_app2 by (rewrite length_firstn; lia).
      assert (Hlen : (Z.to_nat (offset + i) <= List.length view)%nat).
      { destruct (Nat.le_gt_cases (Z.to_nat (offset + i)) (List.length view)); [assumption|].
        rewrite skipn_all2 in Hs by lia; discriminate. }
      rewrite length_firstn, Nat.min_l, Nat.sub_diag by exact Hlen; reflexivity. }
    rewrite (getUint8_at view (offset + i) x H0 Hnth); cbn [bind].
    rewrite Hx, char_of_byte.
    assert (Hcz : (Z.of_N (Byte.to_N (Vectors.b (Z.of_N (N_of_ascii c)))) =? 0) = false).
    { apply Z.eqb_neq; intros Hz; apply Hc.
      rewrite <- (char_of_byte c); unfold fromCharCode; rewrite Hz; reflexivity. }
    rewrite Hcz, (IH (i + 1) (dateStr ++ [c])), <- app_assoc; [reflexivity|lia| |exact Hnz'].
    rewrite <- Hrest.
    replace (Z.to_nat (offset + (i + 1))) with (S (Z.to_nat (offset + i))) by lia.
    rewrite (skipn_cons_nth _ _ _ Hnth) in Hs; injection Hs as Hs; f_equal; exact Hs.
Qed.

Lemma matchesAt_length p : forall s, matchesAt p s = true -> (List.length p <= List.length s)%nat.
Proof.
  induction p as [|[|l] p IH]; intros [|c s] H; simpl in *; try discriminate; try lia;
    apply andb_prop in H as [_ H]; apply IH in H; lia.
Qed.

Lemma regexMatch_length s : forall m, regexMatch s = Some m -> (19 <= List.length s)%nat.
Proof.
  induction s as [|c s IH]; intros m; cbn [regexMatch].
  - destruct (matchesAt exifDatePattern []) eqn:Hm; [|discriminate].
    intros _; apply matchesAt_length in Hm; exact Hm.
  - destruct (matchesAt exifDatePattern (c :: s)) eqn:Hm.
    + intros _; apply matchesAt_length in Hm; exact Hm.
    + intros H; apply IH in H; simpl; lia.
Qed.

(** On a string of at most 19 characters the pattern can only match the
    whole string. *)
Lemma regexMatch_whole s m :
  (List.length s <= 19)%nat -> regexMatch s = Some m ->
  List.length s = 19%nat /\ matchesAt exifDatePattern s = true /\ m = s.
Proof.
  intros Hlen H.
  pose proof (regexMatch_length s m H) as H19.
  assert (Hl : List.length s = 19%nat) by lia.
  split; [exact Hl|].
  destruct s as [|c s]; [discriminate|].
  cbn [regexMatch] in H.
  destruct (matchesAt exifDatePattern (c :: s)) eqn:Hm.
  - split; [reflexivity|].
    assert (Hf : firstn 19 (c :: s) = c :: s) by (apply firstn_all2; lia).
    rewrite Hf in H; congruence.
  - apply regexMatch_length in H; simpl in Hl; lia.
Qed.

Lemma isDigit_nonzero c : isDigit c = true -> c <> Ascii.zero.
Proof. intros H ->; discriminate. Qed.

Ltac two_chars s H :=
  destruct s as [|? [|? [|? ?]]]; try (simpl in H; discriminate H).

Ltac four_chars s H :=
  destruct s as [|? [|? [|? [|? [|? ?]]]]]; try (simpl in H; discriminate H).

Ltac split_andb H :=
  repeat (let H' := fresh "Hd" in apply andb_prop in H as [H' H]).

(** The date read where the 19 characters of an EXIF date are. *)
Lemma readExifDate_of_text (view : DataView) (offset : Z) year month day hour min sec :
  digitString 4 year -> digitString 2 month -> digitString 2 day ->
  digitString 2 hour -> digitString 2 min -> digitString 2 sec ->
  holdsText view offset (exifDateText year month day hour min sec) ->
  readExifDate view offset = Some (isoDateText year month day hour min sec).
Proof.
  intros [Hy Hyd] [Hmo Hmod] [Hd Hdd] [Hh Hhd] [Hmi Hmid] [Hs Hsd] [H0 Hv].
  unfold readExifDate.
  four_chars year Hy; two_chars month Hmo; two_chars day Hd;
    two_chars hour Hh; two_chars min Hmi; two_chars sec Hs.
  cbn [list_ascii_of_string forallb] in *.
  split_andb Hyd; split_andb Hmod; split_andb Hdd;
    split_andb Hhd; split_andb Hmid; split_andb Hsd.
  match type of Hv with
  | firstn _ _ = Vectors.text ?t =>
      pose proof (readDateChars_text view offset (list_ascii_of_string t) 0 []) as Hread
  end.
  cbn [exifDateText String.append list_ascii_of_string List.length] in Hread, Hv.
  rewrite Z.add_0_r in Hread.
  rewrite Hread; [| exact H0 | exact Hv |].
  - cbn [bind List.app regexMatch matchesAt exifDatePattern].
    repeat match goal with H : isDigit _ = true |- _ => rewrite H; clear H end.
    reflexivity.
  - repeat constructor;
      solve [apply isDigit_nonzero; assumption | discriminate].
Qed.

(** X3: [readExifDate] returns a date exactly when the 19 characters
    [YYYY:MM:DD HH:MM:SS], all digits where the pattern has digits, are in
    the buffer at the offset; the result is then [YYYY-MM-DDTHH:MM:SSZ]
    with the same digits.  The digits are not checked against the
    calendar or the clock. *)
Theorem readExifDate_iso (view : DataView) (offset : Z) (result : string) :
  readExifDate view offset = Some result
  <-> exists year month day hour min sec,
        digitString 4 year /\ digitString 2 month /\ digitString 2 day
        /\ digitString 2 hour /\ digitString 2 min /\ digitString 2 sec
        /\ holdsText view offset (exifDateText year month day hour min sec)
        /\ result = isoDateText year month day hour min sec.
Proof.
  unfold readExifDate; split.
  - destruct (readDateChars view offset 19 0 []) as [dateStr|] eqn:Hread; cbn [bind try_catch];
      [|discriminate].
    destruct (regexMatch dateStr) as [m|] eqn:Hm; [|discriminate].
    intros [= <-].
    apply readDateChars_inv in Hread as (chars & -> & Hlen & H0 & Hv).
    cbn [List.app] in Hm.
    apply regexMatch_whole in Hm as (Hl & Hmatch & ->); [|exact Hlen].
    rewrite Hl in Hv; rewrite Z.add_0_r in *.
    destruct chars as [|y0 [|y1 [|y2 [|y3 [|k0 [|m0 [|m1 [|k1 [|d0 [|d1 [|k2 [|h0 [|h1
      [|k3 [|n0 [|n1 [|k4 [|s0 [|s1 [|? ?]]]]]]]]]]]]]]]]]]]]; try (simpl in Hl; discriminate Hl).
    cbn [matchesAt exifDatePattern] in Hmatch.
    split_andb Hmatch.
    repeat match goal with
           | H : Ascii.eqb _ _ = true |- _ => apply Ascii.eqb_eq in H; subst
           end.
    exists (string_of_list_ascii [y0; y1; y2; y3]), (string_of_list_ascii [m0; m1]),
      (string_of_list_ascii [d0; d1]), (string_of_list_ascii [h0; h1]),
      (string_of_list_ascii [n0; n1]), (string_of_list_ascii [s0; s1]).
    unfold digitString; cbn [string_of_list_ascii list_ascii_of_string String.length forallb].
    repeat match goal with H : isDigit _ = true |- _ => rewrite H; clear H end.
    repeat (split; [split; reflexivity|]).
    split; [|reflexivity].
    split; [apply H0; discriminate|exact Hv].
  - intros (year & month & day & hour & min & sec & Hy & Hmo & Hd & Hh & Hmi & Hs & Hv & ->).
    fold (readExifDate view offset).
    apply readExifDate_of_text; assumption.
Qed.

Lemma readExifDate_iso_witness :
  exists result,
    readExifDate (Vectors.text "2024:06:15 14:30:00") 0 = Some result
    /\ result = "2024-06-15T14:30:00Z"%string.
Proof.
  eexists; split; [|reflexivity].
  apply (proj2 (readExifDate_iso (Vectors.text "2024:06:15 14:30:00") 0 _)).
  exists "2024"%string, "06"%string, "15"%string, "14"%string, "30"%string, "00"%string.
  repeat (split; [split; reflexivity|]).
  reflexivity.
Defined.

(** ** The numbers [parseGpsIfd] computes are finite *)

Lemma SFadd_small sx mx ex sy my ey A B :
  boundedBy A 0 (Zpos mx) ex -> boundedBy B 0 (Zpos my) ey ->
  0 < A -> 0 < B -> Zdigits2 (A + B) <= 53 ->
  smallNumber (A + B) (SFadd prec emax (S754_finite sx mx ex) (S754_finite sy my ey)).
Proof.
  intros [Hex Hmx] [Hey Hmy] HA HB Hd; unfold SFadd.
  set (ez := Z.min ex ey).
  pose proof (shl_align_spec mx ex ez) as Hx.
  pose proof (shl_align_spec my ey ez) as Hy.
  destruct (shl_align mx ex ez) as [mx' ex']; destruct (shl_align my ey ez) as [my' ey'].
  cbn [fst snd] in *.
  destruct Hx as (_ & Hex' & Hmx'); destruct Hy as (_ & Hey' & Hmy').
  assert (Hx1 : ex' = ez) by (unfold ez in *; lia).
  assert (Hy1 : ey' = ez) by (unfold ez in *; lia).
  clear Hex' Hey'; subst ex' ey'.
  assert (Hez : ez <= 0) by (unfold ez; lia).
  assert (Hpx : Zpos mx' <= A * 2 ^ (0 - ez)).
  { rewrite Hmx'.
    replace (0 - ez) with ((0 - ex) + (ex - ez)) by lia.
    rewrite Z.pow_add_r, Z.mul_assoc by (unfold ez; lia).
    apply Z.mul_le_mono_nonneg_r; [apply Z.pow_nonneg; lia|exact Hmx]. }
  assert (Hpy : Zpos my' <= B * 2 ^ (0 - ez)).
  { rewrite Hmy'.
    replace (0 - ez) with ((0 - ey) + (ey - ez)) by lia.
    rewrite Z.pow_add_r, Z.mul_assoc by (unfold ez; lia).
    apply Z.mul_le_mono_nonneg_r; [apply Z.pow_nonneg; lia|exact Hmy]. }
  set (sum := cond_Zopp sx (Zpos mx') + cond_Zopp sy (Zpos my')).
  assert (Hsum : Z.abs sum <= (A + B) * 2 ^ (0 - ez)).
  { unfold sum, cond_Zopp; destruct sx, sy; lia. }
  assert (Hcanon : fexp prec emax (Zdigits2 (A + B) + 0) <= 0).
  { revert Hd; unfold fexp, SpecFloat.emin, prec, emax; lia. }
  unfold binary_normalize.
  destruct sum as [|p|p].
  - left; eexists; reflexivity.
  - eapply roundedBelow_small, binary_round_bound; try lia.
    + unfold emax, prec; lia.
    + split; lia.
  - eapply roundedBelow_small, binary_round_bound; try lia.
    + unfold emax, prec; lia.
    + split; lia.
Qed.

Lemma add_small (x y : float) A B :
  smallNumber A (Prim2SF x) -> smallNumber B (Prim2SF y) ->
  0 < A -> 0 < B -> Zdigits2 (A + B) <= 53 ->
  smallNumber (A + B) (Prim2SF (x + y)%float).
Proof.
  intros Hx Hy HA HB Hd; rewrite FloatAxioms.add_spec.
  destruct Hx as [[sx ->]|(sx & mx & ex & -> & Hbx)];
    destruct Hy as [[sy ->]|(sy & my & ey & -> & Hby)].
  - left; unfold SF64add, SFadd; destruct sx, sy; eexists; reflexivity.
  - right; exists sy, my, ey; split; [reflexivity|].
    apply boundedBy_weaken with B; [lia|exact Hby].
  - right; exists sx, mx, ex; split; [reflexivity|].
    apply boundedBy_weaken with A; [lia|exact Hbx].
  - apply SFadd_small; assumption.
Qed.

Lemma opp_small (x : float) A : smallNumber A (Prim2SF x) -> smallNumber A (Prim2SF (- x)%float).
Proof.
  rewrite FloatAxioms.opp_spec.
  intros [[s ->]|(s & m & e & -> & Hb)]; simpl.
  - left; eexists; reflexivity.
  - right; exists (negb s), m, e; split; [reflexivity|exact Hb].
Qed.

(** A number that is at most a bound [y] in magnitude, [y] denoting the
    integer [B]. *)
Lemma small_abs_leb (x y : float) my ey B :
  smallNumber B (Prim2SF x) ->
  Prim2SF y = S754_finite false my ey -> ey <= 0 -> 2 ^ 52 <= Zpos my ->
  Zpos my = B * 2 ^ (- ey) ->
  (abs x <=? y)%float = true.
Proof.
  intros Hx Hy Hey Hmy HB.
  rewrite FloatAxioms.leb_spec, FloatAxioms.abs_spec, Hy.
  destruct Hx as [[s Hz]|(s & m & e & Hf & He & Hm)].
  - rewrite Hz; reflexivity.
  - destruct (finite_valid x s m e Hf) as (Hc & _ & Hm53 & Hemin).
    destruct (finite_valid y false my ey Hy) as (_ & _ & _ & Heymin).
    rewrite Hf; cbn [SFabs]; unfold SFleb, SFcompare.
    assert (Hp : 0 < 2 ^ (- ey)) by (apply Z.pow_pos_nonneg; lia).
    destruct (Z.compare_spec e ey) as [Heq|Hlt|Hgt]; [|reflexivity|exfalso].
    + rewrite Pos.compare_cont_spec; simpl Pos.switch_Eq.
      subst e; replace (0 - ey) with (- ey) in Hm by lia.
      destruct (Pos.compare_spec m my) as [Hc'|Hc'|Hc']; try reflexivity.
      apply Pos2Z.pos_lt_pos in Hc'; lia.
    + (* a larger exponent makes a normal number, which is larger *)
      assert (Hd : Zpos (digits2_pos m) = 53).
      { revert Hc; unfold fexp, SpecFloat.emin, prec, emax in *; lia. }
      pose proof (Zdigits2_ge (Zpos m) ltac:(lia)) as Hge.
      simpl Zdigits2 in Hge; rewrite Hd in Hge; change (2 ^ (53 - 1)) with (2 ^ 52) in Hge.
      assert (Hmul : Zpos m * 2 ^ (e - ey) <= Zpos my).
      { rewrite HB.
        assert (Hpe : 0 < 2 ^ (e - ey)) by (apply Z.pow_pos_nonneg; lia).
        assert (H2 : 2 ^ (0 - e) * 2 ^ (e - ey) = 2 ^ (- ey)).
        { rewrite <- Z.pow_add_r by lia; f_equal; lia. }
        rewrite <- H2, Z.mul_assoc; apply Z.mul_le_mono_nonneg_r; lia. }
      assert (H1 : 2 ^ 1 <= 2 ^ (e - ey)) by (apply Z.pow_le_mono_r; lia).
      change (2 ^ 1) with 2 in H1.
      destruct (finite_valid y false my ey Hy) as (_ & _ & Hmy53 & _).
      change (2 ^ 53) with (2 * 2 ^ 52) in Hmy53. nia.
Qed.

Lemma toNumber_small n B : 0 <= n <= B -> n < 2 ^ 53 -> smallNumber B (Prim2SF (toNumber n)).
Proof.
  intros Hn H53; destruct (Z.eq_dec n 0) as [->|Hz].
  - left; exists false; reflexivity.
  - destruct (toNumber_finite n ltac:(lia)) as (m & e & Hx & He & Hm).
    right; exists false, m, e; split; [exact Hx|split; [exact He|]].
    rewrite Hm; replace (0 - e) with (- e) by lia.
    apply Z.mul_le_mono_nonneg_r; [apply Z.pow_nonneg|]; lia.
Qed.

(** The quotient of two unsigned 32-bit integers, zero when the divisor
    is zero, is at most [2^32 - 1]. *)
Lemma rationalOrZero_small num den :
  0 <= num < 2 ^ 32 -> 0 <= den < 2 ^ 32 ->
  smallNumber (2 ^ 32 - 1) (Prim2SF (rationalOrZero num den)).
Proof.
  intros Hn Hd; unfold rationalOrZero.
  assert (H53 : 2 ^ 32 < 2 ^ 53) by reflexivity.
  destruct (den =? 0) eqn:Hz; cbn [negb]; [left; exists false; reflexivity|].
  apply Z.eqb_neq in Hz.
  destruct (toNumber_finite den ltac:(lia)) as (m & e & Hden & He & Hm).
  apply (div_small_const _ _ false m e (2 ^ 32 - 1) (2 ^ 32 - 1) den);
    try assumption; try lia.
  - apply toNumber_small; lia.
  - apply Zdigits2_le; [lia|lia|]. apply Z.lt_trans with (2 ^ 32); [lia|reflexivity].
Qed.

Lemma readGpsRationals_loop_small view offset le n : forall i values result,
  Forall (fun v => smallNumber (2 ^ 32 - 1) (Prim2SF v)) values ->
  readGpsRationals_loop view offset le n i values = Normal result ->
  List.length result = (List.length values + n)%nat
  /\ Forall (fun v => smallNumber (2 ^ 32 - 1) (Prim2SF v)) result.
Proof.
  induction n as [|n IH]; intros i values result Hv; cbn [readGpsRationals_loop].
  - intros H; apply Normal_inj in H; subst; split; [lia|exact Hv].
  - destruct (getUint32 view (offset + i * 8) le) as [num|] eqn:Hnum; cbn [bind];
      [|discriminate].
    destruct (getUint32 view (offset + i * 8 + 4) le) as [den|] eqn:Hden; cbn [bind];
      [|discriminate].
    intros H; apply IH in H.
    + rewrite length_app in H; cbn [List.length] in H; split; [lia|apply H].
    + apply Forall_app; split; [exact Hv|].
      constructor; [|constructor].
      apply getUint32_range in Hnum, Hden.
      apply rationalOrZero_small; assumption.
Qed.

(** Degrees, minutes and seconds of at most [2^32 - 1] give a decimal
    value of at most [2^33] in magnitude. *)
Lemma gpsToDecimal_small (d m s : float) ref :
  smallNumber (2 ^ 32 - 1) (Prim2SF d) ->
  smallNumber (2 ^ 32 - 1) (Prim2SF m) ->
  smallNumber (2 ^ 32 - 1) (Prim2SF s) ->
  smallNumber (2 ^ 33) (Prim2SF (gpsToDecimal d m s ref)).
Proof.
  intros Hd Hm Hs.
  assert (Hsum : smallNumber (2 ^ 33) (Prim2SF (d + m / 60 + s / 3600)%float)).
  { apply smallNumber_weaken with (2 ^ 32 - 1 + 71582789 + 1193047); [lia|].
    apply add_small; [apply add_small| | | |]; try lia; try (vm_compute; discriminate);
      try assumption.
    - apply (div_small_const m 60%float false 8444249301319680 (-47)
               (2 ^ 32 - 1) 71582789 60); try assumption; try reflexivity; try lia;
        vm_compute; discriminate.
    - apply (div_small_const s 3600%float false 7916483719987200 (-41)
               (2 ^ 32 - 1) 1193047 3600); try assumption; try reflexivity; try lia;
        vm_compute; discriminate. }
  unfold gpsToDecimal; destruct (_ || _)%bool; [apply opp_small|]; exact Hsum.
Qed.

Lemma at_index_small v k :
  smallValues v -> (k < 3)%nat -> smallNumber (2 ^ 32 - 1) (Prim2SF (at_index v k)).
Proof.
  intros [Hlen Hall] Hk; unfold at_index.
  rewrite Forall_forall in Hall; apply Hall, nth_In; lia.
Qed.

Lemma scanValues_init : scanValues gpsScan0.
Proof. split; intros v; discriminate. Qed.

Lemma readGpsRationals_small view offset le values :
  readGpsRationals view offset le = Normal values -> smallValues values.
Proof.
  intros H; apply (readGpsRationals_loop_small view offset le 3 0 [] values) in H;
    [exact H|constructor].
Qed.

Lemma parseGpsIfd_entry_values view ifdOffset tiffOffset le i st st' :
  scanValues st ->
  parseGpsIfd_entry view ifdOffset tiffOffset le i st = Normal st' ->
  scanValues st'.
Proof.
  intros [Hl Hg] H; unfold parseGpsIfd_entry in H; cbv zeta in H.
  repeat bind_inv H;
    (split; intros w Hw; cbn [latValues lngValues] in Hw;
     try (apply Hl; exact Hw); try (apply Hg; exact Hw));
    injection Hw as <-; eapply readGpsRationals_small; eassumption.
Qed.

Lemma gpsCoordinates_small st :
  latitude (result st) = None -> longitude (result st) = None -> scanValues st ->
  (forall x, latitude (gpsCoordinates st) = Some x -> smallNumber (2 ^ 33) (Prim2SF x))
  /\ (forall x, longitude (gpsCoordinates st) = Some x -> smallNumber (2 ^ 33) (Prim2SF x)).
Proof.
  intros Hlat Hlng [Hl Hg]; unfold gpsCoordinates.
  destruct (latValues st) as [v|]; [specialize (Hl v eq_refl)|];
    destruct (lngValues st) as [w|]; try specialize (Hg w eq_refl);
    destruct (truthyString (latRef st)), (latRef st),
      (truthyString (lngRef st)), (lngRef st);
    cbn [latitude longitude]; rewrite ?Hlat, ?Hlng;
    split; intros x Hx; try discriminate Hx; injection Hx as <-;
    apply gpsToDecimal_small; apply at_index_small; auto.
Qed.

(** The numbers [parseGpsIfd] returns. *)
Lemma parseGpsIfd_small view ifdOffset tiffOffset le :
  let r := parseGpsIfd view ifdOffset tiffOffset le in
  (forall x, latitude r = Some x -> smallNumber (2 ^ 33) (Prim2SF x))
  /\ (forall x, longitude r = Some x -> smallNumber (2 ^ 33) (Prim2SF x))
  /\ (forall x, bearing r = Some x -> smallNumber (2 ^ 32 - 1) (Prim2SF x)).
Proof.
  cbv zeta; split; [|split].
  3:{ intros x Hx.
      destruct (parseGpsIfd_result view ifdOffset tiffOffset le) as (Hq & _).
      destruct (Hq x Hx) as (num & den & Hn & Hd & ->).
      pose proof (rationalOrZero_small num den ltac:(lia) ltac:(lia)) as Hs.
      unfold rationalOrZero in Hs.
      replace (den =? 0) with false in Hs by (symmetry; apply Z.eqb_neq; lia).
      exact Hs. }
  all: unfold parseGpsIfd;
    destruct (getUint16 view ifdOffset le) as [entryCount|] eqn:Hcount; cbv zeta;
    [|intros x; discriminate];
    pose proof (getUint16_range _ _ _ _ Hcount) as Hrange;
    pose proof (for_loop_invariant
                  (fun st => scanInv view ifdOffset le st /\ scanValues st)
                  (parseGpsIfd_entry view ifdOffset tiffOffset le)
                  (Z.to_nat entryCount) 0 gpsScan0) as Hinv;
    destruct (for_loop _ (Z.to_nat entryCount) 0 gpsScan0) as [st completed];
    cbn [fst] in Hinv;
    destruct Hinv as ((Hlat & Hlng & _) & Hv);
    [intros j t t' Hj [Hi Hs] Hb; split;
       [apply parseGpsIfd_entry_inv with (entryCount := entryCount) (4 := Hb);
          [exact Hcount|lia|exact Hi]
       |eapply parseGpsIfd_entry_values; eassumption]
    |split; [apply scanInv_init|apply scanValues_init]
    |];
    destruct completed;
    [apply (gpsCoordinates_small st Hlat Hlng Hv)|intros x Hx; congruence].
Qed.

(** X4: the latitude, longitude and bearing [extractExifData] returns are
    finite numbers, never [NaN] or an infinity, whatever the bytes of the
    file: a coordinate is at most [2^33] in magnitude and a bearing at most
    [2^32 - 1].  (A zero denominator in a coordinate counts as the value 0;
    a bearing with a zero denominator is left out.) *)
Theorem extracted_numbers_finite (file : File) (r : ExifData) :
  extractExifData file = Fulfilled r ->
  (forall x, latitude r = Some x -> (abs x <=? 0x1p+33)%float = true)
  /\ (forall x, longitude r = Some x -> (abs x <=? 0x1p+33)%float = true)
  /\ (forall x, bearing r = Some x -> (abs x <=? 4294967295)%float = true).
Proof.
  intros H; apply extractExifData_gpsFields in H.
  assert (Hsmall :
    (forall x, latitude r = Some x -> smallNumber (2 ^ 33) (Prim2SF x))
    /\ (forall x, longitude r = Some x -> smallNumber (2 ^ 33) (Prim2SF x))
    /\ (forall x, bearing r = Some x -> smallNumber (2 ^ 32 - 1) (Prim2SF x))).
  { destruct H as [(Hlat & Hlng & Hb)|(view & _ & [(Hlat & Hlng & Hb)|Hfrom])];
      try (repeat split; intros x Hx; congruence).
    destruct Hfrom as (ifdOffset & tiffOffset & le & Hlat & Hlng & Hb).
    rewrite Hlat, Hlng, Hb; apply parseGpsIfd_small. }
  destruct Hsmall as (Hlat & Hlng & Hb).
  split; [|split]; intros x Hx.
  - apply (small_abs_leb x _ 4503599627370496 (-19) (2 ^ 33)); try reflexivity; auto;
      vm_compute; discriminate.
  - apply (small_abs_leb x _ 4503599627370496 (-19) (2 ^ 33)); try reflexivity; auto;
      vm_compute; discriminate.
  - apply (small_abs_leb x _ 9007199252643840 (-21) (2 ^ 32 - 1)); try reflexivity; auto;
      vm_compute; discriminate.
Qed.

Lemma extracted_numbers_finite_witness :
  (abs (- (79 + 20 / 60 + (4948 / 100) / 3600)) <=? 0x1p+33)%float = true.
Proof.
  refine (proj1 (proj2 (extracted_numbers_finite (Vectors.jpegFile Vectors.fullJpeg)
                          (mkExifData (Some (43 + 39 / 60 + (499 / 100) / 3600)%float)
                             (Some (- (79 + 20 / 60 + (4948 / 100) / 3600))%float)
                             None (Some "2024-06-15T14:30:00Z"%string)) _))
            (- (79 + 20 / 60 + (4948 / 100) / 3600))%float _).
  - vm_compute; reflexivity.
  - reflexivity.
Defined.

(** ** [parseIfd0]: which date wins *)

Lemma parseIfd0_subIfd_keeps view ifdOffset tiffOffset le (st1 : Ifd0.t) i st st' :
  (Ifd0.gpsIfdOffset st = Ifd0.gpsIfdOffset st1
   /\ (truthyString (Ifd0.dateTaken st1) = true
       -> Ifd0.dateTaken st = Ifd0.dateTaken st1)) ->
  parseIfd0_subIfd view ifdOffset tiffOffset le i st = Normal st' ->
  Ifd0.gpsIfdOffset st' = Ifd0.gpsIfdOffset st1
  /\ (truthyString (Ifd0.dateTaken st1) = true
      -> Ifd0.dateTaken st' = Ifd0.dateTaken st1).
Proof.
  intros [Hg Hd] H; unfold parseIfd0_subIfd in H; cbv zeta in H.
  repeat bind_inv H; try (split; assumption).
  cbn [Ifd0.gpsIfdOffset Ifd0.dateTaken]; split; [exact Hg|].
  intros Ht; exfalso.
  match goal with
  | E : (_ && negb _)%bool = true |- _ =>
      apply andb_prop in E as [_ E]; rewrite (Hd Ht), Ht in E; discriminate E
  end.
Qed.

(** X5: a date found in IFD0 itself is the one [parseIfd0] returns: the
    second loop, which follows the pointer to the EXIF sub-IFD, replaces
    neither a date the first loop has set nor the GPS pointer. *)
Theorem parseIfd0_date_precedence
    (view : DataView) (ifdOffset tiffOffset : Z) (littleEndian : bool)
    (entryCount : Z) (st1 : Ifd0.t) :
  getUint16 view ifdOffset littleEndian = Normal entryCount ->
  for_loop (parseIfd0_tags view ifdOffset tiffOffset littleEndian)
    (Z.to_nat entryCount) 0 (Ifd0.mk None None) = (st1, true) ->
  Ifd0.gpsIfdOffset (parseIfd0 view ifdOffset tiffOffset littleEndian)
  = Ifd0.gpsIfdOffset st1
  /\ (truthyString (Ifd0.dateTaken st1) = true ->
      Ifd0.dateTaken (parseIfd0 view ifdOffset tiffOffset littleEndian)
      = Ifd0.dateTaken st1).
Proof.
  intros Hcount Hloop; unfold parseIfd0; rewrite Hcount; cbv zeta; rewrite Hloop.
  apply (for_loop_invariant
           (fun st => Ifd0.gpsIfdOffset st = Ifd0.gpsIfdOffset st1
                      /\ (truthyString (Ifd0.dateTaken st1) = true
                          -> Ifd0.dateTaken st = Ifd0.dateTaken st1))).
  - intros j t t' _; apply parseIfd0_subIfd_keeps.
  - split; [reflexivity|intros _; reflexivity].
Qed.

Lemma parseIfd0_date_precedence_witness :
  Ifd0.dateTaken (parseIfd0 twoDatesTiff 8 0 false) = Some "2024-06-15T14:30:00Z"%string
  /\ parseDateFromExifIfd twoDatesTiff 58 0 false = Some "1999-01-01T00:00:00Z"%string.
Proof.
  split; [|vm_compute; reflexivity].
  refine (proj2 (parseIfd0_date_precedence twoDatesTiff 8 0 false 2
                   (Ifd0.mk None (Some "2024-06-15T14:30:00Z"%string)) _ _) _);
    vm_compute; reflexivity.
Defined.

(** ** The segment scan of [extractExifData] *)

Lemma land_marker_all :
  forallb (fun a => forallb (fun c => negb (Z.land (256 * a + c) 0xff00 =? 0xff00))
                      (range 256))
          (range 255) = true.
Proof. vm_compute; reflexivity. Qed.

Lemma In_range n k : 0 <= k < Z.of_nat n -> In k (range n).
Proof.
  intros Hk; unfold range; apply in_map_iff; exists (Z.to_nat k).
  split; [lia|apply in_seq; lia].
Qed.

(** A marker whose first byte is not 0xFF is not a segment marker. *)
Lemma land_marker a c :
  0 <= a < 255 -> 0 <= c < 256 -> (Z.land (256 * a + c) 0xff00 =? 0xff00) = false.
Proof.
  intros Ha Hc; pose proof land_marker_all as Hall.
  rewrite forallb_forall in Hall; specialize (Hall a (In_range 255 a ltac:(lia))).
  rewrite forallb_forall in Hall; specialize (Hall c (In_range 256 c ltac:(lia))).
  apply negb_true_iff in Hall; exact Hall.
Qed.

Lemma getUint16_bytes view offset v :
  getUint16 view offset false = Normal v ->
  v = 256 * byteAt view offset + byteAt view (offset + 1).
Proof.
  unfold getUint16; destruct (inBounds view offset 2); [|discriminate].
  intros H; apply Normal_inj in H; auto.
Qed.

(** X6: an APP1 segment that is the first segment of the file and does
    not start with the EXIF header, its first byte not being 0xFF, ends
    the scan: the loop goes on inside the segment, reads its first two
    bytes as a marker and breaks, so the result is all-absent whatever
    follows, a later EXIF segment included. *)
Theorem app1_without_exif_ends_scan (file : File) (l0 l1 : byte) (payload : list byte) :
  let buffer := [xff; xd8; xff; xe1; l0; l1] ++ payload in
  arrayBuffer file = Normal buffer ->
  readHeader buffer 6 <> Normal EXIF_HEADER ->
  byteAt buffer 6 <> 255 ->
  extractExifData file = Fulfilled allAbsent.
Proof.
  intros buffer Hbuf Hheader Hbyte.
  unfold extractExifData, extractExifData_run.
  destruct (negb (startsWith (type file) "image/jpeg") && _)%bool; [reflexivity|].
  rewrite Hbuf.
  assert (H0 : getUint16 buffer 0 false = Normal 0xffd8)
    by (apply (getUint16_at buffer 0 xff xd8); [lia|reflexivity|reflexivity]).
  assert (H2 : getUint16 buffer 2 false = Normal EXIF_MARKER)
    by (apply (getUint16_at buffer 2 xff xe1); [lia|reflexivity|reflexivity]).
  assert (H4 : exists len, getUint16 buffer 4 false = Normal len).
  { eexists; apply (getUint16_at buffer 4 l0 l1); [lia|reflexivity|reflexivity]. }
  destruct H4 as [len H4].
  rewrite H0; cbn [Z.eqb Pos.eqb negb].
  assert (Hlen : List.length buffer = (6 + List.length payload)%nat) by reflexivity.
  rewrite Hlen; cbn [Nat.add findExifSegment].
  destruct (negb (2 <? byteLength buffer - 4)); [reflexivity|].
  rewrite H2, Z.eqb_refl.
  change (2 + 2) with 4; rewrite H4.
  change (4 + 2) with 6.
  destruct (readHeader buffer 6) as [header|] eqn:Hh; [|reflexivity].
  destruct (String.eqb header EXIF_HEADER) eqn:He.
  { apply String.eqb_eq in He; subst header; exfalso; apply Hheader; reflexivity. }
  destruct (negb (6 <? byteLength buffer - 4)); [reflexivity|].
  destruct (getUint16 buffer 6 false) as [marker|] eqn:Hm; [|reflexivity].
  apply getUint16_bytes in Hm.
  pose proof (byteAt_range buffer 6) as Hr6.
  pose proof (byteAt_range buffer (6 + 1)) as Hr7.
  replace (marker =? EXIF_MARKER) with false
    by (symmetry; apply Z.eqb_neq; unfold EXIF_MARKER; lia).
  rewrite Hm, land_marker by lia; reflexivity.
Qed.

Lemma app1_without_exif_ends_scan_witness :
  extractExifData
    (Vectors.jpegFile
       ([xff; xd8; xff; xe1; x00; x20]
          ++ (Vectors.text "http://ns.adobe.com/xap/1.0/" ++ [x00] ++ Vectors.fullJpeg)))
  = Fulfilled allAbsent.
Proof.
  apply (app1_without_exif_ends_scan _ x00 x20
           (Vectors.text "http://ns.adobe.com/xap/1.0/" ++ [x00] ++ Vectors.fullJpeg)).
  - reflexivity.
  - vm_compute; discriminate.
  - vm_compute; discriminate.
Defined.

(** ** Decoding what the encoder wrote *)

Lemma byte_value k : 0 <= k < 256 -> Z.of_N (Byte.to_N (Vectors.b k)) = k.
Proof.
  intros Hk; unfold Vectors.b.
  destruct (Byte.of_N (Z.to_N k)) as [x|] eqn:Hx.
  - apply Byte.to_of_N in Hx; rewrite Hx; lia.
  - apply Byte.of_N_None_iff in Hx; lia.
Qed.

Lemma firstn_skipn_nth {A : Type} (l : list A) k m x rest :
  firstn (S m) (skipn k l) = x :: rest ->
  nth_error l k = Some x /\ firstn m (skipn (S k) l) = rest.
Proof.
  revert l; induction k as [|k IH]; intros [|a l]; cbn [skipn firstn nth_error];
    try discriminate.
  - intros [= -> <-]; split; reflexivity.
  - intros H; change (firstn (S m) (skipn k l) = x :: rest) in H.
    apply IH in H; exact H.
Qed.

Lemma u32_bytes n :
  0 <= n < 2 ^ 32 ->
  0 <= n / 65536 / 256 < 256
  /\ 0 <= (n / 65536) mod 256 < 256
  /\ 0 <= n mod 65536 / 256 < 256
  /\ 0 <= (n mod 65536) mod 256 < 256
  /\ 16777216 * (n / 65536 / 256) + 65536 * ((n / 65536) mod 256)
     + 256 * (n mod 65536 / 256) + (n mod 65536) mod 256 = n.
Proof.
  intros Hn; change (2 ^ 32) with 4294967296 in Hn.
  assert (H1 : 0 <= n / 65536 < 65536)
    by (split; [apply Z.div_pos; lia|apply Z.div_lt_upper_bound; lia]).
  pose proof (Z.mod_pos_bound n 65536 ltac:(lia)) as H2.
  split; [split; [apply Z.div_pos; lia|apply Z.div_lt_upper_bound; lia]|].
  split; [apply Z.mod_pos_bound; lia|].
  split; [split; [apply Z.div_pos; lia|apply Z.div_lt_upper_bound; lia]|].
  split; [apply Z.mod_pos_bound; lia|].
  pose proof (Z.div_mod n 65536 ltac:(lia)) as E1.
  pose proof (Z.div_mod (n / 65536) 256 ltac:(lia)) as E2.
  pose proof (Z.div_mod (n mod 65536) 256 ltac:(lia)) as E3.
  lia.
Qed.

Lemma getUint32_u32 view k n le :
  0 <= k -> 0 <= n < 2 ^ 32 ->
  firstn 4 (skipn (Z.to_nat k) view) = Encoder.u32 le n ->
  getUint32 view k le = Normal n.
Proof.
  intros Hk Hn H; unfold Encoder.u32 in H.
  apply firstn_skipn_nth in H as [H0 H].
  apply firstn_skipn_nth in H as [H1 H].
  apply firstn_skipn_nth in H as [H2 H].
  apply firstn_skipn_nth in H as [H3 _].
  assert (Hlen : (S (S (S (Z.to_nat k))) < List.length view)%nat)
    by (apply nth_error_Some; congruence).
  unfold getUint32, inBounds, byteAt, byteLength.
  replace ((0 <=? k) && (k + 4 <=? Z.of_nat (List.length view)))%bool with true
    by (symmetry; apply andb_true_intro; split; apply Z.leb_le; lia).
  replace (Z.to_nat (k + 1)) with (S (Z.to_nat k)) by lia.
  replace (Z.to_nat (k + 2)) with (S (S (Z.to_nat k))) by lia.
  replace (Z.to_nat (k + 3)) with (S (S (S (Z.to_nat k)))) by lia.
  rewrite H0, H1, H2, H3.
  clear H0 H1 H2 H3 Hlen.
  destruct (u32_bytes n Hn) as (B0 & B1 & B2 & B3 & Hsum).
  destruct le; rewrite !byte_value by assumption; f_equal; rewrite <- Hsum at 5; ring.
Qed.

Lemma getUint8_char view k c :
  0 <= k ->
  nth_error view (Z.to_nat k) = Some (Vectors.b (Z.of_N (N_of_ascii c))) ->
  getUint8 view k = Normal (Z.of_N (N_of_ascii c)).
Proof.
  intros Hk H; rewrite (getUint8_at view k _ Hk H), byte_value; [reflexivity|].
  pose proof (N_ascii_bounded c); lia.
Qed.

(** Offsets written as sums, brought to numerals. *)
Ltac norm_offset f :=
  match goal with
  | |- context [f ?v ?k] =>
      lazymatch k with
      | Zpos _ => fail
      | Z0 => fail
      | _ => let k' := eval vm_compute in k in progress change k with k'
      end
  end.

Ltac norm_offset3 f :=
  match goal with
  | |- context [f ?v ?k ?le] =>
      lazymatch k with
      | Zpos _ => fail
      | Z0 => fail
      | _ => let k' := eval vm_compute in k in progress change k with k'
      end
  end.

Ltac norm_offsets :=
  repeat first [norm_offset3 getUint16 | norm_offset3 getUint32 | norm_offset getUint8
               | norm_offset readExifDate | norm_offset3 readGpsRationals_loop ].

(** A read of bytes the encoder fixed. *)
Ltac read_fixed :=
  match goal with
  | |- context [getUint16 ?v ?k ?le] =>
      let r := eval vm_compute in (getUint16 v k le) in
      lazymatch r with
      | Normal (Zpos _) => change (getUint16 v k le) with r
      | Normal Z0 => change (getUint16 v k le) with r
      end
  | |- context [getUint32 ?v ?k ?le] =>
      let r := eval vm_compute in (getUint32 v k le) in
      lazymatch r with
      | Normal (Zpos _) => change (getUint32 v k le) with r
      | Normal Z0 => change (getUint32 v k le) with r
      end
  end.

Ltac norm_nat :=
  match goal with
  | |- context [Z.to_nat ?k] =>
      let n := eval vm_compute in (Z.to_nat k) in change (Z.to_nat k) with n
  end.

(** One pass over a parser applied to the encoded block: offsets are
    brought to numerals, reads of fixed bytes are computed and the
    conditionals they decide are reduced. *)
Ltac walk_step :=
  first
    [ progress norm_offsets
    | norm_nat
    | progress cbn [bind try_catch negb andb orb for_loop fst snd Z.eqb Pos.eqb
                    isDateTag truthyString truthyNumber readGpsRationals_loop
                    Ifd0.gpsIfdOffset Ifd0.dateTaken List.app
                    latRef lngRef latValues lngValues result gpsScan0]
    | read_fixed
    | progress unfold parseIfd0_tags, parseIfd0_subIfd, parseGpsIfd_entry,
        readGpsRationals, isDateTag, GPS_IFD_POINTER, GPS_LATITUDE,
        GPS_LATITUDE_REF, GPS_LONGITUDE, GPS_LONGITUDE_REF, GPS_IMG_DIRECTION,
        DATE_TIME_ORIGINAL, DATE_TIME_DIGITIZED ].

Ltac walk H := repeat first [ rewrite H | walk_step ].

Lemma refString_char c : refString (Z.of_N (N_of_ascii c)) = String c EmptyString.
Proof.
  unfold refString, fromCharCode; rewrite N2Z.id, ascii_N_embedding; reflexivity.
Qed.

(** A block under a marker, written in the byte order the marker
    selects, is decoded to what was encoded. *)
Lemma marked_block_decodes
    (m0 m1 : byte) (littleEndian : bool) (declaredLength : Z)
    (year month day hour min sec : string)
    (latitudeRef longitudeRef : ascii) (lat lng : Dms) (direction : Rational) :
  (markerOf m0 m1 =? 0x4949) = littleEndian ->
  digitString 4 year -> digitString 2 month -> digitString 2 day ->
  digitString 2 hour -> digitString 2 min -> digitString 2 sec ->
  unsigned32Dms lat -> unsigned32Dms lng -> unsigned32 direction ->
  extractExifData
    (Vectors.jpegFile
       (Vectors.jpegOf declaredLength
          (Encoder.marked m0 m1 littleEndian (exifDateText year month day hour min sec)
             latitudeRef lat longitudeRef lng direction)))
  = Fulfilled
      (mkExifData
         (Some (decimalOf lat latitudeRef))
         (Some (decimalOf lng longitudeRef))
         (if denominator direction =? 0 then None
          else Some (toNumber (numerator direction) / toNumber (denominator direction))%float)
         (Some (isoDateText year month day hour min sec))).
Proof.
  intros Hmarker Hy Hmo Hd Hh Hmi Hs Hlat Hlng Hdir.
  match goal with
  | |- extractExifData (Vectors.jpegFile (Vectors.jpegOf _ ?tiff)) = _ =>
      destruct (extractExifData_jpegOf declaredLength tiff) as [maxLength ->]
  end.
  f_equal.
  assert (Hdate : forall view,
             holdsText view 50 (exifDateText year month day hour min sec) ->
             readExifDate view 50 = Some (isoDateText year month day hour min sec)).
  { intros view Hv; apply readExifDate_of_text; assumption. }
  destruct Hy as [Hy _], Hmo as [Hmo _], Hd as [Hd _], Hh as [Hh _], Hmi as [Hmi _],
    Hs as [Hs _].
  four_chars year Hy; two_chars month Hmo; two_chars day Hd;
    two_chars hour Hh; two_chars min Hmi; two_chars sec Hs.
  destruct lat as [[n0 d0] [n1 d1] [n2 d2]], lng as [[n3 d3] [n4 d4] [n5 d5]],
    direction as [n6 d6].
  destruct Hlat as ([Hn0 Hd0] & [Hn1 Hd1] & [Hn2 Hd2]),
    Hlng as ([Hn3 Hd3] & [Hn4 Hd4] & [Hn5 Hd5]), Hdir as [Hn6 Hd6].
  cbn [numerator denominator degrees minutes seconds] in *.
  destruct littleEndian; [pose (le := true)|pose (le := false)].
  all: match goal with |- parseExifData ?v _ _ = _ => set (view := v) end.
  all: specialize (Hdate view ltac:(split; [lia|reflexivity])).
  all: assert (R136 : getUint32 view 136 le = Normal n0)
    by (apply getUint32_u32; [lia|assumption|reflexivity]).
  all: assert (R140 : getUint32 view 140 le = Normal d0)
    by (apply getUint32_u32; [lia|assumption|reflexivity]).
  all: assert (R144 : getUint32 view 144 le = Normal n1)
    by (apply getUint32_u32; [lia|assumption|reflexivity]).
  all: assert (R148 : getUint32 view 148 le = Normal d1)
    by (apply getUint32_u32; [lia|assumption|reflexivity]).
  all: assert (R152 : getUint32 view 152 le = Normal n2)
    by (apply getUint32_u32; [lia|assumption|reflexivity]).
  all: assert (R156 : getUint32 view 156 le = Normal d2)
    by (apply getUint32_u32; [lia|assumption|reflexivity]).
  all: assert (R160 : getUint32 view 160 le = Normal n3)
    by (apply getUint32_u32; [lia|assumption|reflexivity]).
  all: assert (R164 : getUint32 view 164 le = Normal d3)
    by (apply getUint32_u32; [lia|assumption|reflexivity]).
  all: assert (R168 : getUint32 view 168 le = Normal n4)
    by (apply getUint32_u32; [lia|assumption|reflexivity]).
  all: assert (R172 : getUint32 view 172 le = Normal d4)
    by (apply getUint32_u32; [lia|assumption|reflexivity]).
  all: assert (R176 : getUint32 view 176 le = Normal n5)
    by (apply getUint32_u32; [lia|assumption|reflexivity]).
  all: assert (R180 : getUint32 view 180 le = Normal d5)
    by (apply getUint32_u32; [lia|assumption|reflexivity]).
  all: assert (R184 : getUint32 view 184 le = Normal n6)
    by (apply getUint32_u32; [lia|assumption|reflexivity]).
  all: assert (R188 : getUint32 view 188 le = Normal d6)
    by (apply getUint32_u32; [lia|assumption|reflexivity]).
  all: assert (R80 : getUint8 view 80 = Normal (Z.of_N (N_of_ascii latitudeRef)))
    by (apply getUint8_char; [lia|reflexivity]).
  all: assert (R104 : getUint8 view 104 = Normal (Z.of_N (N_of_ascii longitudeRef)))
    by (apply getUint8_char; [lia|reflexivity]).
  all: subst le.
  all: assert (Hifd0 : parseIfd0 view 20 12 _
                       = Ifd0.mk (Some 58)
                           (Some (isoDateText
                                    (String a (String a0 (String a1 (String a2 EmptyString))))
                                    (String a3 (String a4 EmptyString))
                                    (String a5 (String a6 EmptyString))
                                    (String a7 (String a8 EmptyString))
                                    (String a9 (String a10 EmptyString))
                                    (String a11 (String a12 EmptyString)))))
    by (match type of R136 with getUint32 _ _ ?b = _ => instantiate (1 := b) end;
        unfold parseIfd0; walk Hdate; reflexivity).
  all: assert (Hgps : parseGpsIfd view 70 12 _
                      = mkExifData
                          (Some (gpsToDecimal (rationalOrZero n0 d0) (rationalOrZero n1 d1)
                                   (rationalOrZero n2 d2) (String latitudeRef EmptyString)))
                          (Some (gpsToDecimal (rationalOrZero n3 d3) (rationalOrZero n4 d4)
                                   (rationalOrZero n5 d5) (String longitudeRef EmptyString)))
                          (if d6 =? 0 then None else Some (toNumber n6 / toNumber d6)%float)
                          None)
    by (match type of R136 with getUint32 _ _ ?b = _ => instantiate (1 := b) end;
        unfold parseGpsIfd;
        repeat first
          [ rewrite R80 | rewrite R104
          | rewrite R136 | rewrite R140 | rewrite R144 | rewrite R148 | rewrite R152
          | rewrite R156 | rewrite R160 | rewrite R164 | rewrite R168 | rewrite R172
          | rewrite R176 | rewrite R180 | rewrite R184 | rewrite R188
          | walk_step ];
        rewrite !refString_char;
        destruct (d6 =? 0); cbn [negb fst snd setBearing]; reflexivity).
  all: unfold parseExifData.
  all: replace (getUint16 view 12 false) with (Normal (markerOf m0 m1)) by reflexivity.
  all: cbn [bind]; rewrite Hmarker.
  all: unfold tiffWalk; walk Hifd0.
  all: change (12 + 8) with 20; rewrite Hifd0.
  all: cbn [Ifd0.gpsIfdOffset Ifd0.dateTaken truthyNumber Z.eqb negb].
  all: change (12 + 58) with 70; rewrite Hgps.
  all: cbn [truthyString isoDateText String.append try_catch].
  all: unfold spread, orElse; cbn [latitude longitude bearing dateTaken].
  all: destruct (d6 =? 0); reflexivity.
Qed.



(** ** C4: the byte-order marker *)

(** C4, counterexample: a TIFF header whose byte-order marker is 0x0000,
    neither 'II' nor 'MM', is walked (big-endian) and its date extracted. *)
Lemma unknown_byte_order_is_walked :
  getUint16 (Vectors.dateJpeg [Vectors.b 0; Vectors.b 0]) 12 false = Normal 0
  /\ extractExifData (Vectors.jpegFile (Vectors.dateJpeg [Vectors.b 0; Vectors.b 0]))
     = Fulfilled (mkExifData None None None (Some "2024-06-15T14:30:00Z"%string)).
Proof. split; vm_compute; reflexivity. Qed.

(** A block written in the byte order the marker does not select: the
    magic number 42 is read as 0x2A00 and nothing is extracted. *)
Lemma misordered_block_absent
    (m0 m1 : byte) (littleEndian : bool) (declaredLength : Z)
    (year month day hour min sec : string)
    (latitudeRef longitudeRef : ascii) (lat lng : Dms) (direction : Rational) :
  (markerOf m0 m1 =? 0x4949) = negb littleEndian ->
  digitString 4 year -> digitString 2 month -> digitString 2 day ->
  digitString 2 hour -> digitString 2 min -> digitString 2 sec ->
  extractExifData
    (Vectors.jpegFile
       (Vectors.jpegOf declaredLength
          (Encoder.marked m0 m1 littleEndian (exifDateText year month day hour min sec)
             latitudeRef lat longitudeRef lng direction)))
  = Fulfilled allAbsent.
Proof.
  intros Hmarker [Hy _] [Hmo _] [Hd _] [Hh _] [Hmi _] [Hs _].
  match goal with
  | |- extractExifData (Vectors.jpegFile (Vectors.jpegOf _ ?tiff)) = _ =>
      destruct (extractExifData_jpegOf declaredLength tiff) as [maxLength ->]
  end.
  f_equal.
  four_chars year Hy; two_chars month Hmo; two_chars day Hd;
    two_chars hour Hh; two_chars min Hmi; two_chars sec Hs.
  match goal with |- parseExifData ?v _ _ = _ => set (view := v) end.
  unfold parseExifData.
  replace (getUint16 view 12 false) with (Normal (markerOf m0 m1)) by reflexivity.
  cbn [bind]; rewrite Hmarker.
  unfold tiffWalk; subst view.
  destruct littleEndian; cbn [negb]; norm_offsets; read_fixed; reflexivity.
Qed.

(** C4, as amended: the marker 'II' (0x4949) selects little-endian reads
    and every other value of the two marker bytes, 'MM' or not, selects
    big-endian reads; no value of the marker is by itself a parse failure.
    Under the marker 'II' a block written little-endian is decoded to what
    it encodes and the same block written big-endian gives nothing; under
    any other marker it is the big-endian block that is decoded and the
    little-endian one that gives nothing. *)
Theorem byte_order_marker
    (m0 m1 : byte) (declaredLength : Z)
    (year month day hour min sec : string)
    (latitudeRef longitudeRef : ascii) (lat lng : Dms) (direction : Rational) :
  digitString 4 year -> digitString 2 month -> digitString 2 day ->
  digitString 2 hour -> digitString 2 min -> digitString 2 sec ->
  unsigned32Dms lat -> unsigned32Dms lng -> unsigned32 direction ->
  let file (littleEndian : bool) :=
    Vectors.jpegFile
      (Vectors.jpegOf declaredLength
         (Encoder.marked m0 m1 littleEndian (exifDateText year month day hour min sec)
            latitudeRef lat longitudeRef lng direction)) in
  let decoded :=
    mkExifData
      (Some (decimalOf lat latitudeRef))
      (Some (decimalOf lng longitudeRef))
      (if denominator direction =? 0 then None
       else Some (toNumber (numerator direction) / toNumber (denominator direction))%float)
      (Some (isoDateText year month day hour min sec)) in
  (forall littleEndian,
      arrayBuffer (file littleEndian) = Normal (Vectors.jpegOf declaredLength
         (Encoder.marked m0 m1 littleEndian (exifDateText year month day hour min sec)
            latitudeRef lat longitudeRef lng direction))
      /\ getUint16 (Vectors.jpegOf declaredLength
           (Encoder.marked m0 m1 littleEndian (exifDateText year month day hour min sec)
              latitudeRef lat longitudeRef lng direction)) 12 false
         = Normal (markerOf m0 m1))
  /\ (markerOf m0 m1 = 0x4949 ->
      extractExifData (file true) = Fulfilled decoded
      /\ extractExifData (file false) = Fulfilled allAbsent)
  /\ (markerOf m0 m1 <> 0x4949 ->
      extractExifData (file false) = Fulfilled decoded
      /\ extractExifData (file true) = Fulfilled allAbsent).
Proof.
  intros Hy Hmo Hd Hh Hmi Hs Hlat Hlng Hdir; cbv zeta.
  split.
  { intros le; split; [reflexivity|].
    destruct Hy as [Hy _], Hmo as [Hmo _], Hd as [Hd _], Hh as [Hh _], Hmi as [Hmi _],
      Hs as [Hs _].
    four_chars year Hy; two_chars month Hmo; two_chars day Hd;
      two_chars hour Hh; two_chars min Hmi; two_chars sec Hs.
    reflexivity. }
  split; intros Hm.
  - apply Z.eqb_eq in Hm; split.
    + apply marked_block_decodes; assumption.
    + apply misordered_block_absent; assumption.
  - apply Z.eqb_neq in Hm; split.
    + apply marked_block_decodes; assumption.
    + apply misordered_block_absent; assumption.
Qed.

(** The marker 'XX': the big-endian block is decoded. *)
Lemma byte_order_marker_witness :
  extractExifData
    (Vectors.jpegFile
       (Vectors.jpegOf 196
          (Encoder.marked "X" "X" false "2024:06:15 14:30:00"
             "N" (mkDms (mkRational 43 1) (mkRational 39 1) (mkRational 499 100))
             "W" (mkDms (mkRational 79 1) (mkRational 20 1) (mkRational 4948 100))
             (mkRational 45 2))))
  = Fulfilled
      (mkExifData (Some (43 + 39 / 60 + (499 / 100) / 3600)%float)
                  (Some (- (79 + 20 / 60 + (4948 / 100) / 3600))%float)
                  (Some 22.5%float)
                  (Some "2024-06-15T14:30:00Z"%string)).
Proof.
  refine (proj1 (proj2 (proj2
            (byte_order_marker "X" "X" 196 "2024" "06" "15" "14" "30" "00"
               "N" "W"
               (mkDms (mkRational 43 1) (mkRational 39 1) (mkRational 499 100))
               (mkDms (mkRational 79 1) (mkRational 20 1) (mkRational 4948 100))
               (mkRational 45 2) _ _ _ _ _ _ _ _ _)) _));
    try (split; reflexivity);
    try (repeat split; cbn; lia).
Defined.

(** ** The size of a thumbnail *)

Lemma SFmul_small sx mx ex sy my ey A B :
  boundedBy A 0 (Zpos mx) ex -> boundedBy B 0 (Zpos my) ey ->
  0 < A -> 0 < B -> Zdigits2 (A * B) <= 53 ->
  smallNumber (A * B) (SFmul prec emax (S754_finite sx mx ex) (S754_finite sy my ey)).
Proof.
  intros [Hex Hmx] [Hey Hmy] HA HB Hd; unfold SFmul.
  eapply roundedBelow_small, binary_round_aux_bound; try lia.
  - revert Hd; unfold fexp, SpecFloat.emin, prec, emax; lia.
  - unfold emax, prec; lia.
  - split; [lia|].
    rewrite Pos2Z.inj_mul.
    replace (0 - (ex + ey)) with ((0 - ex) + (0 - ey)) by lia.
    rewrite Z.pow_add_r by lia.
    assert (0 < 2 ^ (0 - ex)) by (apply Z.pow_pos_nonneg; lia).
    assert (0 < 2 ^ (0 - ey)) by (apply Z.pow_pos_nonneg; lia).
    replace (A * B * (2 ^ (0 - ex) * 2 ^ (0 - ey)))
      with ((A * 2 ^ (0 - ex)) * (B * 2 ^ (0 - ey))) by ring.
    apply Z.mul_le_mono_nonneg; lia.
  - intros Hne; exfalso; apply Hne; reflexivity.
Qed.

Lemma mul_small (x y : float) A B :
  smallNumber A (Prim2SF x) -> smallNumber B (Prim2SF y) ->
  0 < A -> 0 < B -> Zdigits2 (A * B) <= 53 ->
  smallNumber (A * B) (Prim2SF (x * y)%float).
Proof.
  intros Hx Hy HA HB Hd; rewrite FloatAxioms.mul_spec.
  destruct Hx as [[sx ->]|(sx & mx & ex & -> & Hbx)];
    destruct Hy as [[sy ->]|(sy & my & ey & -> & Hby)];
    try (left; eexists; reflexivity).
  apply SFmul_small; assumption.
Qed.

Lemma mul_nonneg_small (x y : float) A B :
  smallNumber A (Prim2SF x) -> nonneg_sf (Prim2SF x) ->
  smallNumber B (Prim2SF y) -> nonneg_sf (Prim2SF y) ->
  nonneg_sf (Prim2SF (x * y)%float).
Proof.
  intros Hx Hnx Hy Hny; rewrite FloatAxioms.mul_spec.
  destruct Hx as [[sx Hx]|(sx & mx & ex & Hx & _)];
    destruct Hy as [[sy Hy]|(sy & my & ey & Hy & _)];
    rewrite Hx, Hy in *; cbn [SF64mul SFmul]; try (constructor; fail).
  inversion Hnx; inversion Hny; subst.
  apply signed_nonneg, binary_round_aux_signed; lia.
Qed.

(** The binary64 number of a positive integer is normal. *)
Lemma toNumber_normal n :
  0 < n < 2 ^ 53 ->
  exists m e,
    Prim2SF (toNumber n) = S754_finite false m e
    /\ e <= 0 /\ Zpos m = n * 2 ^ (- e) /\ 2 ^ 52 <= Zpos m < 2 ^ 53.
Proof.
  intros Hn; destruct (toNumber_finite n Hn) as (m & e & Hx & He & Hm).
  exists m, e; split; [exact Hx|split; [exact He|split; [exact Hm|]]].
  destruct (finite_valid _ _ _ _ Hx) as (Hc & _ & Hm53 & _).
  split; [|exact Hm53].
  assert (Hp : 0 < 2 ^ (- e)) by (apply Z.pow_pos_nonneg; lia).
  pose proof (Zdigits2_lt (Zpos m) ltac:(lia)) as Hlt.
  assert (Hdig : - e < Zdigits2 (Zpos m)).
  { apply (Z.pow_lt_mono_r_iff 2); [lia|apply Zdigits2_nonneg|]. nia. }
  change (Zdigits2 (Zpos m)) with (Zpos (digits2_pos m)) in *.
  assert (Hd : Zpos (digits2_pos m) = 53).
  { revert Hc; unfold fexp, SpecFloat.emin, prec, emax; lia. }
  pose proof (Zdigits2_ge (Zpos m) ltac:(lia)) as Hge.
  change (Zdigits2 (Zpos m)) with (Zpos (digits2_pos m)) in Hge.
  rewrite Hd in Hge; exact Hge.
Qed.

(** Comparing the numbers of two integers compares the integers. *)
Lemma toNumber_ltb a b :
  0 <= a < 2 ^ 53 -> 0 <= b < 2 ^ 53 ->
  (toNumber a <? toNumber b)%float = (a <? b).
Proof.
  intros Ha Hb; rewrite FloatAxioms.ltb_spec.
  destruct (Z.eq_dec a 0) as [->|Ha0]; destruct (Z.eq_dec b 0) as [->|Hb0].
  - reflexivity.
  - destruct (toNumber_normal b ltac:(lia)) as (mb & eb & -> & _).
    symmetry; apply Z.ltb_lt; lia.
  - destruct (toNumber_normal a ltac:(lia)) as (ma & ea & -> & _).
    symmetry; apply Z.ltb_ge; lia.
  - destruct (toNumber_normal a ltac:(lia)) as (ma & ea & -> & Hea & Hma & Hna).
    destruct (toNumber_normal b ltac:(lia)) as (mb & eb & -> & Heb & Hmb & Hnb).
    unfold SFltb, SFcompare.
    assert (Hpa : 0 < 2 ^ (- ea)) by (apply Z.pow_pos_nonneg; lia).
    assert (Hpb : 0 < 2 ^ (- eb)) by (apply Z.pow_pos_nonneg; lia).
    change (2 ^ 53) with (2 * 2 ^ 52) in Hna, Hnb.
    destruct (Z.compare_spec ea eb) as [Heq|Hlt|Hgt].
    + subst eb; rewrite Pos.compare_cont_spec; simpl Pos.switch_Eq.
      destruct (Pos.compare_spec ma mb) as [Hc|Hc|Hc].
      * symmetry; apply Z.ltb_ge; assert (Zpos ma = Zpos mb) by congruence; nia.
      * symmetry; apply Z.ltb_lt; apply Pos2Z.pos_lt_pos in Hc; nia.
      * symmetry; apply Z.ltb_ge; apply Pos2Z.pos_lt_pos in Hc; nia.
    + symmetry; apply Z.ltb_lt.
      assert (H2 : 2 * 2 ^ (- eb) <= 2 ^ (- ea)).
      { replace (- ea) with (1 + (- eb) + (eb - ea - 1)) by lia.
        rewrite !Z.pow_add_r by lia.
        assert (0 < 2 ^ (eb - ea - 1)) by (apply Z.pow_pos_nonneg; lia).
        change (2 ^ 1) with 2. nia. }
      nia.
    + symmetry; apply Z.ltb_ge.
      assert (H2 : 2 * 2 ^ (- ea) <= 2 ^ (- eb)).
      { replace (- eb) with (1 + (- ea) + (ea - eb - 1)) by lia.
        rewrite !Z.pow_add_r by lia.
        assert (0 < 2 ^ (ea - eb - 1)) by (apply Z.pow_pos_nonneg; lia).
        change (2 ^ 1) with 2. nia. }
      nia.
Qed.


(** The side that is scaled: [Math.round(side * 400 / longer)]. *)
Lemma scaled_side side longer :
  0 <= side < 2 ^ 32 -> 400 < longer < 2 ^ 32 -> side <= longer ->
  exists n,
    integerOf (Math_round (toNumber side * 400 / toNumber longer)%float) = Some n
    /\ 0 <= n <= Z.min side 400.
Proof.
  intros Hs Hl Hsl.
  assert (H32 : 2 ^ 32 < 2 ^ 52) by reflexivity.
  assert (H53 : 2 ^ 52 < 2 ^ 53) by reflexivity.
  destruct (toNumber_finite longer ltac:(lia)) as (ml & el & Hlong & Hel & Hml).
  destruct (Z.eq_dec side 0) as [->|Hs0].
  - exists 0; split; [|lia].
    assert (Hz : Prim2SF (toNumber 0 * 400 / toNumber longer)%float = S754_zero false).
    { rewrite FloatAxioms.div_spec, Hlong; reflexivity. }
    unfold Math_round, integerOf; rewrite Hz, Hz; reflexivity.
  - set (C := Z.min side 400).
    assert (Hside : smallNumber side (Prim2SF (toNumber side)))
      by (apply toNumber_small; lia).
    assert (H400 : smallNumber 400 (Prim2SF 400%float))
      by (apply (toNumber_small 400 400); lia).
    assert (Hprod : smallNumber (side * 400) (Prim2SF (toNumber side * 400)%float)).
    { apply mul_small; try assumption; try lia.
      apply Zdigits2_le; [lia|lia|]. change (2 ^ 53) with (2 ^ 32 * 2097152). lia. }
    assert (Hq : smallNumber C (Prim2SF (toNumber side * 400 / toNumber longer)%float)).
    { apply (div_small_const _ _ false ml el (side * 400) C longer);
        try assumption; unfold C; try lia.
      - apply Zdigits2_le; [lia|lia|]. lia.
      - destruct (Z.min_spec side 400) as [[_ ->]|[_ ->]]; nia. }
    assert (Hnn : nonneg_sf (Prim2SF (toNumber side * 400 / toNumber longer)%float)).
    { apply leb_zero_iff, (div_nonneg _ _ ml el); [|exact Hlong].
      apply leb_zero_iff, (mul_nonneg_small _ _ side 400); try assumption.
      - apply toNumber_nonneg; lia.
      - apply (toNumber_nonneg 400); lia. }
    destruct (Math_round_nonneg _ C Hq Hnn ltac:(unfold C; lia)) as [[s Hz]|(n & Hn & Hr)].
    + exists 0; split; [unfold integerOf; rewrite Hz; reflexivity|unfold C; lia].
    + exists n; split; [rewrite Hr; apply integerOf_toNumber; unfold C in Hn; lia|lia].
Qed.

(** X8: the canvas of a thumbnail is never larger than the image and
    never larger than 400 pixels on a side: an image within 400 x 400 keeps
    its size, and a larger one gets 400 on its longer side and a whole
    number of pixels, at most 400 and at most its own, on the other.  The
    shorter side may come out as 0: an image of 1000 x 1 gets a canvas of
    400 x 0. *)
Theorem thumbnailSize_bounds (w h : Z) :
  0 <= w < 2 ^ 32 -> 0 <= h < 2 ^ 32 ->
  (exists a b,
      integerOf (fst (thumbnailSize (toNumber w) (toNumber h))) = Some a
      /\ integerOf (snd (thumbnailSize (toNumber w) (toNumber h))) = Some b
      /\ 0 <= a <= Z.min w 400 /\ 0 <= b <= Z.min h 400
      /\ (Z.max w h <= 400 -> a = w /\ b = h)
      /\ (400 < Z.max w h -> Z.max a b = 400))
  /\ thumbnailSize 1000 1 = (400, 0)%float.
Proof.
  intros Hw Hh; split; [|vm_compute; reflexivity].
  assert (H32 : 2 ^ 32 < 2 ^ 53) by reflexivity.
  unfold thumbnailSize; change THUMBNAIL_MAX_SIZE with (toNumber 400).
  rewrite !toNumber_ltb by lia.
  destruct (h <? w) eqn:Hhw; [apply Z.ltb_lt in Hhw|apply Z.ltb_ge in Hhw].
  - destruct (400 <? w) eqn:H4; [apply Z.ltb_lt in H4|apply Z.ltb_ge in H4]; cbn [fst snd].
    + destruct (scaled_side h w ltac:(lia) ltac:(lia) ltac:(lia)) as (n & Hn & Hb).
      exists 400, n; split; [reflexivity|split; [exact Hn|]]; lia.
    + exists w, h; rewrite !integerOf_toNumber by lia; repeat split; lia.
  - destruct (400 <? h) eqn:H4; [apply Z.ltb_lt in H4|apply Z.ltb_ge in H4]; cbn [fst snd].
    + destruct (scaled_side w h ltac:(lia) ltac:(lia) ltac:(lia)) as (n & Hn & Hb).
      exists n, 400; split; [exact Hn|split; [reflexivity|]]; lia.
    + exists w, h; rewrite !integerOf_toNumber by lia; repeat split; lia.
Qed.

Lemma thumbnailSize_bounds_witness :
  exists a b,
    integerOf (fst (thumbnailSize 4032 3024)) = Some a
    /\ integerOf (snd (thumbnailSize 4032 3024)) = Some b
    /\ 0 <= a <= Z.min 4032 400 /\ 0 <= b <= Z.min 3024 400
    /\ (Z.max 4032 3024 <= 400 -> a = 4032 /\ b = 3024)
    /\ (400 < Z.max 4032 3024 -> Z.max a b = 400).
Proof.
  apply (proj1 (thumbnailSize_bounds 4032 3024 ltac:(lia) ltac:(lia))).
Defined.

(** ** [processFiles] *)

Lemma stripExifData_file env file stripped :
  Redaction.stripExifData env file = Fulfilled stripped ->
  type stripped = "image/jpeg"%string /\ name stripped = name file.
Proof.
  unfold Redaction.stripExifData.
  destruct (Redaction.decode env file) as [img|]; [|discriminate].
  destruct (negb _); [discriminate|].
  destruct (Redaction.toBlob env img "image/jpeg" Redaction.quality); [|discriminate].
  intros [= <-]; split; reflexivity.
Qed.

(** What the loop appends to [uploadedFiles]. *)
Lemma processFiles_loop_appends env maxBytes files :
  forall uploadedFiles uploadError result error,
    Uploader.processFiles_loop env maxBytes files uploadedFiles uploadError
    = Fulfilled (result, error) ->
    exists appended,
      result = uploadedFiles ++ appended
      /\ forall u, In u appended ->
           In (Uploader.file u) files
           /\ (maxBytes <? Uploader.size (Uploader.file u))%float = false
           /\ processed env u.
Proof.
  induction files as [|file rest IH]; intros uploadedFiles uploadError result error;
    cbn [Uploader.processFiles_loop]; cbv zeta.
  - intros [= <- <-]; exists []; rewrite app_nil_r; split; [reflexivity|intros u []].
  - assert (Hskip : forall e,
               Uploader.processFiles_loop env maxBytes rest uploadedFiles e
               = Fulfilled (result, error) ->
               exists appended,
                 result = uploadedFiles ++ appended
                 /\ forall u, In u appended ->
                      In (Uploader.file u) (file :: rest)
                      /\ (maxBytes <? Uploader.size (Uploader.file u))%float = false
                      /\ processed env u).
    { intros e H; apply IH in H as (appended & -> & Hall).
      exists appended; split; [reflexivity|].
      intros u Hu; destruct (Hall u Hu) as (Hin & Hrest); split; [right; exact Hin|exact Hrest]. }
    assert (Hpush : forall u,
               (maxBytes <? Uploader.size file)%float = false ->
               Uploader.file u = file -> processed env u ->
               Uploader.processFiles_loop env maxBytes rest (uploadedFiles ++ [u]) uploadError
               = Fulfilled (result, error) ->
               exists appended,
                 result = uploadedFiles ++ appended
                 /\ forall v, In v appended ->
                      In (Uploader.file v) (file :: rest)
                      /\ (maxBytes <? Uploader.size (Uploader.file v))%float = false
                      /\ processed env v).
    { intros u Hsize Hfile Hp H; apply IH in H as (appended & -> & Hall).
      exists (u :: appended); rewrite <- app_assoc; split; [reflexivity|].
      intros v [<-|Hv].
      - rewrite Hfile; split; [left; reflexivity|split; [exact Hsize|exact Hp]].
      - destruct (Hall v Hv) as (Hin & Hrest); split; [right; exact Hin|exact Hrest]. }
    destruct (maxBytes <? Uploader.size file)%float eqn:Hsize; [apply Hskip|].
    destruct (Uploader.isVideoFile (Uploader.content file)) eqn:Hvideo.
    + destruct (Uploader.processVideo env (Uploader.content file))
        as [[[duration thumbnail] preview]| |]; cbn [await];
        [|apply Hskip|discriminate].
      destruct (if Uploader.truthyFloat (Uploader.lastModified file) then _ else _)
        as [dateTaken|]; [|apply Hskip].
      apply Hpush; [reflexivity|reflexivity|].
      unfold processed; cbn; repeat split; auto.
    + destruct (extractExifData (Uploader.content file)) as [exif| |] eqn:Hexif;
        cbn [await]; [|apply Hskip|discriminate].
      destruct (Redaction.stripExifData (Uploader.browser env) (Uploader.content file))
        as [stripped| |] eqn:Hstrip; cbn [await]; [|apply Hskip|discriminate].
      destruct (Uploader.generateImageThumbnail env stripped) as [thumbnail| |] eqn:Hthumb;
        cbn [await]; [|apply Hskip|discriminate].
      apply Hpush; [reflexivity|reflexivity|].
      destruct (stripExifData_file _ _ _ Hstrip) as [Htype Hname].
      unfold processed; cbn; repeat split; auto.
Qed.

(** X9: what [processFiles] hands to [onUpload].  The list is never
    empty, and every entry comes from a picked file that is not over the
    size limit.  A photo is handed over only when [stripExifData]
    succeeded, and the file to upload is the re-encoded JPEG it returned,
    never the original; its metadata is what [extractExifData] read from
    the original.  A video is handed over as it is.  [isProcessing] is
    false at the end. *)
Theorem processFiles_hands_over
    (env : Uploader.Host) (maxFileSizeMB : float) (files : list Uploader.LocalFile)
    (outcome : Uploader.Outcome) :
  Uploader.processFiles env maxFileSizeMB files = Fulfilled outcome ->
  Uploader.isProcessing outcome = false
  /\ forall uploaded,
       Uploader.handedOver outcome = Some uploaded ->
       uploaded <> []
       /\ forall u, In u uploaded ->
            In (Uploader.file u) files
            /\ (maxFileSizeMB * 1024 * 1024 <? Uploader.size (Uploader.file u))%float = false
            /\ processed env u.
Proof.
  unfold Uploader.processFiles; cbv zeta.
  destruct (Uploader.processFiles_loop env _ files [] None) as [[result error]| |] eqn:Hloop;
    try discriminate.
  apply processFiles_loop_appends in Hloop as (appended & Hres & Hall).
  cbn [List.app] in Hres; subst appended.
  destruct result as [|u0 result].
  - intros [= <-]; split; [reflexivity|intros uploaded; discriminate].
  - destruct (Uploader.onUpload env (u0 :: result)); intros [= <-];
      (split; [reflexivity|]); intros uploaded [= <-];
      (split; [discriminate|exact Hall]).
Qed.

Lemma processFiles_hands_over_witness :
  let env :=
    Uploader.mkHost
      (Redaction.mkBrowser (fun _ => Some (Redaction.mkImage 4032 3024))
         (fun _ _ => true) (fun _ _ _ => Some (Vectors.text "re-encoded")))
      (fun _ => Rejected (Error "Failed to load video metadata"))
      (fun _ => Fulfilled (Vectors.text "thumbnail"))
      (fun _ => "blob:preview"%string)
      (fun _ => Throw RangeError)
      (fun _ => Normal tt) in
  let picked :=
    Uploader.mkLocalFile (Vectors.jpegFile Vectors.fullJpeg) 254 0 in
  Uploader.isProcessing
    (Uploader.mkOutcome false None
       (Some [Uploader.mkUploadedFile picked
                (mkFile "image/jpeg" "photo.jpg" (Normal (Vectors.text "re-encoded")))
                (mkExifData (Some (43 + 39 / 60 + (499 / 100) / 3600)%float)
                   (Some (- (79 + 20 / 60 + (4948 / 100) / 3600))%float)
                   None (Some "2024-06-15T14:30:00Z"%string))
                "blob:preview" Uploader.photo None (Vectors.text "thumbnail")]))
  = false.
Proof.
  intros env picked.
  refine (proj1 (processFiles_hands_over env 50 [picked] _ _)).
  vm_compute; reflexivity.
Defined.

(** ** The direction picker *)

(** Adding 360 to a negative number of magnitude below 360 gives zero or
    a positive number that is at most 360. *)
Lemma negative_plus_360 (v : float) m e A :
  Prim2SF v = S754_finite true m e -> boundedBy A 0 (Zpos m) e -> 0 < A < 360 ->
  smallNumber 360 (Prim2SF (v + 360)%float) /\ nonneg_sf (Prim2SF (v + 360)%float).
Proof.
  intros Hv [He Hm] HA; rewrite FloatAxioms.add_spec, Hv.
  change (Prim2SF 360) with (S754_finite false 6333186975989760 (-44)).
  unfold SF64add, SFadd.
  set (ez := Z.min e (-44)).
  pose proof (shl_align_spec m e ez) as HV.
  pose proof (shl_align_spec 6333186975989760 (-44) ez) as HC.
  destruct (shl_align m e ez) as [mv ev]; destruct (shl_align _ (-44) ez) as [mc ec].
  cbn [fst snd] in *.
  destruct HV as (_ & Hev & HV); destruct HC as (_ & Hec & HC).
  assert (Hev' : ev = ez) by (unfold ez in *; lia).
  assert (Hec' : ec = ez) by (unfold ez in *; lia).
  clear Hev Hec; subst ev ec.
  assert (Hez : ez <= -44) by (unfold ez; lia).
  assert (Hpow : 0 < 2 ^ (0 - ez)) by (apply Z.pow_pos_nonneg; lia).
  assert (HVb : Zpos mv <= A * 2 ^ (0 - ez)).
  { rewrite HV.
    replace (0 - ez) with ((0 - e) + (e - ez)) by lia.
    rewrite Z.pow_add_r by (unfold ez; lia).
    assert (0 < 2 ^ (e - ez)) by (apply Z.pow_pos_nonneg; unfold ez; lia).
    rewrite Z.mul_assoc; apply Z.mul_le_mono_nonneg_r; lia. }
  assert (HCv : Zpos mc = 360 * 2 ^ (0 - ez)).
  { rewrite HC.
    change 6333186975989760 with (45 * 2 ^ 47).
    replace (0 - ez) with ((-44 - ez) + 44) by lia.
    rewrite (Z.pow_add_r 2 (-44 - ez) 44) by lia.
    change (2 ^ 44) with 17592186044416. change (2 ^ 47) with 140737488355328.
    lia. }
  set (sum := cond_Zopp true (Zpos mv) + cond_Zopp false (Zpos mc)).
  assert (Hsum : 0 < sum <= 360 * 2 ^ (0 - ez)).
  { unfold sum, cond_Zopp. nia. }
  destruct sum as [|p|p]; try lia.
  unfold binary_normalize.
  assert (Hr : roundedBelow false 360 0 (binary_round prec emax false p ez)).
  { apply binary_round_bound; try lia.
    - vm_compute; discriminate.
    - vm_compute; discriminate.
    - split; lia. }
  split; [eapply roundedBelow_small; exact Hr|].
  destruct Hr; constructor.
Qed.

(** The angles [Math.atan2] may return are below 4 in magnitude. *)
Lemma angle_small (theta : float) :
  (- Geodesy.Math_PI <=? theta)%float = true -> (theta <=? Geodesy.Math_PI)%float = true ->
  smallNumber 4 (Prim2SF theta).
Proof.
  intros Hlo Hhi.
  destruct (angle_cases theta Hlo Hhi) as [[s Hz]|(s & m & e & Hf & He & _ & Hm)].
  - left; exists s; exact Hz.
  - right; exists s, m, e; split; [exact Hf|split; [lia|]].
    assert (2 ^ 51 <= 2 ^ (0 - e)) by (apply Z.pow_le_mono_r; lia).
    change (2 ^ 53) with (4 * 2 ^ 51) in Hm. lia.
Qed.

Lemma degrees_small (theta : float) :
  (- Geodesy.Math_PI <=? theta)%float = true -> (theta <=? Geodesy.Math_PI)%float = true ->
  smallNumber 232 (Prim2SF (theta * (180 / Geodesy.Math_PI))%float).
Proof.
  intros Hlo Hhi.
  apply (mul_small theta (180 / Geodesy.Math_PI)%float 4 58);
    [apply angle_small; assumption| |lia|lia|vm_compute; discriminate].
  right; exists false, 8063664102031864%positive, (-47).
  split; [vm_compute; reflexivity|split; [lia|vm_compute; discriminate]].
Qed.

(** X10: for every binary64 angle [Math.atan2] may return,
    [calculateAngle] hands [onChange] a whole number of degrees between 0
    and 360.  The bound 360 is reached: a pointer a hair left of straight
    up gives 360, not 0. *)
Theorem roundedAngle_range (theta : float) :
  (- Geodesy.Math_PI <=? theta)%float = true ->
  (theta <=? Geodesy.Math_PI)%float = true ->
  (exists n, integerOf (DirectionPicker.roundedAngle theta) = Some n /\ 0 <= n <= 360)
  /\ DirectionPicker.roundedAngle (- 0x1p-10) = 360%float.
Proof.
  intros Hlo Hhi; split; [|vm_compute; reflexivity].
  pose proof (degrees_small theta Hlo Hhi) as Hd.
  unfold DirectionPicker.roundedAngle; cbv zeta.
  set (angle := (theta * (180 / Geodesy.Math_PI))%float) in *.
  assert (Hs : smallNumber 360 (Prim2SF (if (angle <? 0)%float then (angle + 360)%float else angle))
               /\ nonneg_sf (Prim2SF (if (angle <? 0)%float then (angle + 360)%float else angle))).
  { destruct (angle <? 0)%float eqn:Hneg;
      rewrite FloatAxioms.ltb_spec in Hneg;
      change (Prim2SF 0) with (S754_zero false) in Hneg.
    - destruct Hd as [[s Hz]|(s & m & e & Hf & Hb)].
      + rewrite Hz in Hneg; discriminate.
      + rewrite Hf in Hneg; destruct s; [|discriminate].
        apply (negative_plus_360 angle m e 232 Hf Hb); lia.
    - split; [apply smallNumber_weaken with 232; [lia|exact Hd]|].
      destruct Hd as [[s Hz]|(s & m & e & Hf & Hb)].
      + rewrite Hz; constructor.
      + rewrite Hf in *; destruct s; [discriminate|constructor]. }
  destruct Hs as [Hs Hn].
  destruct (Math_round_nonneg _ 360 Hs Hn) as [[s Hz]|(n & Hn360 & Hr)].
  - split; [lia|reflexivity].
  - exists 0; split; [unfold integerOf; rewrite Hz; reflexivity|lia].
  - exists n; split; [rewrite Hr; apply integerOf_toNumber|lia].
    split; [lia|]. apply Z.le_lt_trans with 360; [lia|reflexivity].
Qed.

Lemma roundedAngle_range_witness :
  (exists n, integerOf (DirectionPicker.roundedAngle 0x1p-1) = Some n /\ 0 <= n <= 360)
  /\ DirectionPicker.roundedAngle (- 0x1p-10) = 360%float.
Proof.
  apply (roundedAngle_range 0x1p-1); vm_compute; reflexivity.
Defined.

Lemma sameNumber_eq (x y : float) : sameNumber x y = true -> x = y.
Proof.
  unfold sameNumber; intros H; apply Prim2SF_inj.
  destruct (Prim2SF x) as [s|s| |s m e], (Prim2SF y) as [s'|s'| |s' m' e'];
    try discriminate; try reflexivity.
  - apply Bool.eqb_prop in H; subst; reflexivity.
  - apply Bool.eqb_prop in H; subst; reflexivity.
  - apply andb_prop in H as [H He]; apply andb_prop in H as [Hs Hm].
    apply Bool.eqb_prop in Hs; apply Pos.eqb_eq in Hm; apply Z.eqb_eq in He.
    subst; reflexivity.
Qed.

(** Sums and differences of numbers with bounds on each side of zero. *)
Lemma normalize_within z ez L U :
  ez <= 0 -> 0 <= L -> 0 <= U ->
  Zdigits2 L <= 53 -> Zdigits2 U <= 53 ->
  - (L * 2 ^ (0 - ez)) <= z <= U * 2 ^ (0 - ez) ->
  within L U (binary_normalize prec emax z ez false).
Proof.
  intros Hez HL HU HdL HdU Hz.
  assert (Hpow : 0 < 2 ^ (0 - ez)) by (apply Z.pow_pos_nonneg; lia).
  unfold binary_normalize; destruct z as [|p|p].
  - left; eexists; reflexivity.
  - assert (HU0 : 0 < U) by nia.
    assert (Hr : roundedBelow false U 0 (binary_round prec emax false p ez)).
    { apply binary_round_bound; try lia.
      - revert HdU; unfold fexp, SpecFloat.emin, prec, emax; lia.
      - unfold emax, prec; lia.
      - split; lia. }
    destruct Hr as [|m e Hb]; [left; eexists; reflexivity|].
    right; exists false, m, e; split; [reflexivity|exact Hb].
  - assert (HL0 : 0 < L) by nia.
    assert (Hr : roundedBelow true L 0 (binary_round prec emax true p ez)).
    { apply binary_round_bound; try lia.
      - revert HdL; unfold fexp, SpecFloat.emin, prec, emax; lia.
      - unfold emax, prec; lia.
      - split; lia. }
    destruct Hr as [|m e Hb]; [left; eexists; reflexivity|].
    right; exists true, m, e; split; [reflexivity|exact Hb].
Qed.

Lemma aligned_bound m e e' ez B :
  e' <= 0 -> ez <= e -> ez <= e' -> e <= 0 ->
  Zpos m <= B * 2 ^ (0 - e) ->
  Zpos m * 2 ^ (e - ez) <= B * 2 ^ (0 - ez).
Proof.
  intros He' Hez Hez' He Hm.
  replace (0 - ez) with ((0 - e) + (e - ez)) by lia.
  rewrite Z.pow_add_r, Z.mul_assoc by lia.
  apply Z.mul_le_mono_nonneg_r; [apply Z.pow_nonneg; lia|exact Hm].
Qed.

Lemma signed_bounds (s : bool) (m : positive) (L U k : Z) :
  0 <= L -> 0 <= U -> 0 <= k ->
  Zpos m <= (if s then L else U) * k ->
  - (L * k) <= cond_Zopp s (Zpos m) <= U * k.
Proof. intros HL HU Hk Hm; destruct s; simpl; nia. Qed.

Lemma within_weaken L U L' U' f :
  L <= L' -> U <= U' -> within L U f -> within L' U' f.
Proof.
  intros HL HU [Hz|(s & m & e & Hf & He & Hm)]; [left; exact Hz|].
  right; exists s, m, e; split; [exact Hf|split; [exact He|]].
  assert (Hk : 0 <= 2 ^ (0 - e)) by (apply Z.pow_nonneg; lia).
  revert Hm Hk; generalize (2 ^ (0 - e)); intros k Hm Hk.
  destruct s; nia.
Qed.

Lemma add_within (x y : float) L1 U1 L2 U2 :
  within L1 U1 (Prim2SF x) -> within L2 U2 (Prim2SF y) ->
  0 <= L1 -> 0 <= U1 -> 0 <= L2 -> 0 <= U2 ->
  Zdigits2 (L1 + L2) <= 53 -> Zdigits2 (U1 + U2) <= 53 ->
  within (L1 + L2) (U1 + U2) (Prim2SF (x + y)%float).
Proof.
  intros Hx Hy HL1 HU1 HL2 HU2 HdL HdU; rewrite FloatAxioms.add_spec.
  destruct Hx as [[sx Hx]|(sx & mx & ex & Hx & Hex & Hmx)];
    destruct Hy as [[sy Hy]|(sy & my & ey & Hy & Hey & Hmy)]; rewrite Hx, Hy.
  - left; unfold SF64add, SFadd; destruct sx, sy; eexists; reflexivity.
  - apply within_weaken with L2 U2; [lia|lia|].
    right; exists sy, my, ey; split; [reflexivity|split; assumption].
  - apply within_weaken with L1 U1; [lia|lia|].
    right; exists sx, mx, ex; split; [reflexivity|split; assumption].
  - unfold SF64add, SFadd.
    set (ez := Z.min ex ey).
    pose proof (shl_align_spec mx ex ez) as Hax.
    pose proof (shl_align_spec my ey ez) as Hay.
    destruct (shl_align mx ex ez) as [mx' ex']; destruct (shl_align my ey ez) as [my' ey'].
    cbn [fst snd] in *.
    destruct Hax as (_ & Hex' & Hmx'); destruct Hay as (_ & Hey' & Hmy').
    assert (Hx1 : ex' = ez) by (unfold ez in *; lia).
    assert (Hy1 : ey' = ez) by (unfold ez in *; lia).
    clear Hex' Hey'; subst ex' ey'.
    assert (Hez : ez <= 0) by (unfold ez; lia).
    assert (Hpow : 0 <= 2 ^ (0 - ez)) by (apply Z.pow_nonneg; lia).
    pose proof (aligned_bound mx ex ey ez _ Hey ltac:(unfold ez; lia) ltac:(unfold ez; lia)
                  Hex Hmx) as Hbx.
    pose proof (aligned_bound my ey ex ez _ Hex ltac:(unfold ez; lia) ltac:(unfold ez; lia)
                  Hey Hmy) as Hby.
    rewrite <- Hmx' in Hbx; rewrite <- Hmy' in Hby.
    apply signed_bounds in Hbx; [|lia|lia|lia].
    apply signed_bounds in Hby; [|lia|lia|lia].
    apply normalize_within; try lia.
Qed.

Lemma sub_within (x y : float) L1 U1 L2 U2 :
  within L1 U1 (Prim2SF x) -> within L2 U2 (Prim2SF y) ->
  0 <= L1 -> 0 <= U1 -> 0 <= L2 -> 0 <= U2 ->
  Zdigits2 (L1 + U2) <= 53 -> Zdigits2 (U1 + L2) <= 53 ->
  within (L1 + U2) (U1 + L2) (Prim2SF (x - y)%float).
Proof.
  intros Hx Hy HL1 HU1 HL2 HU2 HdL HdU; rewrite FloatAxioms.sub_spec.
  destruct Hx as [[sx Hx]|(sx & mx & ex & Hx & Hex & Hmx)];
    destruct Hy as [[sy Hy]|(sy & my & ey & Hy & Hey & Hmy)]; rewrite Hx, Hy.
  - left; unfold SF64sub, SFsub; destruct sx, sy; eexists; reflexivity.
  - right; exists (negb sy), my, ey; split; [reflexivity|split; [exact Hey|]].
    assert (Hk : 0 <= 2 ^ (0 - ey)) by (apply Z.pow_nonneg; lia).
    revert Hmy Hk; generalize (2 ^ (0 - ey)); intros k Hmy Hk.
    destruct sy; cbn [negb] in *; nia.
  - apply within_weaken with L1 U1; [lia|lia|].
    right; exists sx, mx, ex; split; [reflexivity|split; assumption].
  - unfold SF64sub, SFsub.
    set (ez := Z.min ex ey).
    pose proof (shl_align_spec mx ex ez) as Hax.
    pose proof (shl_align_spec my ey ez) as Hay.
    destruct (shl_align mx ex ez) as [mx' ex']; destruct (shl_align my ey ez) as [my' ey'].
    cbn [fst snd] in *.
    destruct Hax as (_ & Hex' & Hmx'); destruct Hay as (_ & Hey' & Hmy').
    assert (Hx1 : ex' = ez) by (unfold ez in *; lia).
    assert (Hy1 : ey' = ez) by (unfold ez in *; lia).
    clear Hex' Hey'; subst ex' ey'.
    assert (Hez : ez <= 0) by (unfold ez; lia).
    assert (Hpow : 0 <= 2 ^ (0 - ez)) by (apply Z.pow_nonneg; lia).
    pose proof (aligned_bound mx ex ey ez _ Hey ltac:(unfold ez; lia) ltac:(unfold ez; lia)
                  Hex Hmx) as Hbx.
    pose proof (aligned_bound my ey ex ez _ Hex ltac:(unfold ez; lia) ltac:(unfold ez; lia)
                  Hey Hmy) as Hby.
    rewrite <- Hmx' in Hbx; rewrite <- Hmy' in Hby.
    apply signed_bounds in Hbx; [|lia|lia|lia].
    apply signed_bounds in Hby; [|lia|lia|lia].
    apply normalize_within; try lia.
Qed.

(** A number that is not negative, after [+ 360] or not, has its
    remainder by 360 in [0, 360). *)
Lemma within_nonneg U f :
  within 0 U f -> (exists s, f = S754_zero s) \/ exists m e, f = S754_finite false m e.
Proof.
  intros [Hz|(s & m & e & Hf & He & Hm)]; [left; exact Hz|right].
  destruct s; [|exists m, e; exact Hf].
  rewrite Z.mul_0_l in Hm; lia.
Qed.

Lemma within_of_range (b : float) :
  (0 <=? b)%float = true -> (b <=? 360)%float = true -> within 0 360 (Prim2SF b).
Proof.
  intros H0 H360; destruct (small_360 b H0 H360) as [Hs Hn].
  destruct Hs as [Hz|(s & m & e & Hf & Hb)]; [left; exact Hz|].
  rewrite Hf in Hn; inversion Hn; subst.
  right; exists false, m, e; split; [exact Hf|exact Hb].
Qed.

Lemma const_within (c : float) m e C :
  Prim2SF c = S754_finite false m e -> e <= 0 -> Zpos m = C * 2 ^ (- e) ->
  within 0 C (Prim2SF c).
Proof.
  intros Hc He Hm; right; exists false, m, e; split; [exact Hc|].
  split; [exact He|]. replace (0 - e) with (- e) by lia. lia.
Qed.

Lemma plus_360_nonneg (v : float) L U :
  within L U (Prim2SF v) -> 0 <= L < 360 -> 0 <= U -> Zdigits2 (U + 360) <= 53 ->
  (exists s, Prim2SF (v + 360)%float = S754_zero s)
  \/ exists m e, Prim2SF (v + 360)%float = S754_finite false m e.
Proof.
  intros Hv HL HU Hd.
  assert (H360 : within 0 360 (Prim2SF 360%float)).
  { apply (const_within 360%float 6333186975989760 (-44) 360);
      [reflexivity|lia|reflexivity]. }
  destruct Hv as [[s Hz]|(s & m & e & Hf & Hb)].
  - apply (within_nonneg (0 + 360)), (add_within v 360%float 0 0 0 360); try lia.
    + left; exists s; exact Hz.
    + exact H360.
    + vm_compute; discriminate.
    + vm_compute; discriminate.
  - destruct s.
    + destruct (Z.eq_dec L 0) as [->|HL0].
      * destruct Hb as [_ Hb]; rewrite Z.mul_0_l in Hb; lia.
      * destruct (negative_plus_360 v m e L Hf Hb ltac:(lia)) as [Hs Hn].
        destruct Hs as [Hz|(s & m' & e' & Hf' & _)]; [left; exact Hz|right].
        rewrite Hf' in Hn; inversion Hn; subst; exists m', e'; exact Hf'.
    + apply (within_nonneg (U + 360)), (add_within v 360%float 0 U 0 360); try lia.
      * right; exists false, m, e; split; [exact Hf|exact Hb].
      * exact H360.
      * vm_compute; discriminate.
Qed.

Lemma handleKeyDown_all :
  forallb
    (fun n =>
       match DirectionPicker.handleKeyDown (Some (toNumber n)) DirectionPicker.ArrowLeft,
             DirectionPicker.handleKeyDown (Some (toNumber n)) DirectionPicker.ArrowRight with
       | Some l, Some r =>
           (sameNumber l (toNumber ((n - 15) mod 360))
            && sameNumber r (toNumber ((n + 15) mod 360)))%bool
       | _, _ => false
       end)
    (range 361) = true.
Proof. vm_compute; reflexivity. Qed.

(** X11: the arrow keys of the direction picker.  On every bearing
    between 0 and 360, whole or not, the left and right arrows call
    [onChange] with a bearing in [0, 360).  On a whole bearing the left
    arrow gives the bearing less 15 and the right arrow the bearing plus
    15, both modulo 360, and another key does not call [onChange]. *)
Theorem handleKeyDown_steps (bearing : float) :
  (0 <=? bearing)%float = true -> (bearing <=? 360)%float = true ->
  (exists l r,
      DirectionPicker.handleKeyDown (Some bearing) DirectionPicker.ArrowLeft = Some l
      /\ DirectionPicker.handleKeyDown (Some bearing) DirectionPicker.ArrowRight = Some r
      /\ (0 <=? l)%float = true /\ (l <? 360)%float = true
      /\ (0 <=? r)%float = true /\ (r <? 360)%float = true)
  /\ DirectionPicker.handleKeyDown (Some bearing) DirectionPicker.OtherKey = None
  /\ forall n,
       0 <= n <= 360 ->
       DirectionPicker.handleKeyDown (Some (toNumber n)) DirectionPicker.ArrowLeft
       = Some (toNumber ((n - 15) mod 360))
       /\ DirectionPicker.handleKeyDown (Some (toNumber n)) DirectionPicker.ArrowRight
          = Some (toNumber ((n + 15) mod 360)).
Proof.
  intros H0 H360.
  pose proof (within_of_range bearing H0 H360) as Hb.
  assert (H15 : within 0 15 (Prim2SF 15%float)).
  { apply (const_within 15%float 8444249301319680 (-49) 15);
      [reflexivity|lia|reflexivity]. }
  assert (Hguard : (DirectionPicker.falsyNumber bearing && DirectionPicker.notZero bearing)%bool
                   = false).
  { unfold DirectionPicker.falsyNumber, DirectionPicker.notZero.
    destruct Hb as [[s ->]|(s & m & e & -> & _)]; reflexivity. }
  split; [|split].
  - unfold DirectionPicker.handleKeyDown; rewrite Hguard.
    do 2 eexists; split; [reflexivity|split; [reflexivity|]].
    assert (Hl : (0 <=? js_rem (bearing - 15 + 360) 360)%float = true
                 /\ (js_rem (bearing - 15 + 360) 360 <? 360)%float = true).
    { apply rem_360, (plus_360_nonneg _ (0 + 15) (360 + 0)); try lia.
      - apply (sub_within bearing 15%float 0 360 0 15); try assumption; try lia;
          vm_compute; discriminate.
      - vm_compute; discriminate. }
    assert (Hr : (0 <=? js_rem (bearing + 15) 360)%float = true
                 /\ (js_rem (bearing + 15) 360 <? 360)%float = true).
    { apply rem_360, (within_nonneg (360 + 15)),
        (add_within bearing 15%float 0 360 0 15); try assumption; try lia;
        vm_compute; discriminate. }
    destruct Hl as [Hl1 Hl2]; destruct Hr as [Hr1 Hr2].
    split; [exact Hl1|split; [exact Hl2|split; [exact Hr1|exact Hr2]]].
  - unfold DirectionPicker.handleKeyDown; rewrite Hguard; reflexivity.
  - intros n Hn; pose proof handleKeyDown_all as Hall.
    rewrite forallb_forall in Hall; specialize (Hall n (In_range 361 n ltac:(lia))).
    destruct (DirectionPicker.handleKeyDown (Some (toNumber n)) DirectionPicker.ArrowLeft)
      as [l|] eqn:Hl; [|discriminate].
    destruct (DirectionPicker.handleKeyDown (Some (toNumber n)) DirectionPicker.ArrowRight)
      as [r|] eqn:Hr; [|discriminate].
    apply andb_prop in Hall as [H1 H2].
    apply sameNumber_eq in H1; apply sameNumber_eq in H2; subst l r.
    split; reflexivity.
Qed.

Lemma handleKeyDown_steps_witness :
  DirectionPicker.handleKeyDown (Some 0x1.68p+4%float) DirectionPicker.OtherKey = None.
Proof.
  refine (proj1 (proj2 (handleKeyDown_steps 0x1.68p+4%float _ _))); vm_compute; reflexivity.
Defined.

(** ** [formatDuration] *)

Lemma round_nearest_even_ge m l : m <= round_nearest_even m l.
Proof. destruct l as [|[| |]]; simpl; try lia. destruct (Z.even m); lia. Qed.

Lemma mul_div_ge mB eB m e e' :
  e <= e' <= eB -> mB * 2 ^ (eB - e) <= m ->
  mB * 2 ^ (eB - e') <= m / 2 ^ (e' - e).
Proof.
  intros He Hb.
  assert (Hp : 0 < 2 ^ (e' - e)) by (apply Z.pow_pos_nonneg; lia).
  apply Z.div_le_lower_bound; [exact Hp|].
  replace (eB - e) with ((e' - e) + (eB - e')) in Hb by lia.
  rewrite Z.pow_add_r in Hb by lia. lia.
Qed.

(** Rounding keeps a bound on each side, when both are binary numbers
    with the exponent [eB]. *)
Lemma binary_round_aux_between s M E loc LB UB eB :
  0 <= M -> 0 <= LB -> 0 < UB ->
  fexp prec emax (Zdigits2 UB + eB) <= eB ->
  eB <= emax - prec ->
  boundedBy UB eB M E ->
  (loc <> loc_Exact -> M < UB * 2 ^ (eB - E)) ->
  LB * 2 ^ (eB - E) <= M ->
  (LB = 0 /\ binary_round_aux prec emax s M E loc = S754_zero s)
  \/ exists m e,
       binary_round_aux prec emax s M E loc = S754_finite s m e
       /\ e <= eB /\ LB * 2 ^ (eB - e) <= Zpos m <= UB * 2 ^ (eB - e).
Proof.
  intros HM HLB HUB Hc Hmax Hb Hloc Hlow.
  pose proof (boundedBy_fexp UB eB M E HM HUB Hc Hb) as Hf1.
  destruct Hb as [HE Hb].
  unfold binary_round_aux, shr_fexp.
  pose proof (shr_spec (shr_record_of_loc M loc) E (fexp prec emax (Zdigits2 M + E) - E))
    as H1.
  rewrite shr_record_of_loc_m in H1; specialize (H1 HM).
  destruct (shr (shr_record_of_loc M loc) E _) as [mrs' e'].
  cbn [fst snd] in H1; destruct H1 as (He' & Hm' & Hex').
  assert (He'B : E <= e' <= eB) by lia.
  pose proof (div_boundedBy UB eB M E e' HUB He'B Hb) as Hb'.
  pose proof (mul_div_ge LB eB M E e' He'B Hlow) as Hl'.
  rewrite <- Hm' in Hb', Hl'.
  assert (Hp1 : 0 < 2 ^ (e' - E)) by (apply Z.pow_pos_nonneg; lia).
  assert (Hm'0 : 0 <= shr_m mrs') by (rewrite Hm'; apply Z.div_pos; lia).
  set (m1 := round_nearest_even (shr_m mrs') (loc_of_shr_record mrs')).
  assert (Hm1 : 0 <= m1) by (apply round_nearest_even_nonneg; exact Hm'0).
  assert (Hl1 : LB * 2 ^ (eB - e') <= m1).
  { pose proof (round_nearest_even_ge (shr_m mrs') (loc_of_shr_record mrs')).
    unfold m1; lia. }
  assert (Hb1 : m1 <= UB * 2 ^ (eB - e')).
  { destruct (Z.eq_dec (shr_m mrs') (UB * 2 ^ (eB - e'))) as [Heq|Hne].
    - assert (HMeq : M = UB * 2 ^ (eB - E)).
      { pose proof (Z.mul_div_le M (2 ^ (e' - E)) Hp1) as Hle.
        rewrite <- Hm', Heq in Hle.
        replace (eB - E) with ((e' - E) + (eB - e')) in Hb |- * by lia.
        rewrite Z.pow_add_r in Hb |- * by lia. lia. }
      assert (Hexact : loc = loc_Exact).
      { destruct loc as [|c]; [reflexivity|].
        exfalso; assert (M < UB * 2 ^ (eB - E)) by (apply Hloc; discriminate); lia. }
      subst loc.
      assert (Hrec : exactRecord mrs').
      { apply Hex'; [apply exactRecord_of_loc|].
        rewrite HMeq.
        replace (eB - E) with ((eB - e') + (e' - E)) by lia.
        rewrite Z.pow_add_r, Z.mul_assoc by lia.
        apply Z.mod_mul; lia. }
      unfold m1; rewrite (loc_of_exactRecord _ Hrec); simpl; lia.
    - pose proof (round_nearest_even_le (shr_m mrs') (loc_of_shr_record mrs')).
      unfold m1; lia. }
  assert (Hf2 : fexp prec emax (Zdigits2 m1 + e') <= eB).
  { apply (boundedBy_fexp UB eB m1 e' Hm1 HUB Hc); split; [lia|exact Hb1]. }
  pose proof (shr_spec (shr_record_of_loc m1 loc_Exact) e'
                (fexp prec emax (Zdigits2 m1 + e') - e')) as H2.
  rewrite shr_record_of_loc_m in H2; specialize (H2 Hm1).
  destruct (shr (shr_record_of_loc m1 loc_Exact) e' _) as [mrs'' e''].
  cbn [fst snd] in H2; destruct H2 as (He'' & Hm'' & _).
  assert (He''B : e' <= e'' <= eB) by lia.
  pose proof (div_boundedBy UB eB m1 e' e'' HUB He''B Hb1) as Hb''.
  pose proof (mul_div_ge LB eB m1 e' e'' He''B Hl1) as Hl''.
  rewrite <- Hm'' in Hb'', Hl''.
  assert (Hpw : 0 < 2 ^ (eB - e'')) by (apply Z.pow_pos_nonneg; lia).
  destruct (shr_m mrs'') as [|p|p].
  - left; split; [nia|reflexivity].
  - right; exists p, e''.
    replace (e'' <=? emax - prec) with true by (symmetry; apply Z.leb_le; lia).
    split; [reflexivity|split; [lia|split; assumption]].
  - exfalso; nia.
Qed.

(** The quotient of two finite numbers between two bounds. *)
Lemma SFdiv_between sx mx ex sy my ey LB UB eB :
  0 <= LB -> 0 < UB -> Zdigits2 UB <= 53 ->
  SpecFloat.emin prec emax <= eB -> eB <= 0 ->
  LB * (Zpos my * 2 ^ (ey - Z.min ex ey)) <= Zpos mx * 2 ^ (ex - Z.min ex ey) * 2 ^ (- eB) ->
  Zpos mx * 2 ^ (ex - Z.min ex ey) * 2 ^ (- eB) <= UB * (Zpos my * 2 ^ (ey - Z.min ex ey)) ->
  let q := SFdiv prec emax (S754_finite sx mx ex) (S754_finite sy my ey) in
  (LB = 0 /\ q = S754_zero (xorb sx sy))
  \/ exists m e,
       q = S754_finite (xorb sx sy) m e
       /\ e <= eB /\ LB * 2 ^ (eB - e) <= Zpos m <= UB * 2 ^ (eB - e).
Proof.
  intros HLB HUB HdU Hemin HeB Hlo Hhi; cbv zeta.
  unfold SFdiv, SFdiv_core_binary.
  set (d1 := Zdigits2 (Zpos mx)); set (d2 := Zdigits2 (Zpos my)).
  set (c := Z.min ex ey) in *.
  assert (Hc : c <= ex /\ c <= ey) by (unfold c; lia).
  set (X := Zpos mx * 2 ^ (ex - c)) in *.
  set (Y := Zpos my * 2 ^ (ey - c)) in *.
  assert (Hpx : 0 < 2 ^ (ex - c)) by (apply Z.pow_pos_nonneg; lia).
  assert (Hpy : 0 < 2 ^ (ey - c)) by (apply Z.pow_pos_nonneg; lia).
  assert (HpB : 0 < 2 ^ (- eB)) by (apply Z.pow_pos_nonneg; lia).
  assert (Hd : d1 + ex - (d2 + ey) <= Zdigits2 UB + eB).
  { pose proof (Zdigits2_ge (Zpos mx) ltac:(lia)) as H1; fold d1 in H1.
    pose proof (Zdigits2_lt (Zpos my) ltac:(lia)) as H2; fold d2 in H2.
    pose proof (Zdigits2_lt UB ltac:(lia)) as H3.
    assert (Hd1 : 1 <= d1) by (unfold d1; simpl; lia).
    assert (Hd2 : 0 <= d2) by apply Zdigits2_nonneg.
    assert (HdU0 : 0 <= Zdigits2 UB) by apply Zdigits2_nonneg.
    assert (Hlow : 2 ^ (d1 - 1 + (ex - c) + (- eB)) <= X * 2 ^ (- eB)).
    { rewrite !Z.pow_add_r by lia.
      apply Z.mul_le_mono_nonneg_r; [lia|].
      apply Z.mul_le_mono_nonneg_r; [lia|exact H1]. }
    assert (Hup : UB * Y < 2 ^ (Zdigits2 UB + d2 + (ey - c))).
    { unfold Y; rewrite !Z.pow_add_r, Z.mul_assoc by lia.
      apply Z.mul_lt_mono_pos_r; [lia|].
      apply Z.mul_lt_mono_nonneg; lia. }
    assert (Hcmp : 2 ^ (d1 - 1 + (ex - c) + (- eB)) < 2 ^ (Zdigits2 UB + d2 + (ey - c))) by lia.
    apply Z.pow_lt_mono_r_iff in Hcmp; lia. }
  assert (Hfexp : fexp prec emax (Zdigits2 UB + eB) <= eB).
  { revert HdU Hemin; unfold fexp, SpecFloat.emin, prec, emax; lia. }
  set (e' := Z.min (fexp prec emax (d1 + ex - (d2 + ey))) (ex - ey)).
  assert (He' : e' <= eB).
  { pose proof (fexp_mono _ _ Hd); unfold e'; lia. }
  set (sh := ex - ey - e').
  assert (Hsh : 0 <= sh) by (unfold sh, e'; lia).
  set (m' := match sh with
             | 0 => Zpos mx
             | Zpos _ => Z.shiftl (Zpos mx) sh
             | Zneg _ => 0
             end).
  assert (Hm' : m' = Zpos mx * 2 ^ sh).
  { unfold m'; destruct sh as [|p|p]; [rewrite Z.pow_0_r; lia| |lia].
    apply Z.shiftl_mul_pow2; lia. }
  set (J := 2 ^ (eB - e')).
  assert (HJ : 0 < J) by (apply Z.pow_pos_nonneg; lia).
  (* m' / my is X / Y scaled by 2 ^ (- e') *)
  assert (Hscale : m' * 2 ^ (ey - c) = X * 2 ^ (- eB) * J).
  { rewrite Hm'; unfold X, J.
    rewrite <- !Z.mul_assoc, <- !Z.pow_add_r by lia.
    f_equal; f_equal; unfold sh; lia. }
  pose proof (Z.div_eucl_eq m' (Zpos my) ltac:(lia)) as Heq.
  pose proof (Z.mod_pos_bound m' (Zpos my) ltac:(lia)) as Hr.
  unfold Z.modulo in Hr.
  destruct (Z.div_eucl m' (Zpos my)) as [q r].
  assert (Hm'0 : 0 <= m') by (rewrite Hm'; nia).
  assert (Hq0 : 0 <= q) by nia.
  assert (HY : Y = Zpos my * 2 ^ (ey - c)) by reflexivity.
  assert (Hq_hi : q * Y <= UB * J * Y /\ (r <> 0 -> q * Y < UB * J * Y)).
  { assert (q * Y + r * 2 ^ (ey - c) = X * 2 ^ (- eB) * J) by (rewrite <- Hscale, Heq, HY; ring).
    assert (0 <= r * 2 ^ (ey - c)) by nia.
    assert (X * 2 ^ (- eB) * J <= UB * Y * J) by (apply Z.mul_le_mono_nonneg_r; lia).
    split; [lia|].
    intros Hr0; assert (0 < r * 2 ^ (ey - c)) by nia. lia. }
  assert (Hq_lo : LB * J * Y <= (q + 1) * Y - 1).
  { assert (q * Y + r * 2 ^ (ey - c) = X * 2 ^ (- eB) * J) by (rewrite <- Hscale, Heq, HY; ring).
    assert (r * 2 ^ (ey - c) < Y) by (rewrite HY; nia).
    assert (LB * Y * J <= X * 2 ^ (- eB) * J) by (apply Z.mul_le_mono_nonneg_r; lia).
    lia. }
  assert (HY0 : 0 < Y) by (rewrite HY; nia).
  assert (Hq1 : q <= UB * J) by nia.
  assert (Hq2 : LB * J <= q) by nia.
  apply binary_round_aux_between; try lia.
  - unfold emax, prec; lia.
  - split; [lia|exact Hq1].
  - intros Hloc.
    destruct (Z.eq_dec r 0) as [->|Hr0].
    { exfalso; apply Hloc; unfold new_location, new_location_even, new_location_odd.
      destruct (Z.even (Zpos my)); reflexivity. }
    destruct Hq_hi as [_ Hs]; specialize (Hs Hr0). fold J. nia.
Qed.

(** A valid finite number is determined by its value. *)
Lemma canonical_unique m1 e1 m2 e2 :
  fexp prec emax (Zpos (digits2_pos m1) + e1) = e1 ->
  fexp prec emax (Zpos (digits2_pos m2) + e2) = e2 ->
  e1 <= e2 -> Zpos m1 = Zpos m2 * 2 ^ (e2 - e1) ->
  m1 = m2 /\ e1 = e2.
Proof.
  intros H1 H2 Hle Hv.
  pose proof (Zdigits2_shift (Zpos m2) (e2 - e1) ltac:(lia) ltac:(lia)) as Hs.
  rewrite <- Hv in Hs; simpl Zdigits2 in Hs.
  assert (He : e1 = e2).
  { rewrite <- H1, <- H2, Hs; f_equal; lia. }
  subst e2; rewrite Z.sub_diag, Z.pow_0_r in Hv.
  split; [lia|reflexivity].
Qed.

(** A number whose value is the integer [n] is [toNumber n]. *)
Lemma whole_number_eq (x : float) m e n :
  Prim2SF x = S754_finite false m e -> e <= 0 -> Zpos m = n * 2 ^ (- e) ->
  n < 2 ^ 53 -> x = toNumber n.
Proof.
  intros Hx He Hm Hn.
  assert (Hp : 0 < 2 ^ (- e)) by (apply Z.pow_pos_nonneg; lia).
  assert (Hn0 : 0 < n) by nia.
  destruct (toNumber_finite n ltac:(lia)) as (m' & e' & Hx' & He' & Hm').
  assert (Hp' : 0 < 2 ^ (- e')) by (apply Z.pow_pos_nonneg; lia).
  destruct (finite_valid x false m e Hx) as (Hc & _).
  destruct (finite_valid _ false m' e' Hx') as (Hc' & _).
  apply Prim2SF_inj; rewrite Hx, Hx'.
  destruct (Z_le_gt_dec e e') as [Hle|Hgt].
  - destruct (canonical_unique m e m' e' Hc Hc' Hle) as [-> ->]; [|reflexivity].
    rewrite Hm, Hm'.
    replace (- e) with ((- e') + (e' - e)) by lia.
    rewrite Z.pow_add_r, Z.mul_assoc by lia. reflexivity.
  - destruct (canonical_unique m' e' m e Hc' Hc ltac:(lia)) as [-> ->]; [|reflexivity].
    rewrite Hm, Hm'.
    replace (- e') with ((- e) + (e - e')) by lia.
    rewrite Z.pow_add_r, Z.mul_assoc by lia. reflexivity.
Qed.

(** [Math.floor] of the quotient of two whole numbers is the quotient of
    the integers, for a dividend below [2 ^ 32] and a divisor of at most
    4096. *)
Lemma floor_quotient n c :
  0 <= n < 2 ^ 32 -> 0 < c <= 4096 ->
  Math_floor (toNumber n / toNumber c)%float = toNumber (n / c).
Proof.
  intros Hn Hc.
  assert (H32 : 2 ^ 32 < 2 ^ 53) by reflexivity.
  destruct (toNumber_finite c ltac:(lia)) as (my & ey & Hy & Hey & Hmy).
  destruct (Z.eq_dec n 0) as [->|Hn0].
  { rewrite Z.div_0_l by lia.
    assert (Hz : Prim2SF (toNumber 0 / toNumber c)%float = S754_zero false).
    { rewrite FloatAxioms.div_spec, Hy; reflexivity. }
    unfold Math_floor; rewrite Hz.
    apply Prim2SF_inj; rewrite Hz; reflexivity. }
  destruct (toNumber_finite n ltac:(lia)) as (mx & ex & Hx & Hex & Hmx).
  set (Q := n / c).
  pose proof (Z.div_mod n c ltac:(lia)) as Hdm; fold Q in Hdm.
  pose proof (Z.mod_pos_bound n c ltac:(lia)) as Hmod.
  assert (HQ : 0 <= Q < 2 ^ 32).
  { split; [apply Z.div_pos; lia|].
    apply Z.div_lt_upper_bound; [lia|]. nia. }
  change (2 ^ 32) with 4294967296 in *.
  set (c0 := Z.min ex ey).
  assert (Hc0 : c0 <= ex /\ c0 <= ey /\ c0 <= 0) by (unfold c0; lia).
  assert (HX : Zpos mx * 2 ^ (ex - c0) = n * 2 ^ (- c0)).
  { rewrite Hmx, <- Z.mul_assoc, <- Z.pow_add_r by lia. do 2 f_equal; lia. }
  assert (HY : Zpos my * 2 ^ (ey - c0) = c * 2 ^ (- c0)).
  { rewrite Hmy, <- Z.mul_assoc, <- Z.pow_add_r by lia. do 2 f_equal; lia. }
  assert (HT : 0 < 2 ^ (- c0)) by (apply Z.pow_pos_nonneg; lia).
  pose proof (SFdiv_between false mx ex false my ey (Q * 4096) ((Q + 1) * 4096 - 1) (-12))
    as Hdiv.
  cbv zeta in Hdiv; fold c0 in Hdiv; rewrite HX, HY in Hdiv.
  change (2 ^ (- -12)) with 4096 in Hdiv.
  destruct Hdiv as [[HQ0 Hz]|(m & e & Hf & He & Hlo & Hhi)].
  - lia.
  - lia.
  - apply Zdigits2_le; [lia|lia|].
    change (2 ^ 53) with 9007199254740992. lia.
  - unfold SpecFloat.emin, prec, emax; lia.
  - lia.
  - revert HT; generalize (2 ^ (- c0)); intros T HT. nia.
  - revert HT; generalize (2 ^ (- c0)); intros T HT. nia.
  - assert (Q = 0) by lia.
    assert (Hz' : Prim2SF (toNumber n / toNumber c)%float = S754_zero false).
    { rewrite FloatAxioms.div_spec, Hx, Hy; exact Hz. }
    unfold Math_floor; rewrite Hz'.
    apply Prim2SF_inj; rewrite Hz', H; reflexivity.
  - assert (Hf' : Prim2SF (toNumber n / toNumber c)%float = S754_finite false m e).
    { rewrite FloatAxioms.div_spec, Hx, Hy; exact Hf. }
    unfold Math_floor; rewrite Hf'.
    replace (0 <=? e) with false by (symmetry; apply Z.leb_gt; lia).
    cbv zeta; simpl cond_Zopp.
    assert (HJ : 0 < 2 ^ (-12 - e)) by (apply Z.pow_pos_nonneg; lia).
    assert (HK : 2 ^ (- e) = 4096 * 2 ^ (-12 - e)).
    { replace (- e) with (12 + (-12 - e)) by lia.
      rewrite Z.pow_add_r by lia; reflexivity. }
    assert (HquoT : Zpos m / 2 ^ (- e) = Q).
    { symmetry; apply Z.div_unique with (Zpos m - 2 ^ (- e) * Q).
      - left; rewrite HK; revert HJ Hlo Hhi; generalize (2 ^ (-12 - e)); intros J HJ Hlo Hhi.
        nia.
      - lia. }
    rewrite HquoT.
    destruct (Q =? 0) eqn:HQ0; [apply Z.eqb_eq in HQ0; rewrite HQ0; reflexivity|].
    unfold ofInteger.
    replace (Q <? 0) with false by (symmetry; apply Z.ltb_ge; lia). reflexivity.
Qed.

(** The remainder of two whole numbers is the remainder of the integers. *)
Lemma rem_integers n c :
  0 <= n < 2 ^ 53 -> 0 < c < 2 ^ 53 ->
  js_rem (toNumber n) (toNumber c) = toNumber (n mod c).
Proof.
  intros Hn Hc.
  destruct (toNumber_finite c ltac:(lia)) as (my & ey & Hy & Hey & Hmy).
  destruct (Z.eq_dec n 0) as [->|Hn0].
  { rewrite Z.mod_0_l by lia. unfold js_rem; rewrite Hy; reflexivity. }
  destruct (toNumber_finite n ltac:(lia)) as (mx & ex & Hx & Hex & Hmx).
  destruct (finite_valid _ _ _ _ Hx) as (_ & Hxmax & Hmx53 & Hxmin).
  destruct (finite_valid _ _ _ _ Hy) as (_ & Hymax & Hmy53 & Hymin).
  unfold js_rem; rewrite Hx, Hy; cbv zeta.
  set (e := Z.min ex ey).
  assert (He : e <= ex /\ e <= ey /\ e <= 0) by (unfold e; lia).
  assert (HT : 0 < 2 ^ (- e)) by (apply Z.pow_pos_nonneg; lia).
  replace (Zpos mx * 2 ^ (ex - e)) with (n * 2 ^ (- e)).
  2:{ rewrite Hmx, <- Z.mul_assoc, <- Z.pow_add_r by lia. do 2 f_equal; lia. }
  replace (Zpos my * 2 ^ (ey - e)) with (c * 2 ^ (- e)).
  2:{ rewrite Hmy, <- Z.mul_assoc, <- Z.pow_add_r by lia. do 2 f_equal; lia. }
  rewrite Z.mul_mod_distr_r by lia.
  pose proof (Z.mod_pos_bound n c ltac:(lia)) as Hr.
  pose proof (Z.mod_le n c ltac:(lia) ltac:(lia)) as Hrn.
  set (r := n mod c) in *.
  destruct (Z.eq_dec r 0) as [->|Hr0]; [reflexivity|].
  simpl cond_Zopp.
  assert (Hpos : 0 < r * 2 ^ (- e)) by nia.
  destruct (r * 2 ^ (- e)) as [|p|p] eqn:Hp; try lia.
  unfold binary_normalize.
  assert (Hp53 : Zpos p < 2 ^ 53).
  { rewrite <- Hp.
    destruct (Z_le_gt_dec ex ey) as [Hle|Hgt].
    - replace e with ex by (unfold e; lia).
      apply Z.le_lt_trans with (Zpos mx); [rewrite Hmx; nia|exact Hmx53].
    - replace e with ey by (unfold e; lia).
      apply Z.le_lt_trans with (Zpos my); [rewrite Hmy; nia|exact Hmy53]. }
  destruct (binary_round_exact p e) as (mz & ez & Hround & Hez & Hmz & Hvalid).
  { apply (Zdigits2_le (Zpos p) 53); lia. }
  { unfold e; lia. }
  { unfold e; lia. }
  rewrite Hround.
  apply (whole_number_eq _ mz ez r).
  - apply Prim2SF_SF2Prim; exact Hvalid.
  - lia.
  - rewrite Hmz, <- Hp, <- Z.mul_assoc, <- Z.pow_add_r by lia. do 2 f_equal; lia.
  - lia.
Qed.

(** [Math.floor] of a number of [0, 2 ^ 32). *)
Lemma floor_whole (d : float) :
  (0 <=? d)%float = true -> (d <=? 4294967295)%float = true ->
  (exists s, Prim2SF d = S754_zero s)
  \/ exists n, 0 <= n <= 4294967295 /\ Math_floor d = toNumber n.
Proof.
  intros H0 Hle.
  destruct (leb_small d 4294967295%float 9007199252643840 (-21) 4294967295 H0 Hle)
    as [Hs Hn]; [reflexivity|lia|vm_compute; discriminate|reflexivity|].
  destruct Hs as [Hz|(s & m & e & Hf & Hb)]; [left; exact Hz|right].
  rewrite Hf in Hn; inversion Hn; subst s.
  pose proof (smallNumber_exponent d false m e 4294967295 Hf Hb ltac:(split; reflexivity || lia))
    as He.
  destruct Hb as [_ Hm]; replace (0 - e) with (- e) in Hm by lia.
  assert (Hp : 0 < 2 ^ (- e)) by (apply Z.pow_pos_nonneg; lia).
  exists (Zpos m / 2 ^ (- e)); split.
  - split; [apply Z.div_pos; lia|].
    apply Z.div_le_upper_bound; [exact Hp|lia].
  - unfold Math_floor; rewrite Hf.
    replace (0 <=? e) with false by (symmetry; apply Z.leb_gt; lia).
    cbv zeta; simpl cond_Zopp.
    assert (Hq : 0 <= Zpos m / 2 ^ (- e)) by (apply Z.div_pos; lia).
    destruct (Zpos m / 2 ^ (- e) =? 0) eqn:Hq0;
      [apply Z.eqb_eq in Hq0; rewrite Hq0; reflexivity|].
    unfold ofInteger.
    replace (Zpos m / 2 ^ (- e) <? 0) with false by (symmetry; apply Z.ltb_ge; lia).
    reflexivity.
Qed.

Lemma numberText_whole otherText k :
  0 <= k < 2 ^ 53 -> numberText otherText (toNumber k) = decimalText k.
Proof.
  intros Hk; destruct (Z.eq_dec k 0) as [->|Hk0]; [reflexivity|].
  destruct (toNumber_finite k ltac:(lia)) as (m & e & Hx & He & Hm).
  unfold numberText; rewrite Hx, (integerOf_toNumber k Hk).
  replace (Z.abs k <? 2 ^ 53) with true by (symmetry; apply Z.ltb_lt; lia).
  replace (k <? 0) with false by (symmetry; apply Z.ltb_ge; lia).
  rewrite Z.abs_eq by lia; reflexivity.
Qed.

Lemma two_digits_all :
  forallb (fun k => ((String.length (padStart 2 "0" (decimalText k)) =? 2)
                     && (1 <=? String.length (decimalText k))
                     && (String.length (decimalText k) <=? 2))%nat%bool) (range 60) = true.
Proof. vm_compute; reflexivity. Qed.

Lemma two_digits k :
  0 <= k < 60 ->
  String.length (padStart 2 "0" (decimalText k)) = 2%nat
  /\ (1 <= String.length (decimalText k) <= 2)%nat.
Proof.
  intros Hk; pose proof two_digits_all as Hall.
  rewrite forallb_forall in Hall; specialize (Hall k (In_range 60 k ltac:(lia))).
  apply andb_prop in Hall as [Hall H2]; apply andb_prop in Hall as [H0 H1].
  apply Nat.eqb_eq in H0; apply Nat.leb_le in H1, H2. lia.
Qed.

(** X12: the text of a duration between 0 and 2^32 - 1 seconds.  With
    [n] the whole seconds of the duration, the text shows the hours, minutes
    and seconds that add up to [n], minutes and seconds below 60.  The
    seconds are always on two digits.  When the hours are not zero they
    come first and the minutes are on two digits; when the hours are zero
    they are left out and the minutes are not padded: one or two digits, as
    in 1:05 for 65 seconds. *)
Theorem formatDuration_clock (otherText : float -> string) (duration : float) :
  (0 <=? duration)%float = true -> (duration <=? 4294967295)%float = true ->
  (exists n h m s,
      integerOf (Math_floor duration) = Some n
      /\ n = 3600 * h + 60 * m + s /\ 0 <= h /\ 0 <= m < 60 /\ 0 <= s < 60
      /\ String.length (padStart 2 "0" (decimalText s)) = 2%nat
      /\ (0 < h -> String.length (padStart 2 "0" (decimalText m)) = 2%nat)
      /\ (h = 0 -> (1 <= String.length (decimalText m) <= 2)%nat)
      /\ formatDuration otherText (Some duration)
         = JsString
             (if 0 <? h
              then decimalText h ++ ":" ++ padStart 2 "0" (decimalText m)
                   ++ ":" ++ padStart 2 "0" (decimalText s)
              else decimalText m ++ ":" ++ padStart 2 "0" (decimalText s)))
  /\ formatDuration otherText (Some 65%float) = JsString "1:05"
  /\ formatDuration otherText (Some 3725%float) = JsString "1:02:05".
Proof.
  intros H0 Hle; split; [|split; vm_compute; reflexivity].
  destruct (floor_whole duration H0 Hle) as [[s Hz]|(n & Hn & Hfloor)].
  - assert (Hd : duration = if s then (- 0)%float else 0%float).
    { apply Prim2SF_inj; rewrite Hz; destruct s; reflexivity. }
    exists 0, 0, 0, 0; rewrite Hd.
    split; [destruct s; reflexivity|].
    split; [reflexivity|split; [lia|split; [lia|split; [lia|]]]].
    split; [reflexivity|split; [lia|split; [intros _; vm_compute; lia|]]].
    destruct s; vm_compute; reflexivity.
  - assert (H32 : 4294967295 < 2 ^ 32) by reflexivity.
    assert (H53 : 2 ^ 32 < 2 ^ 53) by reflexivity.
    set (h := n / 3600); set (a := n mod 3600).
    set (m := a / 60); set (s := n mod 60).
    pose proof (Z.div_mod n 3600 ltac:(lia)) as Hn1; fold h a in Hn1.
    pose proof (Z.mod_pos_bound n 3600 ltac:(lia)) as Ha; fold a in Ha.
    pose proof (Z.div_mod a 60 ltac:(lia)) as Ha1; fold m in Ha1.
    pose proof (Z.mod_pos_bound a 60 ltac:(lia)) as Ht.
    pose proof (Z.mod_pos_bound n 60 ltac:(lia)) as Hs; fold s in Hs.
    assert (Hh : 0 <= h < 2 ^ 32).
    { split; [apply Z.div_pos; lia|apply Z.div_lt_upper_bound; lia]. }
    assert (Hm : 0 <= m < 60).
    { split; [apply Z.div_pos; lia|apply Z.div_lt_upper_bound; lia]. }
    assert (Hst : s = a mod 60).
    { unfold s; symmetry; apply Z.mod_unique with (60 * h + m); [left; exact Ht|].
      revert Hn1 Ha1; generalize (a mod 60); intros t Hn1 Ha1. lia. }
    exists n, h, m, s.
    split; [rewrite Hfloor; apply integerOf_toNumber; lia|].
    split; [lia|split; [lia|split; [exact Hm|split; [exact Hs|]]]].
    split; [apply two_digits; exact Hs|].
    split; [intros _; apply two_digits; exact Hm|].
    split; [intros _; apply two_digits; exact Hm|].
    unfold formatDuration; cbv zeta; rewrite Hfloor.
    change 3600%float with (toNumber 3600); change 60%float with (toNumber 60).
    rewrite (floor_quotient n 3600), (rem_integers n 3600), (rem_integers n 60) by lia.
    fold h a s.
    rewrite (floor_quotient a 60) by lia; fold m.
    change 0%float with (toNumber 0).
    rewrite (toNumber_ltb 0 h) by lia.
    rewrite !numberText_whole by lia.
    destruct (0 <? h); reflexivity.
Qed.

Lemma formatDuration_clock_witness :
  formatDuration (fun _ => EmptyString) (Some 65%float) = JsString "1:05".
Proof.
  refine (proj1 (proj2 (formatDuration_clock (fun _ => EmptyString) 0x1.d1bp+11%float _ _)));
    vm_compute; reflexivity.
Defined.

(** * The bearing between two points *)

(** ** Exact results in binary64 *)

Lemma small_within A f : smallNumber A f <-> within A A f.
Proof.
  unfold smallNumber, within; split;
    (intros [Hz|(s & m & e & Hf & Hb)];
     [left; exact Hz|right; exists s, m, e; split; [exact Hf|destruct s; exact Hb]]).
Qed.

Lemma sub_small (x y : float) A B :
  smallNumber A (Prim2SF x) -> smallNumber B (Prim2SF y) ->
  0 <= A -> 0 <= B -> Zdigits2 (A + B) <= 53 ->
  smallNumber (A + B) (Prim2SF (x - y)%float).
Proof.
  intros Hx Hy HA HB Hd; apply small_within.
  apply (sub_within x y A A B B); try assumption; apply small_within; assumption.
Qed.

Lemma small_finite (x : float) A : smallNumber A (Prim2SF x) -> finiteNumber x.
Proof.
  unfold finiteNumber; intros [[s ->]|(s & m & e & -> & _)]; exact I.
Qed.

Lemma small_not_nan (x : float) A : smallNumber A (Prim2SF x) -> Prim2SF x <> S754_nan.
Proof.
  intros [[s ->]|(s & m & e & -> & _)]; discriminate.
Qed.

(** [x - x] is [+0]. *)
Lemma sub_self (x : float) : finiteNumber x -> (x - x)%float = 0%float.
Proof.
  unfold finiteNumber; intros Hx; apply Prim2SF_inj.
  rewrite FloatAxioms.sub_spec.
  destruct (Prim2SF x) as [s|s| |s m e]; try contradiction.
  - destruct s; reflexivity.
  - unfold SF64sub, SFsub; rewrite Z.sub_diag; reflexivity.
Qed.

Lemma mul_comm (x y : float) : (x * y)%float = (y * x)%float.
Proof.
  apply Prim2SF_inj; rewrite !FloatAxioms.mul_spec.
  destruct (Prim2SF x) as [sx|sx| |sx mx ex], (Prim2SF y) as [sy|sy| |sy my ey];
    unfold SF64mul, SFmul; rewrite ?(Bool.xorb_comm sx sy); try reflexivity.
  rewrite (Pos.mul_comm mx my), (Z.add_comm ex ey); reflexivity.
Qed.

(** [x * 1] is [x]. *)
Lemma mul_one (x : float) : finiteNumber x -> (x * 1)%float = x.
Proof.
  unfold finiteNumber; intros Hx; apply Prim2SF_inj.
  destruct (Prim2SF x) as [s|s| |s m e] eqn:Hf; try contradiction.
  - rewrite FloatAxioms.mul_spec, Hf; destruct s; reflexivity.
  - destruct (finite_valid x s m e Hf) as (Hc & Hmax & Hm53 & Hmin).
    pose proof (Prim2SF_valid (x * 1)%float) as Hvalid.
    rewrite FloatAxioms.mul_spec, Hf in Hvalid |- *.
    change (Prim2SF 1) with (S754_finite false 4503599627370496 (-52)) in Hvalid |- *.
    unfold SF64mul, SFmul in Hvalid |- *.
    rewrite Bool.xorb_false_r in Hvalid |- *.
    destruct (binary_round_aux_between s (Zpos (m * 4503599627370496)) (e + -52) loc_Exact
                (Zpos m) (Zpos m) e)
      as [[H0 _]|(m' & e' & Hr & He' & Hlo & Hhi)]; try lia.
    + change (Zdigits2 (Zpos m)) with (Zpos (digits2_pos m)); lia.
    + split; [lia|].
      replace (e - (e + -52)) with 52 by lia. rewrite Pos2Z.inj_mul. reflexivity.
    + intros Hloc; exfalso; apply Hloc; reflexivity.
    + replace (e - (e + -52)) with 52 by lia. rewrite Pos2Z.inj_mul. apply Z.le_refl.
    + rewrite Hr in Hvalid |- *.
      unfold SpecFloat.valid_binary, bounded, canonical_mantissa in Hvalid.
      apply andb_prop in Hvalid as [Hc' _]; apply Z.eqb_eq in Hc'.
      destruct (canonical_unique m' e' m e Hc' Hc He') as [-> ->]; [lia|reflexivity].
Qed.

(** [+0] times a finite number is a zero. *)
Lemma zero_mul (c : float) :
  finiteNumber c -> exists s, Prim2SF (0 * c)%float = S754_zero s.
Proof.
  unfold finiteNumber; intros Hc; rewrite FloatAxioms.mul_spec.
  change (Prim2SF 0) with (S754_zero false).
  destruct (Prim2SF c) as [s|s| |s m e]; try contradiction; eexists; reflexivity.
Qed.

(** ** Coordinates in radians *)

Lemma coordinate_small (x : float) : coordinate x -> smallNumber (2 ^ 32) (Prim2SF x).
Proof.
  unfold coordinate; rewrite FloatAxioms.leb_spec, FloatAxioms.abs_spec.
  change (Prim2SF 0x1p+32) with (S754_finite false 4503599627370496 (-20)).
  destruct (Prim2SF x) as [s|s| |s m e] eqn:Hx; cbn [SFabs]; try discriminate.
  - intros _; left; exists s; reflexivity.
  - intros Hle; right; exists s, m, e; split; [reflexivity|].
    destruct (finite_valid x s m e Hx) as (_ & _ & Hm53 & _).
    apply SFleb_positive in Hle.
    change (2 ^ 53) with 9007199254740992 in Hm53.
    change (2 ^ 32) with 4294967296.
    destruct Hle as [Hlt|[-> Hm]].
    + split; [lia|].
      assert (2 ^ 21 <= 2 ^ (0 - e)) by (apply Z.pow_le_mono_r; lia).
      change (2 ^ 21) with 2097152 in *. lia.
    + split; [lia|]. change (2 ^ (0 - -20)) with 1048576. lia.
Qed.

Lemma radians_small (v : float) :
  smallNumber (2 ^ 33) (Prim2SF v) ->
  smallNumber (2 ^ 35) (Prim2SF (v * Geodesy.Math_PI / 180)%float).
Proof.
  intros Hv.
  apply (div_small_const _ 180%float false 6333186975989760 (-45) (2 ^ 33 * 4) (2 ^ 35) 180);
    try reflexivity; try lia; try (vm_compute; discriminate).
  apply mul_small; [exact Hv| |lia|lia|vm_compute; discriminate].
  right; exists false, 7074237752028440%positive, (-51).
  split; [reflexivity|split; [lia|vm_compute; discriminate]].
Qed.

Lemma coordinate_radians (x : float) :
  coordinate x -> finiteNumber (x * Geodesy.Math_PI / 180)%float.
Proof.
  intros Hx; apply small_finite with (2 ^ 35), radians_small.
  apply smallNumber_weaken with (2 ^ 32); [lia|apply coordinate_small; exact Hx].
Qed.

Lemma difference_radians (a b : float) :
  coordinate a -> coordinate b -> finiteNumber ((b - a) * Geodesy.Math_PI / 180)%float.
Proof.
  intros Ha Hb; apply small_finite with (2 ^ 35), radians_small.
  change (2 ^ 33) with (2 ^ 32 + 2 ^ 32).
  apply sub_small; try (apply coordinate_small; assumption); try lia.
  vm_compute; discriminate.
Qed.

(** ** The library that shows the conditions can be met *)

Lemma coarseMath_conforms : conforms coarseMath.
Proof.
  constructor; unfold coarseMath, finiteNumber; cbn [Geodesy.Math_sin Geodesy.Math_cos
                                                     Geodesy.Math_atan2].
  - intros x s ->; reflexivity.
  - intros x Hx; destruct (Prim2SF x); try reflexivity; exfalso; apply Hx; exact I.
  - intros x Hx; destruct (Prim2SF x) as [s|s| |s m e] eqn:Hf; try contradiction.
    + rewrite Hf; left; exists s; reflexivity.
    + left; exists false; reflexivity.
  - intros x s ->; reflexivity.
  - intros x Hx; destruct (Prim2SF x); try reflexivity; exfalso; apply Hx; exact I.
  - intros x Hx; destruct (Prim2SF x) as [s|s| |s m e]; try contradiction;
      right; exists false, 4503599627370496%positive, (-52);
      (split; [reflexivity|split; [lia|vm_compute; discriminate]]).
  - intros y x [-> | ->]; [reflexivity|destruct (Prim2SF y); reflexivity].
  - intros y s Hy; rewrite Hy; reflexivity.
  - intros y x Hy Hx.
    assert (Hzero : forall s, Prim2SF y = S754_zero s ->
              (- Geodesy.Math_PI <=? y)%float = true /\ (y <=? Geodesy.Math_PI)%float = true).
    { intros s Hs; rewrite !FloatAxioms.leb_spec, Hs; destruct s; split; reflexivity. }
    destruct (Prim2SF y) as [sy|sy| |sy my ey] eqn:Hfy; [| |contradiction|].
    + destruct (Prim2SF x) as [sx|sx| |sx mx ex]; [| |contradiction|];
        destruct sx; try (apply (Hzero sy); reflexivity);
        destruct sy; split; reflexivity.
    + destruct (Prim2SF x); [| |contradiction|]; destruct sy; split; reflexivity.
    + destruct (Prim2SF x); [| |contradiction|]; destruct sy; split; reflexivity.
Qed.

(** ** C8: the forward bearing *)

(** C8: in binary64, with [Math.sin], [Math.cos] and [Math.atan2] any
    functions that meet what ECMAScript says of them, the forward bearing
    of any two points with coordinates in decimal degrees is a number in
    [0, 360), never [NaN], and it is 0 when origin and target are the same
    point.  The function is straight-line arithmetic and cannot throw. *)
Theorem calculateBearing_range
    (M : Geodesy.MathLibrary) (lat1 lng1 lat2 lng2 : float) :
  conforms M ->
  coordinate lat1 -> coordinate lng1 -> coordinate lat2 -> coordinate lng2 ->
  (0 <=? Geodesy.calculateBearing M lat1 lng1 lat2 lng2)%float = true
  /\ (Geodesy.calculateBearing M lat1 lng1 lat2 lng2 <? 360)%float = true
  /\ Geodesy.calculateBearing M lat1 lng1 lat1 lng1 = 0%float.
Proof.
  intros HM Hlat1 Hlng1 Hlat2 Hlng2.
  pose proof (coordinate_radians lat1 Hlat1) as Hr1.
  pose proof (coordinate_radians lat2 Hlat2) as Hr2.
  pose proof (difference_radians lng1 lng2 Hlng1 Hlng2) as Hd.
  assert (Hrange : (0 <=? Geodesy.calculateBearing M lat1 lng1 lat2 lng2)%float = true
                   /\ (Geodesy.calculateBearing M lat1 lng1 lat2 lng2 <? 360)%float = true).
  { unfold Geodesy.calculateBearing; cbv zeta.
    set (dLng := ((lng2 - lng1) * Geodesy.Math_PI / 180)%float) in *.
    set (lat1Rad := (lat1 * Geodesy.Math_PI / 180)%float) in *.
    set (lat2Rad := (lat2 * Geodesy.Math_PI / 180)%float) in *.
    pose proof (sin_finite M HM dLng Hd) as Hsd.
    pose proof (cos_finite M HM dLng Hd) as Hcd.
    pose proof (sin_finite M HM lat1Rad Hr1) as Hs1.
    pose proof (cos_finite M HM lat1Rad Hr1) as Hc1.
    pose proof (sin_finite M HM lat2Rad Hr2) as Hs2.
    pose proof (cos_finite M HM lat2Rad Hr2) as Hc2.
    assert (H1 : Zdigits2 (1 * 1) <= 53) by (vm_compute; discriminate).
    assert (H2 : Zdigits2 (1 + 1) <= 53) by (vm_compute; discriminate).
    apply normalizeBearing_range; apply (atan2_range M HM).
    - apply small_not_nan with (1 * 1), mul_small; try assumption; lia.
    - apply small_not_nan with (1 + 1), sub_small; try lia; try assumption.
      + apply (mul_small _ _ 1 1); try assumption; lia.
      + change 1 with (1 * 1) at 1; apply mul_small; try assumption; try lia.
        apply (mul_small _ _ 1 1); try assumption; lia.
    - apply small_not_nan with (1 * 1), mul_small; try assumption; lia.
    - apply small_not_nan with (1 + 1), sub_small; try lia; try assumption.
      + apply (mul_small _ _ 1 1); try assumption; lia.
      + change 1 with (1 * 1) at 1; apply mul_small; try assumption; try lia.
        apply (mul_small _ _ 1 1); try assumption; lia. }
  split; [apply Hrange|split; [apply Hrange|]].
  unfold Geodesy.calculateBearing; cbv zeta.
  assert (Hlng : finiteNumber lng1) by (apply small_finite with (2 ^ 32), coordinate_small; exact Hlng1).
  rewrite (sub_self lng1 Hlng).
  change (0 * Geodesy.Math_PI / 180)%float with 0%float.
  rewrite (sin_zero M HM 0%float false), (cos_zero M HM 0%float false) by reflexivity.
  set (lat1Rad := (lat1 * Geodesy.Math_PI / 180)%float) in *.
  pose proof (sin_finite M HM lat1Rad Hr1) as Hs1.
  pose proof (cos_finite M HM lat1Rad Hr1) as Hc1.
  assert (Hp : finiteNumber (Geodesy.Math_sin M lat1Rad * Geodesy.Math_cos M lat1Rad)%float).
  { apply small_finite with (1 * 1), mul_small; try assumption; try lia.
    vm_compute; discriminate. }
  rewrite (mul_one _ Hp), (mul_comm (Geodesy.Math_cos M lat1Rad)), (sub_self _ Hp).
  destruct (zero_mul (Geodesy.Math_cos M lat1Rad) (small_finite _ 1 Hc1)) as [s Hz].
  rewrite (atan2_zero M HM _ s Hz).
  assert (Hy : (0 * Geodesy.Math_cos M lat1Rad)%float = if s then (- 0)%float else 0%float).
  { apply Prim2SF_inj; rewrite Hz; destruct s; reflexivity. }
  rewrite Hy; destruct s; vm_compute; reflexivity.
Qed.

(** Toronto to a point north-west of it, with the coarse library. *)
Lemma calculateBearing_range_witness :
  (0 <=? Geodesy.calculateBearing coarseMath 0x1.5d3p+5 (- 0x1.3d8p+6) 0x1.5d8p+5 (- 0x1.3dcp+6))%float
  = true
  /\ (Geodesy.calculateBearing coarseMath 0x1.5d3p+5 (- 0x1.3d8p+6) 0x1.5d8p+5 (- 0x1.3dcp+6)
      <? 360)%float = true
  /\ Geodesy.calculateBearing coarseMath 0x1.5d3p+5 (- 0x1.3d8p+6) 0x1.5d3p+5 (- 0x1.3d8p+6)
     = 0%float.
Proof.
  apply (calculateBearing_range coarseMath 0x1.5d3p+5 (- 0x1.3d8p+6) 0x1.5d8p+5 (- 0x1.3dcp+6));
    [exact coarseMath_conforms|reflexivity|reflexivity|reflexivity|reflexivity].
Defined.

(** Outside the coordinates the intermediate results can overflow: two
    longitudes whose difference is [Infinity] give [NaN], which is not in
    [0, 360). *)
Lemma calculateBearing_overflow (M : Geodesy.MathLibrary) :
  conforms M ->
  Geodesy.calculateBearing M 0 (- 0x1p+1023) 0 0x1p+1023 = nan
  /\ (0 <=? nan)%float = false.
Proof.
  intros HM; split; [|reflexivity].
  unfold Geodesy.calculateBearing; cbv zeta.
  change ((0x1p+1023 - - 0x1p+1023) * Geodesy.Math_PI / 180)%float with infinity.
  rewrite (sin_nan M HM infinity) by (intros H; exact H).
  change (0 * Geodesy.Math_PI / 180)%float with 0%float.
  rewrite (cos_zero M HM 0%float false) by reflexivity.
  change (nan * 1)%float with nan.
  rewrite (atan2_nan M HM nan) by (left; reflexivity).
  reflexivity.
Qed.
